(** * Sudoku engine of py-sudoku-solver: a shallow embedding and its properties

    The development follows [solver.py] and [sudosolver.py]: the peer
    computation, the partition of a grid into groups, the backtracking
    search, the two checkers and the text format of stored grids.  The
    embedding comes first, the properties after it. *)

From Stdlib Require Import Ascii String.
From stdpp Require Import base list gmap sets strings pretty.

(** * The embedding *)

(** ** Outcomes of a Python call *)

(** The exceptions the engine can raise. *)
Inductive exn := IndexError | ValueError | IOError | ZeroDivisionError.

(** A call returns a value, raises, or (for the fuel-indexed search only)
    needs more stack frames than it was given. *)
Inductive res (A : Type) :=
  | Ok (a : A)
  | Raise (e : exn)
  | OutOfFuel.
Arguments Ok {A} a.
Arguments Raise {A} e.
Arguments OutOfFuel {A}.

#[global] Instance exn_eq_dec : EqDecision exn.
Proof. solve_decision. Defined.
#[global] Instance res_eq_dec {A} `{EqDecision A} : EqDecision (res A).
Proof. solve_decision. Defined.

#[global] Instance res_ret : MRet res := λ A a, Ok a.
#[global] Instance res_bind : MBind res := λ A B f m,
  match m with
  | Ok a => f a
  | Raise e => Raise e
  | OutOfFuel => OutOfFuel
  end.
#[global] Instance res_fmap : FMap res := λ A B f m,
  match m with
  | Ok a => Ok (f a)
  | Raise e => Raise e
  | OutOfFuel => OutOfFuel
  end.

(** [l[i]] for a non-negative index. *)
Definition getitem {A} (l : list A) (i : nat) : res A :=
  match l !! i with
  | Some a => Ok a
  | None => Raise IndexError
  end.

(** [range(start, stop)]. *)
Definition range (start stop : nat) : list nat := seq start (stop - start).

(** [range(0, stop, step)]; Python rejects a zero step. *)
Definition range_step (stop step : nat) : res (list nat) :=
  if decide (step = 0) then Raise ValueError
  else Ok ((λ i, i * step) <$> seq 0 ((stop + step - 1) / step)).

(** [enumerate(l)]. *)
Definition enumerate {A} (l : list A) : list (nat * A) := imap pair l.

(** ** Grid model *)

(** A cell is a [tk.IntVar]; [get] always yields an integer.  A grid is
    the list of its rows, and the explicit grid value threaded through
    [solve] stands for the shared mutable cells. *)
Abbreviation Group := (list Z).
Abbreviation Grid := (list (list Z)).
Abbreviation Coords := (nat * nat)%type.

Definition EMPTY_CELL_VALUE : Z := 0.

(** [grid[y][x].get()]. *)
Definition get_cell (grid : Grid) (y x : nat) : res Z :=
  row ← getitem grid y; getitem row x.

(** [grid[y][x].set(v)], used by the source at scanned (in-range)
    positions only; elsewhere the model leaves the grid unchanged. *)
Definition set_cell (grid : Grid) (y x : nat) (v : Z) : Grid :=
  alter (<[x := v]>) y grid.

(** Total view of a cell, for statements. *)
Definition cell (grid : Grid) (y x : nat) : option Z :=
  grid !! y ≫= (.!! x).

(** ** Peers *)

(** [int(math.sqrt(n))]: the integer square root.  The double-precision
    root that Python truncates gives it exactly for every [n] below
    [2^52], and so for the length of any list. *)
Definition int_sqrt (n : nat) : nat := Nat.sqrt n.

Definition get_bound_box (coords : Coords) (grid_size : nat)
  : res (nat * nat * nat) :=
  let '(y, x) := coords in
  let box_width := int_sqrt grid_size in
  if decide (box_width = 0) then Raise ZeroDivisionError
  else Ok (y - (y mod box_width), x - (x mod box_width), box_width).

(** The coordinates the two nested box loops read. *)
Definition box_loop_cells (top left_ box_size y0 x0 : nat) : list Coords :=
  y ← range top (top + box_size);
  x ← range left_ (left_ + box_size);
  if decide (y ≠ y0 ∧ x ≠ x0) then [(y, x)] else [].

Definition get_peers (grid : Grid) (coords : Coords) : res (gset Z) :=
  let '(y0, x0) := coords in
  (* row *)
  row0 ← getitem grid y0;
  let s : gset Z :=
    list_to_set ((filter (λ p, p.1 ≠ x0) (enumerate row0)).*2) in
  (* col *)
  col ← mapM (λ p, getitem p.2 x0) (filter (λ p, p.1 ≠ y0) (enumerate grid));
  let s := s ∪ list_to_set col in
  (* box *)
  '(top, left_, box_size) ← get_bound_box (y0, x0) (length grid);
  box ← mapM (λ p, get_cell grid p.1 p.2)
             (box_loop_cells top left_ box_size y0 x0);
  Ok (s ∪ list_to_set box).

(** ** Divisions *)

(** [cols]: the rows zipped together, that is the transpose, cut at the
    shortest row as [zip] does. *)
Definition cols (grid : Grid) : list Group :=
  match grid with
  | [] => []
  | row0 :: rest =>
      (λ x, (λ row, default 0%Z (row !! x)) <$> grid)
        <$> seq 0 (foldr Nat.min (length row0) (length <$> rest))
  end.

(** [lst[a:b]] for non-negative bounds. *)
Definition slice {A} (l : list A) (a b : nat) : list A := take (b - a) (drop a l).

(** The body of the two outer loops of [boxes]: one box. *)
Definition box_at (grid : Grid) (y0 x0 box_width_cells : nat) : res Group :=
  rows ← mapM (λ y, row ← getitem grid y; Ok (slice row x0 (x0 + box_width_cells)))
              (range y0 (y0 + box_width_cells));
  Ok (concat rows).

Definition boxes (grid : Grid) : res (list Group) :=
  let grid_width_boxes := int_sqrt (length grid) in
  let box_width_cells := grid_width_boxes in
  ys ← range_step (length grid) grid_width_boxes;
  xs ← range_step (length grid) grid_width_boxes;
  mapM (λ p, box_at grid p.1 p.2 box_width_cells) (y0 ← ys; x0 ← xs; [(y0, x0)]).

(** ** Solve *)

(** The scan of one row: the first [x] of [xs] with an empty cell. *)
Fixpoint scan_row (row : Group) (xs : list nat) : option nat :=
  match xs with
  | [] => None
  | x :: xs' =>
      if decide (row !! x = Some EMPTY_CELL_VALUE) then Some x
      else scan_row row xs'
  end.

(** The two scanning loops of [solve] up to their [if]: the first empty
    cell in row-major order from the cursor [(y0, x0)]. *)
Fixpoint scan_rows (grid : Grid) (y0 x0 : nat) (ys : list nat) : option Coords :=
  match ys with
  | [] => None
  | y :: ys' =>
      match grid !! y with
      | None => None
      | Some row =>
          match scan_row row (range (if decide (y = y0) then x0 else 0) (length row)) with
          | Some x => Some (y, x)
          | None => scan_rows grid y0 x0 ys'
          end
      end
  end.

Definition first_empty (grid : Grid) (y0 x0 : nat) : option Coords :=
  scan_rows grid y0 x0 (range y0 (length grid)).

(** The digit loop and the backtrack step after it; [rec] is the
    recursive call. *)
Fixpoint try_digits (rec : Grid → nat → nat → res (bool * Grid))
    (peer_set : gset Z) (y x : nat) (digits : list nat) (grid : Grid)
  : res (bool * Grid) :=
  match digits with
  | [] => Ok (false, set_cell grid y x EMPTY_CELL_VALUE)
  | digit :: digits' =>
      if decide (Z.of_nat digit ∈ peer_set)
      then try_digits rec peer_set y x digits' grid
      else
        '(solved, grid') ← rec (set_cell grid y x (Z.of_nat digit)) y x;
        if (solved : bool) then Ok (true, grid')
        else try_digits rec peer_set y x digits' grid'
  end.

(** One activation of [solve]. *)
Definition solve_body (rec : Grid → nat → nat → res (bool * Grid))
    (grid : Grid) (y0 x0 : nat) : res (bool * Grid) :=
  match first_empty grid y0 x0 with
  | Some (y, x) =>
      peer_set ← get_peers grid (y, x);
      try_digits rec peer_set y x (range 1 (length grid + 1)) grid
  | None => Ok (true, grid)
  end.

(** [solve_fuel n] allows [n] nested activations. *)
Fixpoint solve_fuel (fuel : nat) (grid : Grid) (y0 x0 : nat) : res (bool * Grid) :=
  match fuel with
  | 0 => OutOfFuel
  | S fuel' => solve_body (solve_fuel fuel') grid y0 x0
  end.

(** Number of cells and of empty cells of a grid. *)
Definition cell_count (grid : Grid) : nat := length (concat grid).
Definition count_empty (grid : Grid) : nat :=
  length (filter (λ v, v = EMPTY_CELL_VALUE) (concat grid)).

(** [solve(grid)] with the default cursor; the stack allowance is one
    frame per cell plus the outermost one. *)
Definition solve (grid : Grid) : res (bool * Grid) :=
  solve_fuel (S (cell_count grid)) grid 0 0.

(** ** Checkers *)

Definition all_digits (grid : Grid) : gset Z :=
  list_to_set (Z.of_nat <$> range 1 (length grid + 1)).

Definition is_solved (grid : Grid) : res bool :=
  bs ← boxes grid;
  Ok (forallb (λ group : Group,
                 bool_decide ((list_to_set group : gset Z) = all_digits grid))
              (grid ++ cols grid ++ bs)).

Definition is_valid_puzzle (grid : Grid) : res bool :=
  bs ← boxes grid;
  Ok (forallb (λ group : Group,
                 let digits_in_group := filter (λ v, v ≠ EMPTY_CELL_VALUE) group in
                 bool_decide (length digits_in_group
                              = size (list_to_set digits_in_group : gset Z)))
              (grid ++ cols grid ++ bs)).

(** ** Well-formed grids *)

(** An [N]×[N] grid. *)
Definition square_grid (N : nat) (grid : Grid) : Prop :=
  length grid = N ∧ Forall (λ row, length row = N) grid.

(** [N] is a perfect square: the box width times itself. *)
Definition perfect_square (N : nat) : Prop := int_sqrt N * int_sqrt N = N.

(** Every clue present at the start is still there at the end. *)
Definition keeps_clues (g g' : Grid) : Prop :=
  ∀ y x v, v ≠ EMPTY_CELL_VALUE → cell g y x = Some v → cell g' y x = Some v.

(** ** The scan for the next empty cell *)

(** Row-major order on coordinates: [(y0, x0)] is at or before [(y, x)]. *)
Definition at_or_after (y0 x0 y x : nat) : Prop := y0 < y ∨ (y0 = y ∧ x0 ≤ x).

(** ** The search: what every activation guarantees *)

(** A recursive call that fails hands the grid back as it received it. *)
Definition restores (rec : Grid → nat → nat → res (bool * Grid)) : Prop :=
  ∀ g y x g', rec g y x = Ok (false, g') → g' = g.

(** A recursive call that returns leaves every clue in place. *)
Definition preserves_clues (rec : Grid → nat → nat → res (bool * Grid)) : Prop :=
  ∀ g y x b g', rec g y x = Ok (b, g') → keeps_clues g g'.

(** ** Peers of a cell *)

(** [(y, x)] lies in the box of [(y0, x0)], for boxes of width [b]. *)
Definition in_box_of (b y0 x0 y x : nat) : Prop :=
  y / b = y0 / b ∧ x / b = x0 / b.

(** ** Groups of a grid *)

(** The value shown at a coordinate, and the values along a list of
    coordinates. *)
Definition val (g : Grid) (p : Coords) : Z := default 0%Z (cell g p.1 p.2).
Definition vals (g : Grid) (ps : list Coords) : Group := val g <$> ps.

(** The coordinates of row [y], of column [x], and of the box with
    top-left corner [(top, left_)], row by row. *)
Definition row_coords (N y : nat) : list Coords := (λ x, (y, x)) <$> seq 0 N.
Definition col_coords (N x : nat) : list Coords := (λ y, (y, x)) <$> seq 0 N.
Definition box_coords (b top left_ : nat) : list Coords :=
  y ← seq top b; x ← seq left_ b; [(y, x)].

(** The groups of an [N]×[N] grid with boxes of width [b]: its [N] rows,
    [N] columns and [b]×[b] boxes. *)
Definition is_group (N b : nat) (ps : list Coords) : Prop :=
  (∃ y, y < N ∧ ps = row_coords N y)
  ∨ (∃ x, x < N ∧ ps = col_coords N x)
  ∨ (∃ i j, i < b ∧ j < b ∧ ps = box_coords b (i * b) (j * b)).

(** The box corners in the order the two outer loops of [boxes] visit them. *)
Definition box_corners (b : nat) : list Coords :=
  y0 ← (λ i, i * b) <$> seq 0 b; x0 ← (λ i, i * b) <$> seq 0 b; [(y0, x0)].

(** ** What the checkers decide *)

(** The digits [1..N]. *)
Definition digits (N : nat) : Group := Z.of_nat <$> seq 1 N.

(** No two distinct cells along [ps] hold the same non-zero value. *)
Definition no_duplicate_digit (g : Grid) (ps : list Coords) : Prop :=
  ∀ p q, p ∈ ps → q ∈ ps → p ≠ q → val g p = val g q →
         val g p = EMPTY_CELL_VALUE.

(** A statement about every row, every column and every box. *)
Definition every_group (N : nat) (P : list Coords → Prop) : Prop :=
  (∀ y, y < N → P (row_coords N y))
  ∧ (∀ x, x < N → P (col_coords N x))
  ∧ (∀ i j, i < int_sqrt N → j < int_sqrt N →
            P (box_coords (int_sqrt N) (i * int_sqrt N) (j * int_sqrt N))).

(** ** Soundness of the search *)

(** No group holds a digit twice. *)
Definition consistent (N : nat) (g : Grid) : Prop :=
  every_group N (no_duplicate_digit g).

(** Every cell holds [0] or a digit of [1..N]. *)
Definition in_range (N : nat) (g : Grid) : Prop :=
  Forall (Forall (λ v, (0 ≤ v ≤ Z.of_nat N)%Z)) g.

(** The same, cell by cell. *)
Definition cells_in_range (N : nat) (g : Grid) : Prop :=
  ∀ y x v, cell g y x = Some v → (0 ≤ v ≤ Z.of_nat N)%Z.

(** What a successful call establishes, from the cursor on. *)
Definition sound_call (N : nat) (rec : Grid → nat → nat → res (bool * Grid)) : Prop :=
  ∀ g y0 x0 g',
    square_grid N g → consistent N g → cells_in_range N g →
    rec g y0 x0 = Ok (true, g') →
    square_grid N g' ∧ consistent N g' ∧ cells_in_range N g'
    ∧ ∀ y x, at_or_after y0 x0 y x → cell g' y x ≠ Some EMPTY_CELL_VALUE.

(** ** Stored grids *)

(** A Python value as the file functions see it: an [int] or a [str]. *)
Inductive pyval := PyInt (n : Z) | PyStr (s : string).

#[global] Instance pyval_eq_dec : EqDecision pyval.
Proof. solve_decision. Defined.

Abbreviation RawGrid := (list (list pyval)).

(** [str(v)]. *)
Definition py_str (v : pyval) : string :=
  match v with
  | PyInt n => pretty n
  | PyStr s => s
  end.

(** [c.isspace()] for a character below U+0100, the range a Rocq
    [ascii] covers: tab to carriage return, the four separators
    U+001C..U+001F, space, U+0085 and U+00A0. *)
Definition isspace (c : ascii) : bool :=
  let n := nat_of_ascii c in
  ((9 <=? n) && (n <=? 13)) || ((28 <=? n) && (n <=? 32))
  || (n =? 133) || (n =? 160).

(** [int(c)] for a one-character string: the decimal digits parse,
    anything else is a [ValueError]. *)
Definition int_of_char (c : ascii) : res nat :=
  let n := nat_of_ascii c in
  if (48 <=? n) && (n <=? 57) then Ok (n - 48) else Raise ValueError.

(** [sep.join(l)]. *)
Fixpoint str_join (sep : string) (l : list string) : string :=
  match l with
  | [] => ""
  | s :: l' =>
      match l' with
      | [] => s
      | _ :: _ => s +:+ sep +:+ str_join sep l'
      end
  end.

Definition newline : string := String (ascii_of_nat 10) "".

Definition split_list {A} (lst : list A) (max_size : nat) : res (list (list A)) :=
  starts ← range_step (length lst) max_size;
  Ok ((λ i, slice lst i (i + max_size)) <$> (starts : list nat)).

(** The character loop of [read_grid]. *)
Fixpoint read_cells (valid_digits : gset string) (cs : list ascii)
    (flattened_grid : list pyval) : res (list pyval) :=
  match cs with
  | [] => Ok flattened_grid
  | c :: cs' =>
      if isspace c then read_cells valid_digits cs' flattened_grid
      else if decide (String c "" ∈ valid_digits)
      then read_cells valid_digits cs' (flattened_grid ++ [PyStr (String c "")])
      else Raise IOError
  end.

(** [read_grid] on the content of the file. *)
Definition read_grid (content : string) : res RawGrid :=
  match content with
  | EmptyString => Raise IndexError
  | String c0 rest =>
      width ← int_of_char c0;
      let valid_digits : gset string :=
        list_to_set (pretty <$> range 0 (width + 1)) in
      flattened_grid ← read_cells valid_digits (list_ascii_of_string rest) [];
      if decide (length flattened_grid ≠ width ^ 2) then Raise ValueError
      else split_list flattened_grid width
  end.

(** [write_grid]: the content written to the file. *)
Definition write_grid (grid : RawGrid) : string :=
  pretty (length grid) +:+ newline
  +:+ str_join newline ((λ row, str_join "  " (py_str <$> row)) <$> grid).

(** The characters of [content[1:]] that are not whitespace. *)
Definition cells (rest : string) : list ascii :=
  filter (λ c, isspace c = false) (list_ascii_of_string rest).

(** [c] is a decimal digit in [[0, N]]. *)
Definition valid_cell (N : nat) (c : ascii) : Prop :=
  ∃ d, int_of_char c = Ok d ∧ d ≤ N.

#[global] Instance valid_cell_dec N c : Decision (valid_cell N c).
Proof.
  unfold valid_cell. destruct (int_of_char c) as [d|e|] eqn:Hc.
  - destruct (decide (d ≤ N)) as [Hd|Hd].
    + left. by exists d.
    + right. intros (d' & [= <-] & ?). done.
  - right. by intros (d' & [=] & ?).
  - right. by intros (d' & [=] & ?).
Defined.

(** [c] is one of the ASCII digit characters ['0'], ..., [str(N)]: the
    character of code [48 + d] for a [d ≤ N] below ten. *)
Definition digit_upto (N : nat) (c : ascii) : Prop :=
  ∃ d, d ≤ N ∧ d ≤ 9 ∧ nat_of_ascii c = 48 + d.

(** The one-character string a cell is read as. *)
Definition cell_str (c : ascii) : pyval := PyStr (String c "").

(** The character of a digit below ten. *)
Definition digit_char (d : nat) : ascii := ascii_of_nat (48 + d).

(** ** Writing a grid and reading it back *)

(** A legal cell: an integer in [[0, N]]. *)
Definition legal_cell (N : nat) (v : pyval) : Prop :=
  ∃ z, v = PyInt z ∧ (0 ≤ z ≤ Z.of_nat N)%Z.

(** A square raw grid with legal digits. *)
Definition legal_raw_grid (N : nat) (grid : RawGrid) : Prop :=
  length grid = N
  ∧ Forall (λ row, length row = N ∧ Forall (legal_cell N) row) grid.

(** The grid of the decimal strings of the cells. *)
Definition as_strings (grid : RawGrid) : RawGrid :=
  (λ row : list pyval, (λ v, PyStr (py_str v)) <$> row) <$> grid.

(** ** Sample grids *)

Definition grid_solved4 : Grid := [[1;2;3;4];[3;4;1;2];[2;1;4;3];[4;3;2;1]]%Z.
Definition grid_puzzle4 : Grid := [[1;0;3;0];[0;4;0;2];[2;0;4;0];[0;3;0;1]]%Z.
Definition grid_stuck4 : Grid := [[1;2;3;0];[0;0;0;4];[0;0;0;0];[0;0;0;0]]%Z.
Definition grid_ones4 : Grid := [[1;1;1;1];[1;1;1;1];[1;1;1;1];[1;1;1;1]]%Z.

(** ** Completions of a puzzle *)

(** [s] has the shape of [g] and agrees with it wherever [g] has a clue. *)
Definition extends (g s : Grid) : Prop :=
  Forall2 (Forall2 (λ a b : Z, a = EMPTY_CELL_VALUE ∨ a = b)) g s.

(** [s] is a solved [N]×[N] grid that keeps every clue of [g]. *)
Definition completes (N : nat) (g s : Grid) : Prop :=
  square_grid N s ∧ extends g s ∧ is_solved s = Ok true.

(** A call that returns true leaves no empty cell from its cursor on. *)
Definition fills (rec : Grid → nat → nat → res (bool * Grid)) : Prop :=
  ∀ g y0 x0 g', rec g y0 x0 = Ok (true, g') →
    ∀ y x, at_or_after y0 x0 y x → cell g' y x ≠ Some EMPTY_CELL_VALUE.

(** A call that returns leaves the set of cells of the grid as it was. *)
Definition keeps_shape (rec : Grid → nat → nat → res (bool * Grid)) : Prop :=
  ∀ g y0 x0 b g', rec g y0 x0 = Ok (b, g') →
    ∀ y x, is_Some (cell g' y x) ↔ is_Some (cell g y x).

(** ** Cells of a grid, box by box and row by row *)

(** Every coordinate of an [N]×[N] grid in row-major order, and in the
    order in which [boxes] lists the cells. *)
Definition all_coords (N : nat) : list Coords := y ← seq 0 N; row_coords N y.
Definition boxes_coords (b : nat) : list Coords :=
  p ← box_corners b; box_coords b p.1 p.2.

(** ** Constructors, keyboard navigation and pixels *)

(** [create_empty_cell]: the value of the variable it creates.  The
    name of the variable and the trace that redraws it are not part of
    the model. *)
Definition create_empty_cell (x y : nat) : Z := EMPTY_CELL_VALUE.

(** [create_empty_grid(canvas, width)]: the grid the window starts
    with. *)
Definition create_empty_grid (width : nat) : Grid :=
  (λ y, (λ x, create_empty_cell x y) <$> range 0 width) <$> range 0 width.

Definition DEFAULT_CELL_WIDTH_PIXELS : Z := 50.

(** [a % b] on Python integers. *)
Definition py_mod (a b : Z) : res Z :=
  if decide (b = 0%Z) then Raise ZeroDivisionError else Ok (a `mod` b)%Z.

(** [cell_at]: the cell under a pixel; [//] is the floor division. *)
Definition cell_at (pixel_x pixel_y : Z) : Z * Z :=
  ((pixel_x `div` DEFAULT_CELL_WIDTH_PIXELS)%Z,
   (pixel_y `div` DEFAULT_CELL_WIDTH_PIXELS)%Z).

(** The corners [create_cell_rects] passes to [create_rectangle] for a
    cell: left, top, right, bottom. *)
Definition cell_rect (cell_x cell_y : Z) : Z * Z * Z * Z :=
  let pixel_x := (cell_x * DEFAULT_CELL_WIDTH_PIXELS)%Z in
  let pixel_y := (cell_y * DEFAULT_CELL_WIDTH_PIXELS)%Z in
  (pixel_x, pixel_y,
   (pixel_x + DEFAULT_CELL_WIDTH_PIXELS)%Z,
   (pixel_y + DEFAULT_CELL_WIDTH_PIXELS)%Z).

Definition get_next_cell (cell_x cell_y grid_width_cells : Z) : res (Z * Z) :=
  next_cell_x ← py_mod (cell_x + 1) grid_width_cells;
  next_cell_y ← (if decide (next_cell_x = 0%Z)
                 then py_mod (cell_y + 1) grid_width_cells else Ok cell_y);
  Ok (next_cell_x, next_cell_y).

Definition get_prev_cell (cell_x cell_y grid_width_cells : Z) : res (Z * Z) :=
  prev_cell_x ← py_mod (cell_x - 1) grid_width_cells;
  prev_cell_y ← (if decide (prev_cell_x = (grid_width_cells - 1)%Z)
                 then py_mod (cell_y - 1) grid_width_cells else Ok cell_y);
  Ok (prev_cell_x, prev_cell_y).

(** A cell that [write_grid] writes as one decimal digit in [[0, N]]. *)
Definition digit_cell (N : nat) (v : pyval) : Prop :=
  ∃ d, d ≤ N ∧ py_str v = String (digit_char d) "".

(** ** The interactive variant: Start button and keyboard *)

Definition DEFAULT_GRID_WIDTH_CELLS : nat := 9.

(** The two error boxes [start] can show. *)
Inductive message := InvalidInitialConditions | NotSolvable.

(** [start] of sudosolver.py: the message shown, if any, and the grid it
    leaves.  The button states it switches off and on again are not part
    of the model. *)
Definition start (grid : Grid) : res (option message * Grid) :=
  valid ← is_valid_puzzle grid;
  if negb valid then Ok (Some InvalidInitialConditions, grid)
  else
    '(solved, grid') ← solve grid;
    if negb solved then Ok (Some NotSolvable, grid') else Ok (None, grid').

(** What the keyboard handler reads and writes: the global
    [highlighted_cell], as [(x, y)], and the values of the grid.  The
    cell colours are not part of the model. *)
Record editor := Editor {
  highlighted_cell : option (Z * Z);
  editor_grid : Grid
}.

(** The position [l[i]] denotes for a Python integer index. *)
Definition py_index {A} (l : list A) (i : Z) : res nat :=
  if decide (0 ≤ i < Z.of_nat (length l))%Z then Ok (Z.to_nat i)
  else if decide (- Z.of_nat (length l) ≤ i < 0)%Z
       then Ok (Z.to_nat (Z.of_nat (length l) + i))
       else Raise IndexError.

(** [grid[y][x].set(v)] for integer indices. *)
Definition set_cell_at (grid : Grid) (y x : Z) (v : Z) : res Grid :=
  row_index ← py_index grid y;
  row ← getitem grid row_index;
  col_index ← py_index row x;
  Ok (set_cell grid row_index col_index v).

(** [change_hl_cell], as far as [highlighted_cell] goes. *)
Definition change_hl_cell (ed : editor) (new_hl_cell_x new_hl_cell_y : Z) : editor :=
  Editor (Some (new_hl_cell_x, new_hl_cell_y)) (editor_grid ed).

(** The number a digit key stands for: its place among
    [str(0), ..., str(9)]. *)
Definition digit_key (keysym : string) : option Z :=
  (λ p : nat * string, Z.of_nat p.1)
    <$> list_find (λ s, s = keysym)
          (pretty <$> range 0 (DEFAULT_GRID_WIDTH_CELLS + 1)).

Definition handle_key_press (ed : editor) (keysym : string) : res editor :=
  match highlighted_cell ed with
  | None => Ok ed
  | Some (hl_cell_x, hl_cell_y) =>
      let width := Z.of_nat DEFAULT_GRID_WIDTH_CELLS in
      if decide (keysym ∈ ["Up"; "Down"; "Left"; "Right"]) then
        let '(x, y) :=
          if decide (keysym = "Up" ∧ (hl_cell_y > 0)%Z)
          then (hl_cell_x, (hl_cell_y - 1)%Z)
          else if decide (keysym = "Down" ∧ (hl_cell_y < width - 1)%Z)
          then (hl_cell_x, (hl_cell_y + 1)%Z)
          else if decide (keysym = "Left" ∧ (hl_cell_x > 0)%Z)
          then ((hl_cell_x - 1)%Z, hl_cell_y)
          else if decide (keysym = "Right" ∧ (hl_cell_x < width - 1)%Z)
          then ((hl_cell_x + 1)%Z, hl_cell_y)
          else (hl_cell_x, hl_cell_y) in
        Ok (change_hl_cell ed x y)
      else
        match digit_key keysym with
        | Some n =>
            grid ← set_cell_at (editor_grid ed) hl_cell_y hl_cell_x n;
            '(next_cell_x, next_cell_y) ← get_next_cell hl_cell_x hl_cell_y width;
            Ok (change_hl_cell (Editor (highlighted_cell ed) grid)
                               next_cell_x next_cell_y)
        | None =>
            if decide (keysym = "space") then
              grid ← set_cell_at (editor_grid ed) hl_cell_y hl_cell_x 0;
              '(next_cell_x, next_cell_y) ← get_next_cell hl_cell_x hl_cell_y width;
              Ok (change_hl_cell (Editor (highlighted_cell ed) grid)
                                 next_cell_x next_cell_y)
            else if decide (keysym = "BackSpace") then
              grid ← set_cell_at (editor_grid ed) hl_cell_y hl_cell_x 0;
              '(prev_cell_x, prev_cell_y) ← get_prev_cell hl_cell_x hl_cell_y width;
              Ok (change_hl_cell (Editor (highlighted_cell ed) grid)
                                 prev_cell_x prev_cell_y)
            else Ok ed
        end
  end.

(** The state the handlers keep: the highlighted cell, if any, is a
    cell of the grid, and the grid is 9×9 with values in [[0, 9]]. *)
Definition editor_ok (ed : editor) : Prop :=
  match highlighted_cell ed with
  | Some (x, y) => (0 ≤ x < 9)%Z ∧ (0 ≤ y < 9)%Z
  | None => True
  end
  ∧ square_grid DEFAULT_GRID_WIDTH_CELLS (editor_grid ed)
  ∧ in_range DEFAULT_GRID_WIDTH_CELLS (editor_grid ed).

(** The side of the canvas, in pixels. *)
Definition GRID_WIDTH_PIXELS : Z :=
  (Z.of_nat DEFAULT_GRID_WIDTH_CELLS * DEFAULT_CELL_WIDTH_PIXELS)%Z.

(** [handle_click], for a click at pixel [(event_x, event_y)] of the
    canvas. *)
Definition handle_click (ed : editor) (event_x event_y : Z) : editor :=
  let '(clicked_cell_x, clicked_cell_y) := cell_at event_x event_y in
  change_hl_cell ed clicked_cell_x clicked_cell_y.

(** ** Which solution is found *)

(** [g'] comes no later than [s] when grids are compared cell by cell in
    reading order: they are equal, or at the first cell where they
    differ [g'] holds the smaller digit. *)
Definition reading_le (g' s : Grid) : Prop :=
  g' = s
  ∨ ∃ y x v v', cell g' y x = Some v ∧ cell s y x = Some v' ∧ (v < v')%Z
      ∧ ∀ y' x', ¬ at_or_after y x y' x' → cell g' y' x' = cell s y' x'.

(** ** A solved grid of every width *)

(** Not part of the program: the shifted pattern that fills a grid of
    width [b²] correctly, used to show that blank puzzles have a
    solution. *)
Definition pattern_value (b y x : nat) : Z :=
  Z.of_nat ((b * (y mod b) + y / b + x) mod (b * b) + 1).
Definition pattern_grid (b : nat) : Grid :=
  (λ y, (λ x, pattern_value b y x) <$> seq 0 (b * b)) <$> seq 0 (b * b).

(** * Properties *)

Section cells.
Implicit Types (g : Grid) (y x : nat) (v : Z).

Lemma cell_Some g y x v :
  cell g y x = Some v ↔ ∃ row, g !! y = Some row ∧ row !! x = Some v.
Proof.
  unfold cell. destruct (g !! y) as [row|]; simpl.
  - split; [eauto|]. by intros (? & [= <-] & ?).
  - split; [done|]. by intros (? & ? & ?).
Qed.

Lemma get_cell_cell g y x :
  get_cell g y x = match cell g y x with Some v => Ok v | None => Raise IndexError end.
Proof.
  unfold get_cell, cell, getitem. destruct (g !! y) as [row|]; simpl; [|done].
  by destruct (row !! x).
Qed.

Lemma length_set_cell g y x v : length (set_cell g y x v) = length g.
Proof. apply length_alter. Qed.

Lemma lookup_set_cell g y x v y' :
  set_cell g y x v !! y' =
    if decide (y = y') then <[x := v]> <$> g !! y' else g !! y'.
Proof.
  unfold set_cell. rewrite list_lookup_alter. by case_decide; subst.
Qed.

Lemma cell_set_cell_ne g y x v y' x' :
  (y, x) ≠ (y', x') → cell (set_cell g y x v) y' x' = cell g y' x'.
Proof.
  intros Hne. unfold cell. rewrite lookup_set_cell. case_decide as Hy; [|done].
  subst. destruct (g !! y') as [row|]; simpl; [|done].
  apply list_lookup_insert_ne. congruence.
Qed.

Lemma cell_set_cell_eq g y x v :
  is_Some (cell g y x) → cell (set_cell g y x v) y x = Some v.
Proof.
  intros [w Hw]. apply cell_Some in Hw as (row & Hrow & Hx).
  unfold cell. rewrite lookup_set_cell, decide_True, Hrow by done. simpl.
  apply list_lookup_insert_eq. by eapply lookup_lt_Some.
Qed.

Lemma set_cell_id g y x v : cell g y x = Some v → set_cell g y x v = g.
Proof.
  intros (row & Hrow & Hx)%cell_Some. unfold set_cell.
  apply list_eq. intros i. destruct (decide (i = y)) as [->|Hi].
  - rewrite list_lookup_alter_eq, Hrow. simpl. by rewrite list_insert_id.
  - by rewrite list_lookup_alter_ne.
Qed.

Lemma set_cell_set_cell g y x v w :
  set_cell (set_cell g y x v) y x w = set_cell g y x w.
Proof.
  apply list_eq. intros i. rewrite !lookup_set_cell. case_decide; [|done].
  destruct (g !! i) as [row|]; simpl; [|done].
  by rewrite list_insert_insert_eq.
Qed.

Lemma square_grid_set_cell N g y x v :
  square_grid N g → square_grid N (set_cell g y x v).
Proof.
  intros [Hlen Hrows]. split; [by rewrite length_set_cell|].
  apply Forall_lookup. intros i row. rewrite lookup_set_cell.
  rewrite Forall_lookup in Hrows. case_decide.
  - intros (row' & Hrow' & ->)%fmap_Some. rewrite length_insert. eauto.
  - eauto.
Qed.

Lemma square_grid_cell N g y x :
  square_grid N g → y < N → x < N → is_Some (cell g y x).
Proof.
  intros [Hlen Hrows] Hy Hx.
  destruct (lookup_lt_is_Some_2 g y) as [row Hrow]; [lia|].
  rewrite Forall_lookup in Hrows. specialize (Hrows _ _ Hrow).
  destruct (lookup_lt_is_Some_2 row x) as [v Hv]; [lia|].
  exists v. apply cell_Some. eauto.
Qed.

Lemma cell_square_grid_lt N g y x v :
  square_grid N g → cell g y x = Some v → y < N ∧ x < N.
Proof.
  intros [Hlen Hrows] (row & Hrow & Hx)%cell_Some.
  rewrite Forall_lookup in Hrows. specialize (Hrows _ _ Hrow).
  apply lookup_lt_Some in Hrow, Hx. lia.
Qed.

Lemma keeps_clues_refl g : keeps_clues g g.
Proof. by intros y x v. Qed.

Lemma keeps_clues_trans g1 g2 g3 :
  keeps_clues g1 g2 → keeps_clues g2 g3 → keeps_clues g1 g3.
Proof. intros H12 H23 y x v Hv Hc. eauto. Qed.

Lemma keeps_clues_set_cell g0 g y x v :
  cell g0 y x = Some EMPTY_CELL_VALUE →
  keeps_clues g0 g → keeps_clues g0 (set_cell g y x v).
Proof.
  intros H0 Hk y' x' w Hw Hc.
  destruct (decide ((y, x) = (y', x'))) as [[= <- <-]|Hne].
  - congruence.
  - rewrite cell_set_cell_ne by done. eauto.
Qed.
End cells.

Section scan.
Implicit Types (g : Grid) (row : Group).

Lemma scan_row_spec row n : ∀ a,
  match scan_row row (seq a n) with
  | Some x => a ≤ x < a + n ∧ row !! x = Some EMPTY_CELL_VALUE
              ∧ ∀ x', a ≤ x' < x → row !! x' ≠ Some EMPTY_CELL_VALUE
  | None => ∀ x', a ≤ x' < a + n → row !! x' ≠ Some EMPTY_CELL_VALUE
  end.
Proof.
  induction n as [|n IH]; intros a; simpl.
  - intros x' ?. lia.
  - case_decide as H0.
    + repeat split; [lia..|done|]. intros x' ?. lia.
    + specialize (IH (S a)). destruct (scan_row row (seq (S a) n)) as [x|].
      * destruct IH as (Hx & Hrow & Hfirst). repeat split; [lia..|done|].
        intros x' Hx'. destruct (decide (x' = a)) as [->|]; [done|].
        apply Hfirst. lia.
      * intros x' Hx'. destruct (decide (x' = a)) as [->|]; [done|].
        apply IH. lia.
Qed.

Lemma scan_rows_spec g y0 x0 n : ∀ a,
  y0 ≤ a → length g ≤ a + n →
  match scan_rows g y0 x0 (seq a n) with
  | Some (y, x) =>
      a ≤ y ∧ cell g y x = Some EMPTY_CELL_VALUE ∧ (y = y0 → x0 ≤ x)
      ∧ ∀ y' x', a ≤ y' → (y' = y0 → x0 ≤ x') →
                 y' < y ∨ (y' = y ∧ x' < x) →
                 cell g y' x' ≠ Some EMPTY_CELL_VALUE
  | None =>
      ∀ y' x', a ≤ y' → (y' = y0 → x0 ≤ x') →
               cell g y' x' ≠ Some EMPTY_CELL_VALUE
  end.
Proof.
  induction n as [|n IH]; intros a Ha Hlen; simpl.
  - intros y' x' Hy' _ (row & Hrow%lookup_lt_Some & _)%cell_Some. lia.
  - destruct (g !! a) as [row|] eqn:Hrow.
    + pose proof (scan_row_spec row
        (length row - (if decide (a = y0) then x0 else 0))
        (if decide (a = y0) then x0 else 0)) as Hscan.
      unfold range.
      destruct (scan_row row _) as [x|].
      * destruct Hscan as (Hx & Hx0 & Hfirst). repeat split; [lia| |..].
        -- apply cell_Some. eauto.
        -- intros ->. rewrite decide_True in Hx by done. lia.
        -- intros y' x' Hy' Hcur [Hlt|[-> Hlt]]; [lia|].
           intros (row' & Hrow' & Hx')%cell_Some.
           assert (row' = row) as -> by congruence.
           apply (Hfirst x'); [|done]. case_decide; [|lia].
           subst. split; [by apply Hcur|done].
      * specialize (IH (S a) ltac:(lia) ltac:(lia)).
        assert (∀ x', (a = y0 → x0 ≤ x') →
                      cell g a x' ≠ Some EMPTY_CELL_VALUE) as Hrow_a.
        { intros x' Hcur (row' & Hrow' & Hx')%cell_Some.
          assert (row' = row) as -> by congruence.
          apply (Hscan x'); [|done]. pose proof (lookup_lt_Some _ _ _ Hx').
          case_decide; [specialize (Hcur ltac:(done))|]; lia. }
        destruct (scan_rows g y0 x0 (seq (S a) n)) as [[y x]|].
        -- destruct IH as (Hy & Hc & Hcur & Hfirst). repeat split; [lia|done..|].
           intros y' x' Hy' Hcur' Hlt.
           destruct (decide (y' = a)) as [->|]; [by apply Hrow_a|].
           apply Hfirst; [lia|done..].
        -- intros y' x' Hy' Hcur'.
           destruct (decide (y' = a)) as [->|]; [by apply Hrow_a|].
           apply IH; [lia|done].
    + intros y' x' Hy' _ (row & Hrow' & _)%cell_Some.
      apply lookup_ge_None in Hrow. apply lookup_lt_Some in Hrow'. lia.
Qed.

Lemma first_empty_Some g y0 x0 y x :
  first_empty g y0 x0 = Some (y, x) →
  cell g y x = Some EMPTY_CELL_VALUE ∧ at_or_after y0 x0 y x
  ∧ ∀ y' x', at_or_after y0 x0 y' x' → ¬ at_or_after y x y' x' →
             cell g y' x' ≠ Some EMPTY_CELL_VALUE.
Proof.
  unfold first_empty, range. intros Hfe.
  pose proof (scan_rows_spec g y0 x0 (length g - y0) y0) as Hspec.
  rewrite Hfe in Hspec.
  destruct Hspec as (Hy & Hc & Hcur & Hfirst); [lia..|].
  unfold at_or_after. repeat split; [done| |].
  - destruct (decide (y = y0)) as [->|]; [right; auto|left; lia].
  - intros y' x' Hafter Hbefore. apply Hfirst; lia.
Qed.

Lemma first_empty_None g y0 x0 :
  first_empty g y0 x0 = None →
  ∀ y x, at_or_after y0 x0 y x → cell g y x ≠ Some EMPTY_CELL_VALUE.
Proof.
  unfold first_empty, range. intros Hfe.
  pose proof (scan_rows_spec g y0 x0 (length g - y0) y0) as Hspec.
  rewrite Hfe in Hspec. intros y x Hafter. unfold at_or_after in Hafter.
  apply Hspec; lia.
Qed.
End scan.

Section search.
Implicit Types (g : Grid) (rec : Grid → nat → nat → res (bool * Grid)).

Lemma try_digits_restores rec ps y x :
  restores rec →
  ∀ ds g g',
    try_digits rec ps y x ds g = Ok (false, g') →
    g' = set_cell g y x EMPTY_CELL_VALUE.
Proof.
  intros Hrec. induction ds as [|d ds IH]; intros g g'; simpl.
  - by intros [= <-].
  - case_decide; [by apply IH|].
    destruct (rec _ y x) as [[[] g1]|e|] eqn:Hcall; simpl; [done| |done..].
    intros Hrest. apply Hrec in Hcall as ->. apply IH in Hrest as ->.
    apply set_cell_set_cell.
Qed.

Lemma solve_body_restores rec : restores rec → restores (solve_body rec).
Proof.
  intros Hrec g y0 x0 g'. unfold solve_body.
  destruct (first_empty g y0 x0) as [[y x]|] eqn:Hfe; [|done].
  apply first_empty_Some in Hfe as (Hc & _).
  destruct (get_peers g (y, x)) as [ps|e|]; simpl; [|done..].
  intros ->%try_digits_restores; [|done]. by apply set_cell_id.
Qed.

Lemma solve_fuel_restores fuel : restores (solve_fuel fuel).
Proof.
  induction fuel as [|fuel IH]; [done|]. by apply solve_body_restores.
Qed.

Lemma try_digits_keeps rec ps y x g0 :
  preserves_clues rec →
  cell g0 y x = Some EMPTY_CELL_VALUE →
  ∀ ds g b g',
    keeps_clues g0 g →
    try_digits rec ps y x ds g = Ok (b, g') → keeps_clues g0 g'.
Proof.
  intros Hrec H0. induction ds as [|d ds IH]; intros g b g' Hg; simpl.
  - intros [= <- <-]. by apply keeps_clues_set_cell.
  - case_decide; [by apply IH|].
    destruct (rec _ y x) as [[solved g1]|e|] eqn:Hcall; simpl; [|done..].
    apply Hrec in Hcall.
    assert (keeps_clues g0 g1) as Hg1.
    { eapply keeps_clues_trans; [|done]. by apply keeps_clues_set_cell. }
    destruct solved; [by intros [= <- <-]|by apply IH].
Qed.

Lemma solve_body_keeps rec : preserves_clues rec → preserves_clues (solve_body rec).
Proof.
  intros Hrec g y0 x0 b g'. unfold solve_body.
  destruct (first_empty g y0 x0) as [[y x]|] eqn:Hfe.
  - apply first_empty_Some in Hfe as (Hc & _).
    destruct (get_peers g (y, x)) as [ps|e|]; simpl; [|done..].
    apply try_digits_keeps; [done..|apply keeps_clues_refl].
  - intros [= <- <-]. apply keeps_clues_refl.
Qed.

Lemma solve_fuel_keeps fuel : preserves_clues (solve_fuel fuel).
Proof.
  induction fuel as [|fuel IH]; [done|]. by apply solve_body_keeps.
Qed.
End search.

Section peers.
Implicit Types (g : Grid).

Lemma getitem_Some {A} (l : list A) i a : l !! i = Some a → getitem l i = Ok a.
Proof. unfold getitem. by intros ->. Qed.

Lemma mapM_Ok {A B} (f : A → res B) (h : A → B) (l : list A) :
  (∀ a, a ∈ l → f a = Ok (h a)) → mapM f l = Ok (h <$> l).
Proof.
  induction l as [|a l IH]; intros Hf; simpl; [done|].
  rewrite (Hf a) by left. simpl.
  rewrite IH; [done|]. intros a' Ha'. apply Hf. by right.
Qed.

Lemma elem_of_enumerate {A} (l : list A) i a :
  (i, a) ∈ enumerate l ↔ l !! i = Some a.
Proof.
  unfold enumerate. rewrite elem_of_lookup_imap. split.
  - by intros (j & b & [= -> ->] & Hl).
  - eauto.
Qed.

Lemma elem_of_range a b k : k ∈ range a b ↔ a ≤ k < b.
Proof. unfold range. rewrite elem_of_seq. lia. Qed.

Lemma perfect_square_pos N : perfect_square N → 0 < N → 0 < int_sqrt N.
Proof. unfold perfect_square. intros. destruct (int_sqrt N); lia. Qed.

Lemma box_range_div b y0 y :
  0 < b → y0 - y0 mod b ≤ y < y0 - y0 mod b + b ↔ y / b = y0 / b.
Proof.
  intros Hb.
  pose proof (Nat.div_mod_eq y0 b). pose proof (Nat.mod_upper_bound y0 b).
  pose proof (Nat.div_mod_eq y b). pose proof (Nat.mod_upper_bound y b).
  split.
  - intros Hy. symmetry. apply (Nat.div_unique y b _ (y - b * (y0 / b))); lia.
  - intros Hq. rewrite Hq in *. lia.
Qed.

Lemma box_top_bound b y0 :
  0 < b → y0 < b * b → y0 - y0 mod b + b ≤ b * b.
Proof.
  intros Hb Hy.
  pose proof (Nat.div_mod_eq y0 b). pose proof (Nat.mod_upper_bound y0 b).
  assert (y0 / b < b) by (apply Nat.Div0.div_lt_upper_bound; lia).
  nia.
Qed.

Lemma elem_of_box_loop_cells top left_ b y0 x0 y x :
  (y, x) ∈ box_loop_cells top left_ b y0 x0 ↔
  top ≤ y < top + b ∧ left_ ≤ x < left_ + b ∧ y ≠ y0 ∧ x ≠ x0.
Proof.
  unfold box_loop_cells. rewrite list_elem_of_bind. split.
  - intros (y' & (x' & Hin & Hx')%list_elem_of_bind & Hy').
    apply elem_of_range in Hx', Hy'. case_decide as Hne.
    + apply list_elem_of_singleton in Hin as [= -> ->]. tauto.
    + by apply not_elem_of_nil in Hin.
  - intros (Hy & Hx & Hne). exists y. rewrite elem_of_range. split; [|done].
    apply list_elem_of_bind. exists x. rewrite elem_of_range. split; [|done].
    rewrite decide_True by done. by apply list_elem_of_singleton.
Qed.

(** On a well-formed grid [get_peers] returns, and its result holds
    exactly the values of the three passes. *)
Lemma get_peers_spec N g y0 x0 :
  square_grid N g → perfect_square N → y0 < N → x0 < N →
  ∃ s, get_peers g (y0, x0) = Ok s ∧
    ∀ v, v ∈ s ↔
      (∃ x, x ≠ x0 ∧ cell g y0 x = Some v)
      ∨ (∃ y, y ≠ y0 ∧ cell g y x0 = Some v)
      ∨ (∃ y x, in_box_of (int_sqrt N) y0 x0 y x ∧ y ≠ y0 ∧ x ≠ x0
                ∧ cell g y x = Some v).
Proof.
  intros Hsq Hps Hy0 Hx0. pose proof Hsq as [Hlen Hrows].
  rewrite Forall_lookup in Hrows.
  assert (0 < int_sqrt N) as Hb by (apply perfect_square_pos; [done|lia]).
  set (b := int_sqrt N) in *.
  assert (N = b * b) as HN by (symmetry; apply Hps).
  destruct (lookup_lt_is_Some_2 g y0) as [row0 Hrow0]; [lia|].
  unfold get_peers. rewrite (getitem_Some _ _ _ Hrow0). simpl.
  rewrite (mapM_Ok _ (λ p, default 0%Z (p.2 !! x0))); last first.
  { intros [y row] [_ Hin%elem_of_enumerate]%list_elem_of_filter. simpl.
    destruct (lookup_lt_is_Some_2 row x0) as [v Hv];
      [rewrite (Hrows _ _ Hin); lia|].
    unfold getitem. by rewrite Hv. }
  simpl. unfold get_bound_box. rewrite Hlen. fold b.
  rewrite decide_False by lia. simpl.
  rewrite (mapM_Ok _ (λ p, default 0%Z (cell g p.1 p.2))); last first.
  { intros [y x] (Hy & Hx & _)%elem_of_box_loop_cells. simpl.
    pose proof (box_top_bound b y0 Hb ltac:(lia)).
    pose proof (box_top_bound b x0 Hb ltac:(lia)).
    destruct (square_grid_cell N g y x) as [v Hv]; [done|lia..|].
    by rewrite get_cell_cell, Hv. }
  simpl. eexists. split; [done|]. intros v.
  rewrite !elem_of_union, !elem_of_list_to_set.
  assert (∀ P1 P2 P3 Q1 Q2 Q3 : Prop,
            (P1 ↔ Q1) → (P2 ↔ Q2) → (P3 ↔ Q3) →
            ((P1 ∨ P2) ∨ P3 ↔ Q1 ∨ Q2 ∨ Q3)) as Hor by tauto.
  apply Hor; clear Hor.
  - rewrite list_elem_of_fmap. split.
    + intros ([x w] & -> & [Hne Hin%elem_of_enumerate]%list_elem_of_filter).
      exists x. split; [done|]. apply cell_Some. eauto.
    + intros (x & Hne & (row & Hrow & Hx)%cell_Some).
      assert (row = row0) as -> by congruence.
      exists (x, v). split; [done|]. apply list_elem_of_filter.
      split; [done|]. by apply elem_of_enumerate.
  - rewrite list_elem_of_fmap. split.
    + intros ([y row] & -> & [Hne Hin%elem_of_enumerate]%list_elem_of_filter).
      simpl in *. exists y. split; [done|].
      destruct (lookup_lt_is_Some_2 row x0) as [w Hw];
        [rewrite (Hrows _ _ Hin); lia|].
      rewrite Hw. simpl. apply cell_Some. eauto.
    + intros (y & Hne & (row & Hrow & Hx)%cell_Some).
      exists (y, row). simpl. rewrite Hx. split; [done|].
      apply list_elem_of_filter. split; [done|]. by apply elem_of_enumerate.
  - rewrite list_elem_of_fmap. split.
    + intros ([y x] & -> & (Hy & Hx & Hney & Hnex)%elem_of_box_loop_cells).
      simpl. exists y, x.
      pose proof (box_top_bound b y0 Hb ltac:(lia)).
      pose proof (box_top_bound b x0 Hb ltac:(lia)).
      destruct (square_grid_cell N g y x) as [w Hw]; [done|lia..|].
      rewrite Hw. simpl. split; [|done].
      split; by apply box_range_div.
    + intros (y & x & [Hy Hx] & Hney & Hnex & Hc).
      exists (y, x). simpl. rewrite Hc. split; [done|].
      apply elem_of_box_loop_cells. by rewrite !box_range_div.
Qed.

(** The three passes together read every other cell of the row, the
    column and the box. *)
Lemma get_peers_all N g y0 x0 :
  square_grid N g → perfect_square N → y0 < N → x0 < N →
  ∃ s, get_peers g (y0, x0) = Ok s ∧
    ∀ v, v ∈ s ↔
      ∃ y x, (y, x) ≠ (y0, x0)
             ∧ (y = y0 ∨ x = x0 ∨ in_box_of (int_sqrt N) y0 x0 y x)
             ∧ cell g y x = Some v.
Proof.
  intros Hsq Hps Hy0 Hx0.
  destruct (get_peers_spec N g y0 x0) as (s & Hs & Hin); [done..|].
  exists s. split; [done|]. intros v. rewrite Hin. split.
  - intros [(x & Hne & Hc)|[(y & Hne & Hc)|(y & x & Hbox & Hney & Hnex & Hc)]].
    + exists y0, x. split; [congruence|]. auto.
    + exists y, x0. split; [congruence|]. auto.
    + exists y, x. split; [congruence|]. auto.
  - intros (y & x & Hne & Hpeer & Hc).
    destruct (decide (y = y0)) as [->|Hney].
    { left. exists x. split; [congruence|done]. }
    destruct (decide (x = x0)) as [->|Hnex].
    { right. left. exists y. split; [congruence|done]. }
    right. right. exists y, x. destruct Hpeer as [?|[?|?]]; done.
Qed.
End peers.

Section counting.
Implicit Types (g : Grid) (row : Group).

Lemma set_cell_split g y x v w :
  cell g y x = Some w →
  ∃ above below before after,
    g = above ++ (before ++ w :: after) :: below
    ∧ set_cell g y x v = above ++ (before ++ v :: after) :: below.
Proof.
  intros (row & Hrow & Hw)%cell_Some.
  exists (take y g), (drop (S y) g), (take x row), (drop (S x) row).
  rewrite (take_drop_middle row x w Hw). split.
  - by rewrite take_drop_middle.
  - unfold set_cell. rewrite <- (take_drop_middle g y row Hrow) at 1.
    rewrite alter_app_r_alt by (rewrite length_take; lia).
    rewrite length_take, Nat.min_l by (apply lookup_lt_Some in Hrow; lia).
    rewrite Nat.sub_diag. simpl.
    rewrite insert_take_drop by (by eapply lookup_lt_Some). done.
Qed.

Lemma count_empty_set_cell g y x d :
  cell g y x = Some EMPTY_CELL_VALUE → d ≠ EMPTY_CELL_VALUE →
  S (count_empty (set_cell g y x d)) = count_empty g.
Proof.
  intros Hc Hd.
  destruct (set_cell_split g y x d _ Hc)
    as (above & below & before & after & Hg & ->).
  rewrite Hg. unfold count_empty.
  rewrite !concat_app, !concat_cons, !filter_app.
  rewrite filter_cons_False by done. rewrite filter_cons_True by done.
  rewrite !length_app. simpl. lia.
Qed.

Lemma cell_count_square N g : square_grid N g → cell_count g = N * N.
Proof.
  intros [Hlen Hrows]. unfold cell_count. rewrite <- Hlen at 1. clear Hlen.
  induction Hrows as [|row rest Hrow Hrows IH]; [done|].
  simpl. rewrite length_app, IH, Hrow. lia.
Qed.

Lemma count_empty_le g : count_empty g ≤ cell_count g.
Proof. apply length_filter. Qed.
End counting.

Section termination.
Implicit Types (g : Grid) (rec : Grid → nat → nat → res (bool * Grid)).

Lemma digits_nonzero n d : d ∈ range 1 (n + 1) → Z.of_nat d ≠ EMPTY_CELL_VALUE.
Proof. rewrite elem_of_range. unfold EMPTY_CELL_VALUE. lia. Qed.

(** With the grid differing from [g0] at the chosen empty cell only,
    the digit loop returns as soon as every call on a grid with fewer
    empty cells than [g0] does. *)
Lemma try_digits_returns N rec ps y x g0 :
  restores rec →
  (∀ g y1 x1, square_grid N g → count_empty g < count_empty g0 →
              ∃ b g', rec g y1 x1 = Ok (b, g') ∧ square_grid N g') →
  square_grid N g0 →
  cell g0 y x = Some EMPTY_CELL_VALUE →
  ∀ ds g,
    (∀ d, d ∈ ds → Z.of_nat d ≠ EMPTY_CELL_VALUE) →
    set_cell g y x EMPTY_CELL_VALUE = g0 →
    ∃ b g', try_digits rec ps y x ds g = Ok (b, g') ∧ square_grid N g'.
Proof.
  intros Hres Hrec Hsq H0. induction ds as [|d ds IH];
    intros g Hds Hg; simpl.
  - rewrite Hg. eauto.
  - assert (∀ d', d' ∈ ds → Z.of_nat d' ≠ EMPTY_CELL_VALUE) as Hds'
      by (intros d' ?; apply Hds; by right).
    case_decide; [by apply IH|].
    assert (set_cell g y x (Z.of_nat d) = set_cell g0 y x (Z.of_nat d)) as Harg
      by (by rewrite <- Hg, set_cell_set_cell).
    rewrite Harg.
    destruct (Hrec (set_cell g0 y x (Z.of_nat d)) y x) as (b & g1 & Hcall & Hsq1).
    { by apply square_grid_set_cell. }
    { pose proof (count_empty_set_cell g0 y x (Z.of_nat d) H0
                    (Hds d ltac:(left))). lia. }
    rewrite Hcall. simpl. destruct b; [eauto|].
    apply Hres in Hcall as ->. apply IH; [done|].
    rewrite set_cell_set_cell. by apply set_cell_id.
Qed.

(** One stack frame per empty cell, and one more, is enough. *)
Lemma solve_fuel_returns N fuel : ∀ g y0 x0,
  square_grid N g → perfect_square N → count_empty g < fuel →
  ∃ b g', solve_fuel fuel g y0 x0 = Ok (b, g') ∧ square_grid N g'.
Proof.
  induction fuel as [|fuel IH]; intros g y0 x0 Hsq Hps Hfuel; [lia|].
  simpl. unfold solve_body.
  destruct (first_empty g y0 x0) as [[y x]|] eqn:Hfe; [|eauto].
  apply first_empty_Some in Hfe as (Hc & _).
  destruct (cell_square_grid_lt N g y x _ Hsq Hc) as [Hy Hx].
  destruct (get_peers_spec N g y x) as (ps & -> & _); [done..|]. simpl.
  apply (try_digits_returns N _ _ _ _ g); [apply solve_fuel_restores| |done..| |].
  - intros g1 y1 x1 Hsq1 Hlt. apply IH; [done..|lia].
  - intros d. apply digits_nonzero.
  - by apply set_cell_id.
Qed.

(** A larger allowance never changes a result. *)
Lemma try_digits_mono rec1 rec2 ps y x :
  (∀ g y1 x1 r, rec1 g y1 x1 = Ok r → rec2 g y1 x1 = Ok r) →
  ∀ ds g r,
    try_digits rec1 ps y x ds g = Ok r →
    try_digits rec2 ps y x ds g = Ok r.
Proof.
  intros Hrec. induction ds as [|d ds IH]; intros g r; simpl; [done|].
  case_decide; [by apply IH|].
  destruct (rec1 _ y x) as [[b g1]|e|] eqn:Hcall; simpl; [|done..].
  rewrite (Hrec _ _ _ _ Hcall). simpl. destruct b; [done|by apply IH].
Qed.

Lemma solve_fuel_mono fuel : ∀ fuel' g y0 x0 r,
  fuel ≤ fuel' → solve_fuel fuel g y0 x0 = Ok r → solve_fuel fuel' g y0 x0 = Ok r.
Proof.
  induction fuel as [|fuel IH]; intros fuel' g y0 x0 r Hle; [done|].
  destruct fuel' as [|fuel']; [lia|]. simpl. unfold solve_body.
  destruct (first_empty g y0 x0) as [[y x]|]; [|done].
  destruct (get_peers g (y, x)) as [ps|e|]; simpl; [|done..].
  apply try_digits_mono. intros g1 y1 x1 r1. apply IH. lia.
Qed.

(** An activation only ever calls itself on grids with strictly fewer
    empty cells: what the recursive call would do on any other grid
    is irrelevant. *)
Lemma try_digits_calls_smaller rec other ps y x g0 :
  restores rec →
  cell g0 y x = Some EMPTY_CELL_VALUE →
  ∀ ds g,
    (∀ d, d ∈ ds → Z.of_nat d ≠ EMPTY_CELL_VALUE) →
    set_cell g y x EMPTY_CELL_VALUE = g0 →
    try_digits (λ g' y' x', if decide (count_empty g' < count_empty g0)
                            then rec g' y' x' else other g' y' x')
               ps y x ds g
    = try_digits rec ps y x ds g.
Proof.
  intros Hres H0. induction ds as [|d ds IH]; intros g Hds Hg; simpl;
    [done|].
  assert (∀ d', d' ∈ ds → Z.of_nat d' ≠ EMPTY_CELL_VALUE) as Hds'
    by (intros d' ?; apply Hds; by right).
  case_decide; [by apply IH|].
  assert (set_cell g y x (Z.of_nat d) = set_cell g0 y x (Z.of_nat d)) as Harg
    by (by rewrite <- Hg, set_cell_set_cell).
  rewrite Harg. rewrite decide_True; last first.
  { pose proof (count_empty_set_cell g0 y x (Z.of_nat d) H0
                  (Hds d ltac:(left))). lia. }
  destruct (rec _ y x) as [[[] g1]|e|] eqn:Hcall; simpl; [done| |done..].
  apply Hres in Hcall as ->. apply IH; [done|].
  rewrite set_cell_set_cell. by apply set_cell_id.
Qed.

Lemma solve_body_calls_smaller rec other g y0 x0 :
  restores rec →
  solve_body (λ g' y' x', if decide (count_empty g' < count_empty g)
                          then rec g' y' x' else other g' y' x') g y0 x0
  = solve_body rec g y0 x0.
Proof.
  intros Hres. unfold solve_body.
  destruct (first_empty g y0 x0) as [[y x]|] eqn:Hfe; [|done].
  apply first_empty_Some in Hfe as (Hc & _).
  destruct (get_peers g (y, x)) as [ps|e|]; simpl; [|done..].
  apply (try_digits_calls_smaller _ _ _ _ _ g); [done..| |by apply set_cell_id].
  intros d. apply digits_nonzero.
Qed.
End termination.

Section groups.
Implicit Types (g : Grid) (ps : list Coords).

Lemma square_rows N g y row :
  square_grid N g → g !! y = Some row → row = vals g (row_coords N y).
Proof.
  intros [Hlen Hrows] Hrow. rewrite Forall_lookup in Hrows.
  specialize (Hrows _ _ Hrow). apply list_eq. intros x.
  unfold vals, row_coords. rewrite <- list_fmap_compose, list_lookup_fmap.
  destruct (decide (x < N)) as [Hx|Hx].
  - rewrite lookup_seq_lt by done. simpl. unfold val, cell. simpl.
    rewrite Hrow. simpl. destruct (lookup_lt_is_Some_2 row x) as [v ->]; [lia|done].
  - rewrite lookup_seq_ge by lia. apply lookup_ge_None. lia.
Qed.

Lemma square_grid_rows N g :
  square_grid N g → g = (λ y, vals g (row_coords N y)) <$> seq 0 N.
Proof.
  intros Hsq. pose proof Hsq as [Hlen Hrows]. apply list_eq. intros y.
  rewrite list_lookup_fmap. destruct (decide (y < N)) as [Hy|Hy].
  - rewrite lookup_seq_lt by done. simpl.
    destruct (lookup_lt_is_Some_2 g y) as [row Hrow]; [lia|].
    rewrite Hrow. f_equal. by apply square_rows.
  - rewrite lookup_seq_ge by lia. apply lookup_ge_None. lia.
Qed.

Lemma square_min_length N (rows : Grid) :
  Forall (λ row, length row = N) rows → foldr Nat.min N (length <$> rows) = N.
Proof.
  induction 1 as [|row rows Hrow _ IH]; [done|].
  rewrite fmap_cons. cbn [foldr]. rewrite IH. lia.
Qed.

Lemma square_grid_cols N g :
  square_grid N g → cols g = (λ x, vals g (col_coords N x)) <$> seq 0 N.
Proof.
  intros [Hlen Hrows]. destruct g as [|row0 rest]; [by subst|].
  unfold cols. inversion Hrows as [|?? Hrow0 Hrest]; subst.
  rewrite Hrow0, (square_min_length _ _ Hrest), <- Hrow0.
  apply list_fmap_ext. intros _ x _. apply list_eq. intros y.
  unfold vals, col_coords. rewrite <- list_fmap_compose, !list_lookup_fmap.
  destruct (decide (y < length (row0 :: rest))) as [Hy|Hy].
  - rewrite lookup_seq_lt by (simpl in *; lia). simpl.
    destruct (lookup_lt_is_Some_2 (row0 :: rest) y) as [row Hrow]; [lia|].
    unfold val, cell. simpl. by rewrite Hrow.
  - rewrite lookup_seq_ge by lia. simpl. rewrite (proj2 (lookup_ge_None _ _)); [done|lia].
Qed.

Lemma slice_vals N g y row a b :
  square_grid N g → g !! y = Some row → a + b ≤ N →
  slice row a (a + b) = vals g ((λ x, (y, x)) <$> seq a b).
Proof.
  intros [Hlen Hrows] Hrow Hab. rewrite Forall_lookup in Hrows.
  specialize (Hrows _ _ Hrow). unfold slice, vals.
  replace (a + b - a) with b by lia. apply list_eq. intros k.
  rewrite <- list_fmap_compose, list_lookup_fmap.
  destruct (decide (k < b)) as [Hk|Hk].
  - rewrite lookup_take_lt, lookup_drop, lookup_seq_lt by done. simpl.
    unfold val, cell. simpl. rewrite Hrow. simpl.
    destruct (lookup_lt_is_Some_2 row (a + k)) as [v ->]; [lia|done].
  - rewrite lookup_take_ge, lookup_seq_ge by lia. done.
Qed.

Lemma box_coords_rows b top left_ :
  box_coords b top left_ = concat ((λ y, (λ x, (y, x)) <$> seq left_ b) <$> seq top b).
Proof.
  unfold box_coords. generalize (seq top b) as ys.
  induction ys as [|y ys IH]; [done|].
  rewrite bind_cons, fmap_cons, concat_cons, IH. by f_equal.
Qed.

Lemma box_at_vals N g top left_ b :
  square_grid N g → top + b ≤ N → left_ + b ≤ N →
  box_at g top left_ b = Ok (vals g (box_coords b top left_)).
Proof.
  intros Hsq Htop Hleft. pose proof Hsq as [Hlen Hrows]. unfold box_at.
  rewrite (mapM_Ok _ (λ y, vals g ((λ x, (y, x)) <$> seq left_ b))); last first.
  { intros y Hy%elem_of_range.
    destruct (lookup_lt_is_Some_2 g y) as [row Hrow]; [lia|].
    rewrite (getitem_Some _ _ _ Hrow). simpl. f_equal. by eapply slice_vals. }
  simpl. f_equal. rewrite box_coords_rows. unfold range, vals.
  replace (top + b - top) with b by lia.
  generalize (seq top b) as ys. induction ys as [|y ys IH]; [done|].
  by rewrite !fmap_cons, !concat_cons, fmap_app, IH.
Qed.

Lemma range_step_square b :
  0 < b → range_step (b * b) b = Ok ((λ i, i * b) <$> seq 0 b).
Proof.
  intros Hb. unfold range_step. rewrite decide_False by lia.
  replace ((b * b + b - 1) / b) with b; [done|].
  apply (Nat.div_unique _ _ _ (b - 1)); lia.
Qed.

Lemma elem_of_box_corners b y0 x0 :
  (y0, x0) ∈ box_corners b ↔ ∃ i j, i < b ∧ j < b ∧ y0 = i * b ∧ x0 = j * b.
Proof.
  unfold box_corners. rewrite list_elem_of_bind. split.
  - intros (y & (x & Hin & Hx)%list_elem_of_bind & Hy).
    apply list_elem_of_singleton in Hin as [= -> ->].
    apply list_elem_of_fmap in Hx as (j & -> & Hj%elem_of_seq).
    apply list_elem_of_fmap in Hy as (i & -> & Hi%elem_of_seq).
    exists i, j. lia.
  - intros (i & j & Hi & Hj & -> & ->). exists (i * b). split.
    + apply list_elem_of_bind. exists (j * b). split; [by left|].
      apply list_elem_of_fmap. exists j. split; [done|]. apply elem_of_seq. lia.
    + apply list_elem_of_fmap. exists i. split; [done|]. apply elem_of_seq. lia.
Qed.

Lemma square_grid_boxes N g :
  square_grid N g → perfect_square N → 0 < N →
  boxes g = Ok ((λ p, vals g (box_coords (int_sqrt N) p.1 p.2))
                  <$> box_corners (int_sqrt N)).
Proof.
  intros Hsq Hps HN. pose proof Hsq as [Hlen Hrows].
  assert (0 < int_sqrt N) as Hb by (by apply perfect_square_pos).
  unfold boxes. cbv zeta. rewrite Hlen. set (b := int_sqrt N) in *.
  assert (N = b * b) as HNb by (symmetry; apply Hps).
  assert (range_step N b = Ok ((λ i, i * b) <$> seq 0 b)) as ->.
  { pose proof (range_step_square b Hb) as Hrs. by rewrite <- HNb in Hrs. }
  simpl. apply mapM_Ok. intros [y0 x0] (i & j & Hi & Hj & -> & ->)%elem_of_box_corners.
  simpl. apply (box_at_vals N); [done|nia..].
Qed.

(** On a well-formed grid a property holds of every group the checkers
    visit exactly when it holds of the values along every group. *)
Lemma Forall_groups N g (P : Group → Prop) bs :
  square_grid N g → perfect_square N → 0 < N →
  boxes g = Ok bs →
  Forall P (g ++ cols g ++ bs) ↔
  ∀ ps, is_group N (int_sqrt N) ps → P (vals g ps).
Proof.
  intros Hsq Hps HN Hbs.
  rewrite (square_grid_boxes N g) in Hbs by done. injection Hbs as <-.
  rewrite (square_grid_cols N g) by done.
  rewrite (square_grid_rows N g Hsq) at 1.
  rewrite !Forall_app, !Forall_fmap, !Forall_forall. unfold is_group. split.
  - intros (Hr & Hc & Hb) ps [(y & Hy & ->)|[(x & Hx & ->)|(i & j & Hi & Hj & ->)]].
    + apply (Hr y). apply elem_of_seq. lia.
    + apply (Hc x). apply elem_of_seq. lia.
    + apply (Hb (i * int_sqrt N, j * int_sqrt N)).
      apply elem_of_box_corners. by exists i, j.
  - intros Hall. repeat split.
    + intros y Hy%elem_of_seq. simpl. apply Hall. left. exists y. split; [lia|done].
    + intros x Hx%elem_of_seq. simpl. apply Hall. right. left.
      exists x. split; [lia|done].
    + intros [y0 x0] (i & j & Hi & Hj & -> & ->)%elem_of_box_corners. simpl.
      apply Hall. right. right. eauto.
Qed.
End groups.

Section checkers.
Implicit Types (g : Grid) (ps : list Coords) (l : Group).

Lemma every_group_is_group N P :
  every_group N P ↔ ∀ ps, is_group N (int_sqrt N) ps → P ps.
Proof.
  unfold every_group, is_group. split.
  - intros (Hr & Hc & Hb) ps [(y & Hy & ->)|[(x & Hx & ->)|(i & j & Hi & Hj & ->)]];
      auto.
  - intros Hall. repeat split.
    + intros y Hy. apply Hall. left. eauto.
    + intros x Hx. apply Hall. right. left. eauto.
    + intros i j Hi Hj. apply Hall. right. right. eauto.
Qed.

Lemma elem_of_box_coords b top left_ y x :
  (y, x) ∈ box_coords b top left_ ↔ top ≤ y < top + b ∧ left_ ≤ x < left_ + b.
Proof.
  unfold box_coords. rewrite list_elem_of_bind. split.
  - intros (y' & (x' & Hin & Hx')%list_elem_of_bind & Hy').
    apply list_elem_of_singleton in Hin as [= -> ->].
    apply elem_of_seq in Hx', Hy'. lia.
  - intros [Hy Hx]. exists y. rewrite elem_of_seq. split; [|lia].
    apply list_elem_of_bind. exists x. rewrite elem_of_seq. split; [by left|lia].
Qed.

Lemma NoDup_box_coords b top left_ : NoDup (box_coords b top left_).
Proof.
  unfold box_coords. apply NoDup_bind; [| |apply NoDup_seq].
  - intros y1 y2 [y x] _ _ (x1 & Hin1 & _)%list_elem_of_bind
      (x2 & Hin2 & _)%list_elem_of_bind.
    apply list_elem_of_singleton in Hin1, Hin2. congruence.
  - intros y _. apply NoDup_bind; [| |apply NoDup_seq].
    + intros x1 x2 p _ _ Hin1%list_elem_of_singleton Hin2%list_elem_of_singleton.
      congruence.
    + intros x _. apply NoDup_singleton.
Qed.

Lemma length_box_coords b top left_ : length (box_coords b top left_) = b * b.
Proof.
  rewrite box_coords_rows. generalize b at 2 4 as m. generalize top as t.
  intros t m. revert t. induction m as [|m IH]; intros t; [done|].
  cbn [seq]. rewrite fmap_cons, concat_cons, length_app, IH.
  rewrite length_fmap, length_seq. lia.
Qed.

Lemma is_group_facts N b ps :
  N = b * b → is_group N b ps →
  NoDup ps ∧ length ps = N ∧ ∀ y x, (y, x) ∈ ps → y < N ∧ x < N.
Proof.
  intros HN [(y & Hy & ->)|[(x & Hx & ->)|(i & j & Hi & Hj & ->)]].
  - unfold row_coords. split; [|split].
    + apply NoDup_fmap_2; [|apply NoDup_seq]. intros ??; congruence.
    + by rewrite length_fmap, length_seq.
    + intros y' x' (x & [= -> ->] & Hx%elem_of_seq)%list_elem_of_fmap. lia.
  - unfold col_coords. split; [|split].
    + apply NoDup_fmap_2; [|apply NoDup_seq]. intros ??; congruence.
    + by rewrite length_fmap, length_seq.
    + intros y' x' (y & [= -> ->] & Hy%elem_of_seq)%list_elem_of_fmap. lia.
  - split; [apply NoDup_box_coords|split].
    + by rewrite length_box_coords.
    + intros y x [Hy Hx]%elem_of_box_coords. nia.
Qed.

(** Cells of a common group are in one row, one column or one box. *)
Lemma is_group_peers N b ps y1 x1 y2 x2 :
  0 < b → is_group N b ps → (y1, x1) ∈ ps → (y2, x2) ∈ ps →
  y2 = y1 ∨ x2 = x1 ∨ in_box_of b y1 x1 y2 x2.
Proof.
  intros Hb [(y & Hy & ->)|[(x & Hx & ->)|(i & j & Hi & Hj & ->)]] H1 H2.
  - apply list_elem_of_fmap in H1 as (? & [= -> ->] & _).
    apply list_elem_of_fmap in H2 as (? & [= -> ->] & _). by left.
  - apply list_elem_of_fmap in H1 as (? & [= -> ->] & _).
    apply list_elem_of_fmap in H2 as (? & [= -> ->] & _). right. by left.
  - apply elem_of_box_coords in H1 as [Hy1 Hx1], H2 as [Hy2 Hx2].
    right. right. unfold in_box_of.
    assert (∀ k t, t * b ≤ k < t * b + b → k / b = t) as Hdiv.
    { intros k t Hk. symmetry. apply (Nat.div_unique k b t (k - t * b)); lia. }
    rewrite (Hdiv y1 i), (Hdiv y2 i), (Hdiv x1 j), (Hdiv x2 j) by done. done.
Qed.

(** Conversely two cells of one row, column or box share a group. *)
Lemma peers_is_group N b y1 x1 y2 x2 :
  0 < b → N = b * b → y1 < N → x1 < N → y2 < N → x2 < N →
  y2 = y1 ∨ x2 = x1 ∨ in_box_of b y1 x1 y2 x2 →
  ∃ ps, is_group N b ps ∧ (y1, x1) ∈ ps ∧ (y2, x2) ∈ ps.
Proof.
  intros Hb HN Hy1 Hx1 Hy2 Hx2 [->|[->|[Hy Hx]]].
  - exists (row_coords N y1). split; [left; eauto|].
    split; apply list_elem_of_fmap; eexists; (split; [done|]); apply elem_of_seq; lia.
  - exists (col_coords N x1). split; [right; left; eauto|].
    split; apply list_elem_of_fmap; eexists; (split; [done|]); apply elem_of_seq; lia.
  - exists (box_coords b (y1 / b * b) (x1 / b * b)). split.
    + right. right. exists (y1 / b), (x1 / b).
      split; [apply Nat.Div0.div_lt_upper_bound; lia|].
      split; [apply Nat.Div0.div_lt_upper_bound; lia|done].
    + pose proof (Nat.div_mod_eq y1 b). pose proof (Nat.mod_upper_bound y1 b).
      pose proof (Nat.div_mod_eq x1 b). pose proof (Nat.mod_upper_bound x1 b).
      pose proof (Nat.div_mod_eq y2 b). pose proof (Nat.mod_upper_bound y2 b).
      pose proof (Nat.div_mod_eq x2 b). pose proof (Nat.mod_upper_bound x2 b).
      rewrite !elem_of_box_coords. rewrite Hy, Hx in *. lia.
Qed.

Lemma length_vals g ps : length (vals g ps) = length ps.
Proof. apply length_fmap. Qed.

Lemma NoDup_digits N : NoDup (digits N).
Proof. apply NoDup_fmap_2; [apply _|apply NoDup_seq]. Qed.

Lemma elem_of_digits N v : v ∈ digits N ↔ (1 ≤ v ≤ Z.of_nat N)%Z.
Proof.
  unfold digits. rewrite list_elem_of_fmap. split.
  - intros (n & -> & Hn%elem_of_seq). lia.
  - intros Hv. exists (Z.to_nat v). rewrite elem_of_seq. lia.
Qed.

Lemma all_digits_digits N g : length g = N → all_digits g = list_to_set (digits N).
Proof.
  intros <-. unfold all_digits, digits, range. do 3 f_equal. lia.
Qed.

(** A group of [N] values has the value set [{1..N}] exactly when it is
    a permutation of [1..N]. *)
Lemma set_eq_digits_perm N l :
  length l = N →
  (list_to_set l : gset Z) = list_to_set (digits N) ↔ l ≡ₚ digits N.
Proof.
  intros Hlen. split.
  - intros Hset. symmetry. apply submseteq_length_Permutation.
    + apply NoDup_submseteq; [apply NoDup_digits|]. intros v Hv.
      apply (elem_of_list_to_set (C := gset Z)). rewrite Hset.
      by apply elem_of_list_to_set.
    + unfold digits. rewrite length_fmap, length_seq. lia.
  - intros Hperm. apply set_eq. intros v. rewrite !elem_of_list_to_set.
    by rewrite Hperm.
Qed.

Lemma perm_digits_alt N l :
  length l = N →
  l ≡ₚ digits N ↔ NoDup l ∧ ∀ v, v ∈ l → (1 ≤ v ≤ Z.of_nat N)%Z.
Proof.
  intros Hlen. split.
  - intros Hperm. split.
    + rewrite Hperm. apply NoDup_digits.
    + intros v. rewrite Hperm. apply elem_of_digits.
  - intros [Hnd Hrange]. apply submseteq_length_Permutation.
    + apply NoDup_submseteq; [done|]. intros v Hv. apply elem_of_digits. auto.
    + unfold digits. rewrite length_fmap, length_seq. lia.
Qed.

(** The length test of [is_valid_puzzle] is a test for duplicates. *)
Lemma length_size_NoDup l :
  length l = size (list_to_set l : gset Z) ↔ NoDup l.
Proof.
  split; [|intros Hnd; by rewrite size_list_to_set].
  assert (∀ k : Group, size (list_to_set k : gset Z) ≤ length k) as Hle.
  { induction k as [|v k IH]; [by rewrite list_to_set_nil, size_empty|].
    rewrite list_to_set_cons, size_union_alt, size_singleton. cbn [length].
    pose proof (subseteq_size (list_to_set k ∖ {[v]}) (list_to_set k : gset Z)
                  ltac:(set_solver)). lia. }
  induction l as [|v l IH]; [constructor|].
  rewrite list_to_set_cons. cbn [length]. intros Hlen.
  destruct (decide (v ∈ l)) as [Hin|Hnin].
  - assert ({[v]} ∪ list_to_set l = (list_to_set l : gset Z)) as Heq by set_solver.
    rewrite Heq in Hlen. specialize (Hle l). lia.
  - rewrite size_union, size_singleton in Hlen by set_solver.
    apply NoDup_cons. split; [done|]. apply IH. lia.
Qed.

Lemma NoDup_filter_vals g ps :
  NoDup ps →
  NoDup (filter (λ v, v ≠ EMPTY_CELL_VALUE) (vals g ps)) ↔ no_duplicate_digit g ps.
Proof.
  unfold no_duplicate_digit, vals. induction 1 as [|p ps Hp Hnd IH].
  - split; [|constructor]. intros _ p q Hin. by apply not_elem_of_nil in Hin.
  - rewrite fmap_cons, filter_cons. case_decide as Hv.
    + rewrite NoDup_cons, IH, list_elem_of_filter, list_elem_of_fmap. split.
      * intros [Hnin Hrest] q1 q2 Hq1 Hq2 Hne Heq.
        apply elem_of_cons in Hq1 as [->|Hq1], Hq2 as [->|Hq2]; [done| | |eauto].
        -- destruct Hnin. split; [done|]. eauto.
        -- destruct Hnin. split; [done|]. eauto.
      * intros Hall. split.
        -- intros [_ (q & Heq & Hq)]. destruct Hv.
           apply (Hall p q); [by left|by right|congruence|done].
        -- intros q1 q2 Hq1 Hq2. apply Hall; by right.
    + rewrite IH. split.
      * intros Hrest q1 q2 Hq1 Hq2 Hne Heq.
        apply elem_of_cons in Hq1 as [->|Hq1], Hq2 as [->|Hq2];
          [done|done|congruence|eauto].
      * intros Hall q1 q2 Hq1 Hq2. apply Hall; by right.
Qed.
End checkers.

Section checker_results.
Implicit Types (g : Grid) (ps : list Coords).

Lemma check_groups N g (f : Group → bool) :
  square_grid N g → perfect_square N → 0 < N →
  ∃ bs, boxes g = Ok bs ∧
    (forallb f (g ++ cols g ++ bs) = true ↔
     ∀ ps, is_group N (int_sqrt N) ps → f (vals g ps) = true).
Proof.
  intros Hsq Hps HN. eexists. split; [by apply (square_grid_boxes N)|].
  rewrite <- Is_true_true, forallb_True.
  rewrite (Forall_groups N g (λ group, Is_true (f group))); [|done..|].
  - by setoid_rewrite Is_true_true.
  - by apply square_grid_boxes.
Qed.

Lemma is_solved_spec N g :
  square_grid N g → perfect_square N → 0 < N →
  ∃ r, is_solved g = Ok r ∧
       (r = true ↔ every_group N (λ ps, vals g ps ≡ₚ digits N)).
Proof.
  intros Hsq Hps HN. unfold is_solved.
  destruct (check_groups N g
    (λ group, bool_decide ((list_to_set group : gset Z) = all_digits g)))
    as (bs & -> & Hall); [done..|].
  simpl. eexists. split; [done|]. rewrite Hall, every_group_is_group.
  apply forall_proper. intros ps. apply forall_proper. intros Hgroup.
  destruct (is_group_facts N (int_sqrt N) ps) as (_ & Hlen & _);
    [symmetry; apply Hps|done|].
  rewrite bool_decide_eq_true, (all_digits_digits N) by apply Hsq.
  apply set_eq_digits_perm. by rewrite length_vals.
Qed.

Lemma is_valid_puzzle_spec N g :
  square_grid N g → perfect_square N → 0 < N →
  ∃ r, is_valid_puzzle g = Ok r ∧
       (r = true ↔ every_group N (no_duplicate_digit g)).
Proof.
  intros Hsq Hps HN. unfold is_valid_puzzle.
  destruct (check_groups N g
    (λ group, let digits_in_group := filter (λ v, v ≠ EMPTY_CELL_VALUE) group in
              bool_decide (length digits_in_group
                           = size (list_to_set digits_in_group : gset Z))))
    as (bs & -> & Hall); [done..|].
  simpl. eexists. split; [done|]. rewrite Hall, every_group_is_group.
  apply forall_proper. intros ps. apply forall_proper. intros Hgroup.
  destruct (is_group_facts N (int_sqrt N) ps) as (Hnd & _ & _);
    [symmetry; apply Hps|done|].
  cbv zeta. rewrite bool_decide_eq_true, length_size_NoDup.
  by apply NoDup_filter_vals.
Qed.
End checker_results.

Section soundness.
Implicit Types (g : Grid) (rec : Grid → nat → nat → res (bool * Grid)).

Lemma val_cell g y x v : cell g y x = Some v → val g (y, x) = v.
Proof. unfold val. simpl. by intros ->. Qed.

Lemma val_set_cell_ne g y x v p : p ≠ (y, x) → val (set_cell g y x v) p = val g p.
Proof.
  intros Hne. destruct p as [y' x']. unfold val. simpl.
  rewrite cell_set_cell_ne; [done|congruence].
Qed.

Lemma cells_in_range_set_cell N g y x d :
  cells_in_range N g → (0 ≤ d ≤ Z.of_nat N)%Z → cells_in_range N (set_cell g y x d).
Proof.
  intros Hr Hd y' x' v. destruct (decide ((y, x) = (y', x'))) as [[= <- <-]|Hne].
  - destruct (cell g y x) as [w|] eqn:Hc.
    + rewrite cell_set_cell_eq by (by rewrite Hc). by intros [= <-].
    + intros (row & Hrow & Hx)%cell_Some. rewrite lookup_set_cell in Hrow.
      rewrite decide_True in Hrow by done.
      apply fmap_Some in Hrow as (row' & Hrow' & ->).
      assert (is_Some (cell g y x)) as [? ?]; [|congruence].
      apply lookup_lt_Some in Hx. rewrite length_insert in Hx.
      destruct (lookup_lt_is_Some_2 row' x Hx) as [w Hw].
      exists w. apply cell_Some. eauto.
  - rewrite cell_set_cell_ne by done. apply Hr.
Qed.

(** A digit that no peer holds can be placed in an empty cell. *)
Lemma consistent_set_cell N g y x s d :
  square_grid N g → perfect_square N →
  cell g y x = Some EMPTY_CELL_VALUE →
  get_peers g (y, x) = Ok s → d ∉ s →
  consistent N g → consistent N (set_cell g y x d).
Proof.
  intros Hsq Hps Hc Hpeers Hd Hcons.
  destruct (cell_square_grid_lt N g y x _ Hsq Hc) as [Hy Hx].
  assert (0 < int_sqrt N) as Hb by (apply perfect_square_pos; [done|lia]).
  destruct (get_peers_all N g y x) as (s' & Hs' & Hin); [done..|].
  assert (s' = s) as -> by congruence.
  assert (∀ ps q, is_group N (int_sqrt N) ps → (y, x) ∈ ps → q ∈ ps →
                  q ≠ (y, x) → val g q ≠ d) as Hfresh.
  { intros ps [y' x'] Hgroup Hp Hq Hne Hval. apply Hd, Hin. exists y', x'.
    destruct (is_group_facts N _ ps (eq_sym Hps) Hgroup) as (_ & _ & Hlt).
    destruct (Hlt _ _ Hq) as [Hy' Hx'].
    split; [done|]. split; [by eapply is_group_peers|].
    destruct (square_grid_cell N g y' x') as [w Hw]; [done..|].
    rewrite <- Hval. by rewrite (val_cell _ _ _ _ Hw). }
  unfold consistent in *. rewrite every_group_is_group in *.
  intros ps Hgroup p q Hp Hq Hne Heq.
  destruct (decide (p = (y, x))) as [->|Hpne];
    [|destruct (decide (q = (y, x))) as [->|Hqne]].
  - rewrite (val_set_cell_ne _ _ _ _ q) in Heq by congruence.
    destruct (Hfresh ps q Hgroup Hp Hq ltac:(congruence)).
    rewrite <- Heq. apply val_cell, cell_set_cell_eq. by rewrite Hc.
  - rewrite (val_set_cell_ne _ _ _ _ p) in Heq by done.
    destruct (Hfresh ps p Hgroup Hq Hp Hpne).
    rewrite Heq. apply val_cell, cell_set_cell_eq. by rewrite Hc.
  - rewrite !val_set_cell_ne in * by done. by apply (Hcons ps Hgroup p q).
Qed.

Lemma try_digits_sound N rec s y x g0 :
  restores rec → sound_call N rec →
  square_grid N g0 → perfect_square N → consistent N g0 → cells_in_range N g0 →
  cell g0 y x = Some EMPTY_CELL_VALUE →
  get_peers g0 (y, x) = Ok s →
  ∀ ds g g',
    (∀ d, d ∈ ds → 1 ≤ d ≤ N) →
    set_cell g y x EMPTY_CELL_VALUE = g0 →
    try_digits rec s y x ds g = Ok (true, g') →
    square_grid N g' ∧ consistent N g' ∧ cells_in_range N g'
    ∧ ∀ y' x', at_or_after y x y' x' → cell g' y' x' ≠ Some EMPTY_CELL_VALUE.
Proof.
  intros Hres Hrec Hsq Hps Hcons Hrange Hc Hpeers.
  induction ds as [|d ds IH]; intros g g' Hds Hg; simpl; [done|].
  assert (∀ d', d' ∈ ds → 1 ≤ d' ≤ N) as Hds' by (intros d' ?; apply Hds; by right).
  case_decide as Hd; [by apply IH|].
  assert (set_cell g y x (Z.of_nat d) = set_cell g0 y x (Z.of_nat d)) as ->
    by (by rewrite <- Hg, set_cell_set_cell).
  destruct (rec _ y x) as [[[] g1]|e|] eqn:Hcall; simpl; [| |done..].
  - intros [= <-]. apply Hrec in Hcall; [done| | |].
    + by apply square_grid_set_cell.
    + by eapply consistent_set_cell.
    + apply cells_in_range_set_cell; [done|]. specialize (Hds d ltac:(left)). lia.
  - apply Hres in Hcall as ->. apply IH; [done|].
    rewrite set_cell_set_cell. by apply set_cell_id.
Qed.

Lemma solve_fuel_sound N fuel : perfect_square N → sound_call N (solve_fuel fuel).
Proof.
  intros Hps. induction fuel as [|fuel IH]; [done|].
  intros g y0 x0 g' Hsq Hcons Hrange Hsolve.
  pose proof (solve_fuel_keeps (S fuel) _ _ _ _ _ Hsolve) as Hkeeps.
  simpl in Hsolve. unfold solve_body in Hsolve.
  destruct (first_empty g y0 x0) as [[y x]|] eqn:Hfe.
  - apply first_empty_Some in Hfe as (Hc & Hafter & Hfirst).
    destruct (get_peers g (y, x)) as [s|e|] eqn:Hpeers; simpl in Hsolve; [|done..].
    apply (try_digits_sound N _ _ _ _ g) in Hsolve
        as (Hsq' & Hcons' & Hrange' & Hfull);
      [|by apply solve_fuel_restores|done..| |by apply set_cell_id].
    + do 3 (split; [done|]). intros y' x' Hafter'.
      destruct (decide (at_or_after y x y' x')) as [?|Hbefore]; [by apply Hfull|].
      intros Hc'. specialize (Hfirst y' x' Hafter' Hbefore).
      destruct (cell_square_grid_lt N g' y' x' _ Hsq' Hc') as [Hy' Hx'].
      destruct (square_grid_cell N g y' x') as [v Hv]; [done..|].
      assert (v ≠ EMPTY_CELL_VALUE) as Hv0 by congruence.
      rewrite (Hkeeps y' x' v Hv0 Hv) in Hc'. congruence.
    + intros d Hd%elem_of_range. destruct Hsq as [Hlen _]. lia.
  - injection Hsolve as <-. do 3 (split; [done|]).
    by apply first_empty_None.
Qed.

(** A consistent in-range grid without empty cells is solved. *)
Lemma full_consistent_solved N g :
  square_grid N g → perfect_square N → 0 < N →
  consistent N g → cells_in_range N g →
  (∀ y x, cell g y x ≠ Some EMPTY_CELL_VALUE) →
  is_solved g = Ok true.
Proof.
  intros Hsq Hps HN Hcons Hrange Hfull.
  destruct (is_solved_spec N g) as (r & -> & Hr); [done..|].
  f_equal. apply Hr. unfold consistent in Hcons.
  rewrite every_group_is_group in *. intros ps Hgroup.
  destruct (is_group_facts N _ ps (eq_sym Hps) Hgroup) as (Hnd & Hlen & Hlt).
  assert (∀ p, p ∈ ps → (1 ≤ val g p ≤ Z.of_nat N)%Z) as Hvals.
  { intros [y x] Hp. destruct (Hlt _ _ Hp) as [Hy Hx].
    destruct (square_grid_cell N g y x) as [v Hv]; [done..|].
    rewrite (val_cell _ _ _ _ Hv). pose proof (Hrange _ _ _ Hv).
    assert (v ≠ 0%Z) by (intros ->; by apply (Hfull y x)). lia. }
  apply perm_digits_alt; [by rewrite length_vals|]. split.
  - apply NoDup_fmap_2_strong; [|done]. intros p q Hp Hq Heq.
    destruct (decide (p = q)) as [|Hne]; [done|].
    pose proof (Hcons ps Hgroup p q Hp Hq Hne Heq) as H0.
    specialize (Hvals p Hp). unfold EMPTY_CELL_VALUE in H0. lia.
  - intros v (p & -> & Hp)%list_elem_of_fmap. by apply Hvals.
Qed.
Lemma in_range_cells N g : in_range N g ↔ cells_in_range N g.
Proof.
  unfold in_range, cells_in_range. rewrite Forall_lookup.
  setoid_rewrite Forall_lookup. setoid_rewrite cell_Some. split.
  - intros Hall y x v (row & Hrow & Hx). eauto.
  - intros Hall y row Hrow x v Hx. eauto.
Qed.
End soundness.

Section parsing.
Implicit Types (c : ascii) (cs : list ascii) (rest : string).

Lemma int_of_char_Ok c d :
  int_of_char c = Ok d ↔ d ≤ 9 ∧ c = digit_char d.
Proof.
  unfold int_of_char, digit_char. split.
  - destruct (_ && _) eqn:Hrange; [|done]. intros [= <-].
    apply andb_prop in Hrange as [H1%Nat.leb_le H2%Nat.leb_le].
    split; [lia|]. replace (48 + (nat_of_ascii c - 48)) with (nat_of_ascii c) by lia.
    by rewrite ascii_nat_embedding.
  - intros [Hd ->]. rewrite nat_ascii_embedding by lia.
    destruct (_ && _) eqn:Hrange; [f_equal; lia|].
    apply andb_false_iff in Hrange as [H%Nat.leb_gt|H%Nat.leb_gt]; lia.
Qed.

Lemma pretty_digit d : d ≤ 9 → pretty d = String (digit_char d) "".
Proof.
  intros Hd. do 10 (destruct d as [|d]; [done|]). lia.
Qed.

Lemma isspace_digit_char d : d ≤ 9 → isspace (digit_char d) = false.
Proof.
  intros Hd. do 10 (destruct d as [|d]; [done|]). lia.
Qed.

Lemma elem_of_valid_digits width c :
  width ≤ 9 →
  String c "" ∈ (list_to_set (pretty <$> range 0 (width + 1)) : gset string)
  ↔ valid_cell width c.
Proof.
  intros Hw. rewrite elem_of_list_to_set, list_elem_of_fmap. unfold valid_cell.
  split.
  - intros (d & Hd & Hin%elem_of_range). exists d. split; [|lia].
    rewrite pretty_digit in Hd by lia. injection Hd as ->.
    apply int_of_char_Ok. split; [lia|done].
  - intros (d & [Hd ->]%int_of_char_Ok & Hle). exists d.
    rewrite pretty_digit, elem_of_range by done. split; [done|lia].
Qed.

Lemma read_cells_filter (V : gset string) cs acc :
  read_cells V cs acc = read_cells V (filter (λ c, isspace c = false) cs) acc.
Proof.
  revert acc. induction cs as [|c cs IH]; intros acc; [done|].
  rewrite filter_cons. case_decide as Hsp; simpl.
  - rewrite Hsp. case_decide; [apply IH|done].
  - apply not_false_is_true in Hsp. rewrite Hsp. apply IH.
Qed.

Lemma read_cells_Ok (V : gset string) cs acc :
  Forall (λ c, isspace c = false) cs →
  Forall (λ c, String c "" ∈ V) cs →
  read_cells V cs acc = Ok (acc ++ (cell_str <$> cs)).
Proof.
  revert acc. induction cs as [|c cs IH]; intros acc Hsp Hvalid; simpl.
  - by rewrite app_nil_r.
  - inversion Hsp as [|?? Hc Hsp']; inversion Hvalid as [|?? Hv Hvalid']; subst.
    rewrite Hc, decide_True by done. rewrite IH by done.
    by rewrite <- app_assoc.
Qed.

Lemma read_cells_Raise (V : gset string) cs acc :
  Forall (λ c, isspace c = false) cs →
  Exists (λ c, String c "" ∉ V) cs →
  read_cells V cs acc = Raise IOError.
Proof.
  intros Hsp Hbad. revert acc. induction Hbad as [c cs Hc|c cs Hbad IH];
    intros acc; inversion Hsp as [|?? Hspc Hsp']; subst; simpl; rewrite Hspc.
  - by rewrite decide_False.
  - case_decide; [by apply IH|done].
Qed.

Lemma Forall_cells_nonspace rest : Forall (λ c, isspace c = false) (cells rest).
Proof. apply Forall_forall. by intros c [? _]%list_elem_of_filter. Qed.

Lemma concat_slices {A} N : ∀ m (lst : list A),
  length lst = m * N →
  concat ((λ i, slice lst (i * N) (i * N + N)) <$> seq 0 m) = lst.
Proof.
  unfold slice. induction m as [|m IH]; intros lst Hlen.
  - by destruct lst.
  - cbn [seq]. rewrite fmap_cons, concat_cons, <- fmap_S_seq, <- list_fmap_compose.
    etrans; [|apply (take_drop N lst)]. f_equal.
    + simpl. by rewrite Nat.sub_0_r.
    + etrans; [|apply (IH (drop N lst)); rewrite length_drop; lia].
      f_equal. apply list_fmap_ext. intros _ i _. simpl.
      rewrite drop_drop. f_equal; lia.
Qed.

Lemma split_list_Ok {A} (lst : list A) N :
  0 < N → length lst = N * N →
  ∃ rows, split_list lst N = Ok rows ∧ length rows = N
          ∧ Forall (λ row, length row = N) rows ∧ concat rows = lst.
Proof.
  intros HN Hlen. unfold split_list. rewrite Hlen, range_step_square by done.
  simpl. eexists. split; [done|]. rewrite <- list_fmap_compose.
  split; [by rewrite length_fmap, length_seq|]. split.
  - apply Forall_fmap, Forall_forall. intros i Hi%elem_of_seq. simpl.
    unfold slice. rewrite length_take, length_drop. nia.
  - by apply concat_slices.
Qed.

Lemma concat_rows_inj {A} N (r1 r2 : list (list A)) :
  Forall (λ row, length row = N) r1 → Forall (λ row, length row = N) r2 →
  length r1 = length r2 → concat r1 = concat r2 → r1 = r2.
Proof.
  intros H1. revert r2. induction H1 as [|row1 r1 Hrow1 _ IH];
    intros [|row2 r2] H2 Hlen Hcat; try done.
  inversion H2 as [|?? Hrow2 H2']; subst. simpl in Hcat.
  apply app_inj_1 in Hcat as [-> Hcat]; [|congruence].
  f_equal. apply IH; [done|by simplify_eq/=|done].
Qed.

(** A digit character up to [N] is a character that [int()] reads as a
    number up to [N]. *)
Lemma digit_upto_valid_cell N c : digit_upto N c ↔ valid_cell N c.
Proof.
  unfold digit_upto, valid_cell. split.
  - intros (d & HdN & Hd & Hc). exists d. split; [|done].
    apply int_of_char_Ok. split; [done|]. unfold digit_char.
    by rewrite <- Hc, ascii_nat_embedding.
  - intros (d & [Hd ->]%int_of_char_Ok & HdN). exists d.
    split; [done|]. split; [done|]. unfold digit_char.
    apply nat_ascii_embedding. lia.
Qed.

(** What [read_grid] does with a file that starts with the digit [N]. *)
Lemma read_grid_digit c rest N :
  int_of_char c = Ok N →
  read_grid (String c rest) =
    if decide (Forall (valid_cell N) (cells rest)) then
      if decide (length (cells rest) ≠ N ^ 2) then Raise ValueError
      else split_list (cell_str <$> cells rest) N
    else Raise IOError.
Proof.
  intros Hc. pose proof Hc as [HN _]%int_of_char_Ok.
  unfold read_grid. rewrite Hc. simpl. rewrite read_cells_filter. fold (cells rest).
  case_decide as Hvalid.
  - rewrite read_cells_Ok; [|apply Forall_cells_nonspace|].
    + simpl. by rewrite length_fmap.
    + eapply Forall_impl; [done|]. intros c'. by apply elem_of_valid_digits.
  - rewrite read_cells_Raise; [done|apply Forall_cells_nonspace|].
    apply not_Forall_Exists in Hvalid; [|apply _].
    eapply Exists_impl; [done|]. intros c' Hc'. by rewrite elem_of_valid_digits.
Qed.
End parsing.

Section round_trip.
Implicit Types (grid : RawGrid) (row : list pyval) (v : pyval).

Lemma list_ascii_of_string_app s1 s2 :
  list_ascii_of_string (s1 +:+ s2)
  = list_ascii_of_string s1 ++ list_ascii_of_string s2.
Proof. induction s1 as [|c s1 IH]; simpl; [done|]. by rewrite IH. Qed.

Lemma cells_app s1 s2 : cells (s1 +:+ s2) = cells s1 ++ cells s2.
Proof. unfold cells. by rewrite list_ascii_of_string_app, filter_app. Qed.

Lemma cells_str_join sep (l : list string) :
  cells sep = [] → cells (str_join sep l) = concat (cells <$> l).
Proof.
  intros Hsep. induction l as [|s l IH]; [done|].
  destruct l as [|s' l].
  - simpl. by rewrite app_nil_r.
  - change (str_join sep (s :: s' :: l))
      with (s +:+ sep +:+ str_join sep (s' :: l)).
    by rewrite !cells_app, Hsep, IH.
Qed.

Lemma legal_cell_char N v :
  N ≤ 9 → legal_cell N v →
  ∃ d, d ≤ N ∧ py_str v = String (digit_char d) "".
Proof.
  intros HN (z & -> & Hz). exists (Z.to_nat z). split; [lia|].
  assert (z = 0 ∨ z = 1 ∨ z = 2 ∨ z = 3 ∨ z = 4 ∨ z = 5 ∨ z = 6
          ∨ z = 7 ∨ z = 8 ∨ z = 9)%Z as Hcases by lia.
  repeat (destruct Hcases as [->|Hcases]; [done|]). by subst.
Qed.

Lemma cells_digit d :
  d ≤ 9 → cells (String (digit_char d) "") = [digit_char d].
Proof.
  intros Hd. unfold cells. cbn [list_ascii_of_string].
  rewrite filter_cons_True by (by apply isspace_digit_char).
  by rewrite filter_nil.
Qed.

Lemma cells_row N row :
  N ≤ 9 → Forall (legal_cell N) row →
  let cs := concat (cells <$> (py_str <$> row)) in
  Forall (valid_cell N) cs ∧ length cs = length row
  ∧ cell_str <$> cs = (λ v, PyStr (py_str v)) <$> row.
Proof.
  intros HN Hrow. induction Hrow as [|v row Hv Hrow IH]; [done|].
  destruct IH as (Hvalid & Hlen & Hstr).
  destruct (legal_cell_char N v HN Hv) as (d & Hd & Hpy).
  rewrite !fmap_cons, concat_cons, Hpy, cells_digit by lia.
  cbn [app length fmap list_fmap]. split; [|split].
  - constructor; [|done]. exists d. split; [|done].
    apply int_of_char_Ok. split; [lia|done].
  - by rewrite Hlen.
  - unfold cell_str at 1. by rewrite Hstr.
Qed.

Lemma cells_grid N grid :
  N ≤ 9 → Forall (λ row, length row = N ∧ Forall (legal_cell N) row) grid →
  let cs := cells (str_join newline
                     ((λ row, str_join "  " (py_str <$> row)) <$> grid)) in
  Forall (valid_cell N) cs ∧ length cs = length grid * N
  ∧ cell_str <$> cs = concat (as_strings grid).
Proof.
  intros HN Hgrid. cbv zeta. rewrite cells_str_join by done.
  induction Hgrid as [|row grid [Hlen Hrow] Hgrid IH]; [done|].
  destruct IH as (Hvalid & Hlength & Hstr).
  destruct (cells_row N row HN Hrow) as (Hvalid1 & Hlength1 & Hstr1).
  unfold as_strings in *.
  rewrite !fmap_cons, !concat_cons, cells_str_join by done.
  split; [|split].
  - by apply Forall_app.
  - rewrite length_app, Hlength, Hlength1, Hlen. simpl. lia.
  - by rewrite fmap_app, Hstr, Hstr1.
Qed.

(** Reading back what [write_grid] wrote yields the decimal strings of
    the cells, arranged as the grid was. *)
Lemma read_write_as_strings N grid :
  1 ≤ N ≤ 9 → legal_raw_grid N grid →
  read_grid (write_grid grid) = Ok (as_strings grid).
Proof.
  intros HN [Hlen Hgrid]. unfold write_grid.
  rewrite Hlen, pretty_digit by lia.
  change (String (digit_char N) "" +:+ ?s) with (String (digit_char N) s).
  rewrite (read_grid_digit _ _ N) by (apply int_of_char_Ok; split; [lia|done]).
  rewrite cells_app. change (cells newline) with (@nil ascii). rewrite app_nil_l.
  destruct (cells_grid N grid) as (Hvalid & Hlength & Hstr); [lia|done|].
  rewrite decide_True by done.
  rewrite decide_False by (rewrite Hlength, Hlen; simpl; lia).
  destruct (split_list_Ok (cell_str <$> cells (str_join newline
              ((λ row, str_join "  " (py_str <$> row)) <$> grid))) N)
    as (rows & -> & Hrows_len & Hrows & Hcat); [lia| |].
  { rewrite length_fmap, Hlength, Hlen. done. }
  f_equal. apply (concat_rows_inj N); [done| | |by rewrite Hcat].
  - unfold as_strings. apply Forall_fmap. eapply Forall_impl; [done|].
    intros row [Hrow _]. simpl. by rewrite length_fmap.
  - unfold as_strings. by rewrite length_fmap, Hlen.
Qed.

Lemma as_strings_ne N grid :
  0 < N → legal_raw_grid N grid → as_strings grid ≠ grid.
Proof.
  intros HN [Hlen Hgrid] Heq.
  destruct grid as [|row grid]; [simpl in Hlen; lia|].
  inversion Hgrid as [|?? [Hrow Hlegal] _]; subst.
  destruct row as [|v row]; [simpl in *; lia|].
  inversion Hlegal as [|?? (z & -> & _) _]; subst. done.
Qed.
End round_trip.

(** The degenerate width: on the empty grid the checkers stop at the
    zero step of [range], while [solve] has nothing to do. *)
Example width_zero :
  is_solved [] = Raise ValueError ∧ is_valid_puzzle [] = Raise ValueError
  ∧ solve [] = Ok (true, []).
Proof. repeat split. Qed.

(** A peer set can hold the empty marker. *)
Example peers_hold_zero :
  ∃ s, get_peers grid_puzzle4 (0, 1) = Ok s ∧ 0%Z ∈ s.
Proof.
  destruct (get_peers_spec 4 grid_puzzle4 0 1) as (s & Hs & Hin);
    [split; [reflexivity|repeat constructor]|reflexivity|lia..|].
  exists s. split; [done|]. apply Hin. left. by exists 3.
Qed.

(** C1, as amended: on an [N]×[N] grid, [N] a perfect square, whose
    cells hold values in [[0, N]] and on which [is_valid_puzzle] returns
    true, a [solve] that returns true leaves a grid on which [is_solved]
    returns true. *)
Theorem solve_sound N g g' :
  square_grid N g → perfect_square N → in_range N g →
  is_valid_puzzle g = Ok true →
  solve g = Ok (true, g') →
  is_solved g' = Ok true.
Proof.
  intros Hsq Hps Hrange Hvalid Hsolve.
  assert (0 < N) as HN.
  { destruct N; [|lia]. destruct Hsq as [Hlen _].
    apply nil_length_inv in Hlen. by subst. }
  destruct (is_valid_puzzle_spec N g) as (r & Hr & Hcons); [done..|].
  assert (r = true) as -> by congruence.
  destruct (solve_fuel_sound N (S (cell_count g)) Hps g 0 0 g')
    as (Hsq' & Hcons' & Hrange' & Hfull); [done|by apply Hcons| |done|].
  { by apply in_range_cells. }
  apply (full_consistent_solved N); [done..|].
  intros y x. apply Hfull. unfold at_or_after. lia.
Qed.

Lemma solve_sound_witness : is_solved grid_solved4 = Ok true.
Proof.
  apply (solve_sound 4 grid_puzzle4 grid_solved4).
  - split; [reflexivity|]. repeat constructor.
  - reflexivity.
  - repeat first [lia | constructor].
  - vm_compute. reflexivity.
  - vm_compute. reflexivity.
Defined.

(** C1, as stated, fails: a full grid of ones is returned as it is with
    the answer true, and it is not solved. *)
Lemma solve_true_not_solved :
  square_grid 4 grid_ones4 ∧ perfect_square 4
  ∧ solve grid_ones4 = Ok (true, grid_ones4)
  ∧ is_solved grid_ones4 = Ok false.
Proof.
  split; [split; [reflexivity|repeat constructor]|].
  split; [reflexivity|]. split; vm_compute; reflexivity.
Qed.

(** C2: on an [N]×[N] grid, [N] a perfect square, a [solve] that returns
    false leaves the grid exactly as it was before the call. *)
Theorem solve_false_restores N g g' :
  square_grid N g → perfect_square N →
  solve g = Ok (false, g') →
  g' = g.
Proof.
  intros _ _ Hsolve. by apply solve_fuel_restores in Hsolve.
Qed.

Lemma solve_false_restores_witness : grid_stuck4 = grid_stuck4.
Proof.
  apply (solve_false_restores 4 grid_stuck4 grid_stuck4).
  - split; [reflexivity|]. repeat constructor.
  - reflexivity.
  - vm_compute. reflexivity.
Defined.

(** C3: for a square raw grid of width [1 ≤ N ≤ 9] with integer cells in
    [[0, N]], [read_grid] applied to what [write_grid] wrote returns the
    grid of the cells' one-character strings, which is not the original
    grid of integers. *)
Theorem read_write_returns_strings N grid :
  1 ≤ N ≤ 9 → legal_raw_grid N grid →
  read_grid (write_grid grid) = Ok (as_strings grid)
  ∧ read_grid (write_grid grid) ≠ Ok grid.
Proof.
  intros HN Hlegal. rewrite (read_write_as_strings N) by done.
  split; [done|]. intros [= Heq]. by apply (as_strings_ne N grid); [lia|..].
Qed.

Lemma read_write_returns_strings_witness :
  read_grid (write_grid [[PyInt 1]]) = Ok [[PyStr "1"]]
  ∧ read_grid (write_grid [[PyInt 1]]) ≠ Ok [[PyInt 1]].
Proof.
  apply (read_write_returns_strings 1 [[PyInt 1]]).
  - lia.
  - split; [reflexivity|]. repeat constructor. exists 1%Z. split; [reflexivity|lia].
Defined.

(** C4, as amended: [read_grid] takes the width from the first character
    of the file, which has to be a decimal digit: a returned grid has as
    many rows, and cells per row, as that digit says; a file that starts
    with whitespace is rejected with a [ValueError]; and the result
    depends on the characters after the first only through those that
    are not whitespace. *)
Theorem read_grid_width_first_char c rest :
  (∀ g, read_grid (String c rest) = Ok g →
        ∃ N, int_of_char c = Ok N ∧ length g = N
             ∧ Forall (λ row, length row = N) g)
  ∧ (isspace c = true → read_grid (String c rest) = Raise ValueError)
  ∧ (∀ rest', cells rest' = cells rest →
              read_grid (String c rest') = read_grid (String c rest)).
Proof.
  split; [|split].
  - intros g Hread. destruct (int_of_char c) as [N|e|] eqn:Hc;
      [|by unfold read_grid in Hread; rewrite Hc in Hread..].
    exists N. split; [done|].
    rewrite (read_grid_digit c rest N Hc) in Hread.
    case_decide; [|done]. case_decide as Hcount; [done|].
    destruct N as [|n]; [by unfold split_list, range_step in Hread|].
    destruct (split_list_Ok (cell_str <$> cells rest) (S n))
      as (rows & Hrows & Hlen & Hshape & _); [lia| |].
    { by rewrite length_fmap, Hcount, Nat.pow_2_r. }
    by assert (rows = g) as <- by congruence.
  - intros Hsp. unfold read_grid, int_of_char.
    destruct (_ && _) eqn:Hdigit; [|done].
    apply andb_prop in Hdigit as [H1%Nat.leb_le H2%Nat.leb_le].
    unfold isspace in Hsp.
    repeat (apply orb_prop in Hsp as [Hsp|Hsp]);
      try apply andb_prop in Hsp as [H3%Nat.leb_le H4%Nat.leb_le];
      try apply Nat.eqb_eq in Hsp; lia.
  - intros rest' Hcells. destruct (int_of_char c) as [N|e|] eqn:Hc;
      [|by unfold read_grid; rewrite Hc..].
    by rewrite !(read_grid_digit c _ N Hc), Hcells.
Qed.

(** C4, as stated, fails: a valid encoding preceded by a space is
    rejected, while the encoding itself is read. *)
Lemma leading_whitespace_rejected :
  read_grid "11" = Ok [[PyStr "1"]] ∧ read_grid " 11" = Raise ValueError.
Proof. split; vm_compute; reflexivity. Qed.

(** C5: on an [N]×[N] grid, [N] a perfect square, and for an in-range
    coordinate, [get_peers] returns exactly the values of the other
    cells of the row, of the other cells of the column, and of the box
    cells in another row and another column; it holds [0] exactly when
    one of those cells is empty, and it never holds a digit of [1..N]
    that no other cell of the row, the column or the box holds. *)
Theorem get_peers_exact N g y0 x0 :
  square_grid N g → perfect_square N → y0 < N → x0 < N →
  ∃ s, get_peers g (y0, x0) = Ok s
    ∧ (∀ v, v ∈ s ↔
         (∃ x, x ≠ x0 ∧ cell g y0 x = Some v)
         ∨ (∃ y, y ≠ y0 ∧ cell g y x0 = Some v)
         ∨ (∃ y x, in_box_of (int_sqrt N) y0 x0 y x ∧ y ≠ y0 ∧ x ≠ x0
                   ∧ cell g y x = Some v))
    ∧ (∀ d, (1 ≤ d ≤ Z.of_nat N)%Z →
         (∀ y x, (y, x) ≠ (y0, x0) →
                 y = y0 ∨ x = x0 ∨ in_box_of (int_sqrt N) y0 x0 y x →
                 cell g y x ≠ Some d) →
         d ∉ s).
Proof.
  intros Hsq Hps Hy0 Hx0.
  destruct (get_peers_spec N g y0 x0) as (s & Hs & Hin); [done..|].
  destruct (get_peers_all N g y0 x0) as (s' & Hs' & Hall); [done..|].
  assert (s' = s) as -> by congruence.
  exists s. split; [done|]. split; [done|].
  intros d _ Hfree (y & x & Hne & Hpeer & Hc)%Hall. by apply (Hfree y x).
Qed.

Lemma get_peers_exact_witness :
  ∃ s, get_peers grid_puzzle4 (0, 1) = Ok s
    ∧ (∀ v, v ∈ s ↔
         (∃ x, x ≠ 1 ∧ cell grid_puzzle4 0 x = Some v)
         ∨ (∃ y, y ≠ 0 ∧ cell grid_puzzle4 y 1 = Some v)
         ∨ (∃ y x, in_box_of (int_sqrt 4) 0 1 y x ∧ y ≠ 0 ∧ x ≠ 1
                   ∧ cell grid_puzzle4 y x = Some v))
    ∧ (∀ d, (1 ≤ d ≤ Z.of_nat 4)%Z →
         (∀ y x, (y, x) ≠ (0, 1) →
                 y = 0 ∨ x = 1 ∨ in_box_of (int_sqrt 4) 0 1 y x →
                 cell grid_puzzle4 y x ≠ Some d) →
         d ∉ s).
Proof.
  apply (get_peers_exact 4 grid_puzzle4 0 1).
  - split; [reflexivity|]. repeat constructor.
  - reflexivity.
  - lia.
  - lia.
Defined.

(** C6: on an [N]×[N] grid, [N] a positive perfect square, [is_solved]
    returns, and it returns true exactly when the values of every row,
    every column and every box are a permutation of [1..N], that is when
    they have no duplicate and all lie in [[1, N]]. *)
Theorem is_solved_iff_permutations N g :
  0 < N → square_grid N g → perfect_square N →
  ∃ r, is_solved g = Ok r
    ∧ (r = true ↔ every_group N (λ ps, vals g ps ≡ₚ digits N))
    ∧ (r = true ↔
       every_group N (λ ps, NoDup (vals g ps)
                            ∧ ∀ v, v ∈ vals g ps → (1 ≤ v ≤ Z.of_nat N)%Z)).
Proof.
  intros HN Hsq Hps.
  destruct (is_solved_spec N g) as (r & Hr & Hperm); [done..|].
  exists r. split; [done|]. split; [done|].
  rewrite Hperm, !every_group_is_group.
  apply forall_proper. intros ps. apply forall_proper. intros Hgroup.
  destruct (is_group_facts N (int_sqrt N) ps) as (_ & Hlen & _);
    [symmetry; apply Hps|done|].
  apply perm_digits_alt. by rewrite length_vals.
Qed.

Lemma is_solved_iff_permutations_witness :
  ∃ r, is_solved grid_solved4 = Ok r
    ∧ (r = true ↔ every_group 4 (λ ps, vals grid_solved4 ps ≡ₚ digits 4))
    ∧ (r = true ↔
       every_group 4 (λ ps, NoDup (vals grid_solved4 ps)
                            ∧ ∀ v, v ∈ vals grid_solved4 ps
                                   → (1 ≤ v ≤ Z.of_nat 4)%Z)).
Proof.
  apply (is_solved_iff_permutations 4 grid_solved4).
  - lia.
  - split; [reflexivity|]. repeat constructor.
  - reflexivity.
Defined.

(** C7: on an [N]×[N] grid, [N] a positive perfect square,
    [is_valid_puzzle] returns, and it returns true exactly when no row,
    column or box has two distinct cells with the same non-zero value;
    cells that hold [0] never count. *)
Theorem is_valid_puzzle_iff_no_duplicate N g :
  0 < N → square_grid N g → perfect_square N →
  ∃ r, is_valid_puzzle g = Ok r
    ∧ (r = true ↔ every_group N (no_duplicate_digit g)).
Proof.
  intros HN Hsq Hps. by apply is_valid_puzzle_spec.
Qed.

Lemma is_valid_puzzle_iff_no_duplicate_witness :
  ∃ r, is_valid_puzzle grid_puzzle4 = Ok r
    ∧ (r = true ↔ every_group 4 (no_duplicate_digit grid_puzzle4)).
Proof.
  apply (is_valid_puzzle_iff_no_duplicate 4 grid_puzzle4).
  - lia.
  - split; [reflexivity|]. repeat constructor.
  - reflexivity.
Defined.

(** C8, as amended: [read_grid] raises an [IndexError] on an empty file
    and a [ValueError] when [int()] rejects the first character.  When
    [int()] reads the first character as [N], it raises an [IOError]
    when a later character that is not whitespace is not one of the
    ASCII digit characters ['0'], ..., [str(N)]; otherwise it raises a
    [ValueError] when the number of characters after the first that are
    not whitespace is not [N²]; otherwise it raises a [ValueError] for
    [N = 0], and for [N ≥ 1] it returns the [N]×[N] grid of those
    characters in row-major order.  An error never comes with a grid.
    The characters are those of [ascii], below U+0100, where [int()]
    accepts ['0'] to ['9'] and nothing else. *)
Theorem read_grid_errors :
  read_grid "" = Raise IndexError
  ∧ (∀ c rest, (∀ N, int_of_char c ≠ Ok N) →
               read_grid (String c rest) = Raise ValueError)
  ∧ (∀ c rest N, int_of_char c = Ok N →
       (¬ Forall (digit_upto N) (cells rest) →
          read_grid (String c rest) = Raise IOError)
       ∧ (Forall (digit_upto N) (cells rest) → length (cells rest) ≠ N ^ 2 →
          read_grid (String c rest) = Raise ValueError)
       ∧ (Forall (digit_upto N) (cells rest) → length (cells rest) = N ^ 2 →
          (N = 0 → read_grid (String c rest) = Raise ValueError)
          ∧ (0 < N →
             ∃ g, read_grid (String c rest) = Ok g
                  ∧ length g = N ∧ Forall (λ row, length row = N) g
                  ∧ concat g = cell_str <$> cells rest))).
Proof.
  split; [done|]. split.
  - intros c rest Hc. unfold read_grid.
    destruct (int_of_char c) as [N|e|] eqn:Hint; [by destruct (Hc N)| |].
    + unfold int_of_char in Hint. destruct (_ && _); by simplify_eq.
    + unfold int_of_char in Hint. by destruct (_ && _).
  - intros c rest N Hc. rewrite (read_grid_digit c rest N Hc).
    assert (Forall (digit_upto N) (cells rest)
            ↔ Forall (valid_cell N) (cells rest)) as ->.
    { apply Forall_iff, digit_upto_valid_cell. }
    split; [|split].
    + intros Hbad. by rewrite decide_False.
    + intros Hvalid Hcount. by rewrite !decide_True.
    + intros Hvalid Hcount. rewrite decide_True, decide_False by auto. split.
      * intros ->. unfold split_list, range_step.
        by rewrite decide_True.
      * intros HN. apply split_list_Ok; [done|].
        by rewrite length_fmap, Hcount, Nat.pow_2_r.
Qed.

(** C8, as stated, fails: [read_grid] also raises on an empty file and
    on a first character that is not a digit, a character outside
    [[0, N]] wins over a wrong count, and width [0] is rejected although
    nothing is malformed or miscounted. *)
Lemma read_grid_other_errors :
  read_grid "" = Raise IndexError
  ∧ read_grid "x" = Raise ValueError
  ∧ (length (cells "x") ≠ 2 ^ 2 ∧ read_grid "2x" = Raise IOError)
  ∧ (Forall (digit_upto 0) (cells "") ∧ length (cells "") = 0 ^ 2
     ∧ read_grid "0" = Raise ValueError).
Proof.
  split; [reflexivity|]. split; [reflexivity|].
  split; (split; [vm_compute; first [lia | constructor]|]).
  - vm_compute. reflexivity.
  - split; vm_compute; reflexivity.
Qed.

(** C9: on an [N]×[N] grid, [N] a perfect square, [solve] returns
    within [N²] nested recursive activations below the outermost one,
    a larger allowance gives the same result, and an activation only
    calls itself on grids with strictly fewer empty cells: replacing the
    recursive call on every other grid by anything at all changes
    nothing. *)
Theorem solve_terminates N g :
  square_grid N g → perfect_square N →
  (∃ b g', solve g = Ok (b, g')
           ∧ solve_fuel (S (N * N)) g 0 0 = Ok (b, g')
           ∧ ∀ fuel, S (N * N) ≤ fuel → solve_fuel fuel g 0 0 = Ok (b, g'))
  ∧ (∀ fuel other y0 x0,
       solve_body (λ g' y x, if decide (count_empty g' < count_empty g)
                             then solve_fuel fuel g' y x else other g' y x)
                  g y0 x0
       = solve_body (solve_fuel fuel) g y0 x0).
Proof.
  intros Hsq Hps. split.
  - pose proof (cell_count_square N g Hsq) as Hcount.
    pose proof (count_empty_le g) as Hle.
    destruct (solve_fuel_returns N (S (N * N)) g 0 0) as (b & g' & Hsolve & _);
      [done..|lia|].
    exists b, g'. unfold solve. rewrite Hcount. split; [done|]. split; [done|].
    intros fuel Hfuel. by apply (solve_fuel_mono (S (N * N))).
  - intros fuel other y0 x0. apply solve_body_calls_smaller.
    apply solve_fuel_restores.
Qed.

Lemma solve_terminates_witness :
  (∃ b g', solve grid_puzzle4 = Ok (b, g')
           ∧ solve_fuel (S (4 * 4)) grid_puzzle4 0 0 = Ok (b, g')
           ∧ ∀ fuel, S (4 * 4) ≤ fuel →
                     solve_fuel fuel grid_puzzle4 0 0 = Ok (b, g'))
  ∧ (∀ fuel other y0 x0,
       solve_body (λ g' y x,
                     if decide (count_empty g' < count_empty grid_puzzle4)
                     then solve_fuel fuel g' y x else other g' y x)
                  grid_puzzle4 y0 x0
       = solve_body (solve_fuel fuel) grid_puzzle4 y0 x0).
Proof.
  apply (solve_terminates 4 grid_puzzle4).
  - split; [reflexivity|]. repeat constructor.
  - reflexivity.
Defined.

(** C10: whatever the grid, the allowance and the cursor, when a call of
    [solve] returns, with true or with false, every cell that held a
    non-zero value at the call holds the same value. *)
Theorem solve_keeps_clues fuel g y0 x0 b g' :
  solve_fuel fuel g y0 x0 = Ok (b, g') →
  ∀ y x v, v ≠ EMPTY_CELL_VALUE → cell g y x = Some v → cell g' y x = Some v.
Proof.
  intros Hsolve. by apply (solve_fuel_keeps fuel g y0 x0 b g').
Qed.

Lemma solve_keeps_clues_witness : cell grid_solved4 1 3 = Some 2%Z.
Proof.
  apply (solve_keeps_clues 17 grid_puzzle4 0 0 true grid_solved4).
  - vm_compute. reflexivity.
  - unfold EMPTY_CELL_VALUE. lia.
  - reflexivity.
Defined.

(** * Further properties of the engine *)

Section search_more.
Implicit Types (g : Grid) (rec : Grid → nat → nat → res (bool * Grid)).

Lemma cell_set_cell_is_Some g y x v y' x' :
  is_Some (cell (set_cell g y x v) y' x') ↔ is_Some (cell g y' x').
Proof.
  destruct (decide ((y, x) = (y', x'))) as [[= <- <-]|Hne];
    [|by rewrite cell_set_cell_ne].
  split; [|intros Hc; rewrite cell_set_cell_eq by done; eauto].
  intros [w (row & Hrow & Hx)%cell_Some]. rewrite lookup_set_cell in Hrow.
  rewrite decide_True in Hrow by done.
  apply fmap_Some in Hrow as (row' & Hrow' & ->).
  apply lookup_lt_Some in Hx. rewrite length_insert in Hx.
  destruct (lookup_lt_is_Some_2 row' x Hx) as [w' Hw'].
  exists w'. apply cell_Some. eauto.
Qed.

Lemma try_digits_shape rec ps y x :
  keeps_shape rec →
  ∀ ds g b g', try_digits rec ps y x ds g = Ok (b, g') →
    ∀ y' x', is_Some (cell g' y' x') ↔ is_Some (cell g y' x').
Proof.
  intros Hrec. induction ds as [|d ds IH]; intros g b g'; simpl.
  - intros [= <- <-] y' x'. apply cell_set_cell_is_Some.
  - case_decide; [by apply IH|].
    destruct (rec _ y x) as [[solved g1]|e|] eqn:Hcall; simpl; [|done..].
    pose proof (Hrec _ _ _ _ _ Hcall) as Hshape.
    assert (∀ y' x', is_Some (cell g1 y' x') ↔ is_Some (cell g y' x')) as Hg1.
    { intros y' x'. by rewrite Hshape, cell_set_cell_is_Some. }
    destruct solved; [by intros [= <- <-]|].
    intros Hrest y' x'. by rewrite (IH _ _ _ Hrest), Hg1.
Qed.

Lemma solve_fuel_shape fuel : keeps_shape (solve_fuel fuel).
Proof.
  induction fuel as [|fuel IH]; [done|]. intros g y0 x0 b g'. simpl.
  unfold solve_body. destruct (first_empty g y0 x0) as [[y x]|];
    [|by intros [= <- <-]].
  destruct (get_peers g (y, x)) as [ps|e|]; simpl; [|done..].
  by apply try_digits_shape.
Qed.

Lemma try_digits_fills rec ps y x :
  fills rec →
  ∀ ds g g', try_digits rec ps y x ds g = Ok (true, g') →
    ∀ y' x', at_or_after y x y' x' → cell g' y' x' ≠ Some EMPTY_CELL_VALUE.
Proof.
  intros Hrec. induction ds as [|d ds IH]; intros g g'; simpl; [done|].
  case_decide; [by apply IH|].
  destruct (rec _ y x) as [[[] g1]|e|] eqn:Hcall; simpl; [| |done..].
  - intros [= <-]. by apply (Hrec _ _ _ _ Hcall).
  - by apply IH.
Qed.

Lemma solve_fuel_fills fuel : fills (solve_fuel fuel).
Proof.
  induction fuel as [|fuel IH]; [done|]. intros g y0 x0 g' Hsolve.
  pose proof (solve_fuel_keeps (S fuel) _ _ _ _ _ Hsolve) as Hkeeps.
  pose proof (solve_fuel_shape (S fuel) _ _ _ _ _ Hsolve) as Hshape.
  simpl in Hsolve. unfold solve_body in Hsolve.
  destruct (first_empty g y0 x0) as [[y x]|] eqn:Hfe.
  - apply first_empty_Some in Hfe as (Hc & Hafter & Hfirst).
    destruct (get_peers g (y, x)) as [ps|e|]; simpl in Hsolve; [|done..].
    pose proof (try_digits_fills _ _ _ _ IH _ _ _ Hsolve) as Hfull.
    intros y' x' Hafter'.
    destruct (decide (at_or_after y x y' x')) as [?|Hbefore]; [by apply Hfull|].
    intros Hc'. specialize (Hfirst y' x' Hafter' Hbefore).
    destruct (proj1 (Hshape y' x')) as [v Hv]; [by rewrite Hc'|].
    assert (v ≠ EMPTY_CELL_VALUE) as Hv0 by congruence.
    rewrite (Hkeeps y' x' v Hv0 Hv) in Hc'. congruence.
  - injection Hsolve as <-. by apply first_empty_None.
Qed.

Lemma first_empty_full g y0 x0 :
  (∀ y x, cell g y x ≠ Some EMPTY_CELL_VALUE) → first_empty g y0 x0 = None.
Proof.
  intros Hfull. destruct (first_empty g y0 x0) as [[y x]|] eqn:Hfe; [|done].
  apply first_empty_Some in Hfe as (Hc & _). by destruct (Hfull y x).
Qed.
End search_more.

Section solved_grids.
Implicit Types (g s : Grid).

Lemma NoDup_fmap_inj_on {A B} (f : A → B) (l : list A) a1 a2 :
  NoDup (f <$> l) → a1 ∈ l → a2 ∈ l → f a1 = f a2 → a1 = a2.
Proof.
  induction l as [|a l IH]; intros Hnd H1 H2 Heq; [by apply not_elem_of_nil in H1|].
  rewrite fmap_cons in Hnd. apply NoDup_cons in Hnd as [Hnin Hnd].
  apply elem_of_cons in H1 as [->|H1], H2 as [->|H2]; [done| | |by apply IH].
  - destruct Hnin. rewrite Heq. by apply list_elem_of_fmap_2.
  - destruct Hnin. rewrite <- Heq. by apply list_elem_of_fmap_2.
Qed.

Lemma square_grid_pos_of_solved N g r :
  square_grid N g → is_solved g = Ok r → 0 < N.
Proof.
  intros [Hlen _] Hsolved. destruct N; [|lia].
  apply nil_length_inv in Hlen. by subst.
Qed.

(** What a solved grid looks like cell by cell. *)
Lemma solved_cells N g :
  square_grid N g → perfect_square N → is_solved g = Ok true →
  consistent N g
  ∧ ∀ y x, y < N → x < N →
           ∃ v, cell g y x = Some v ∧ (1 ≤ v ≤ Z.of_nat N)%Z.
Proof.
  intros Hsq Hps Hsolved.
  pose proof (square_grid_pos_of_solved N g _ Hsq Hsolved) as HN.
  destruct (is_solved_spec N g) as (r & Hr & Hperm); [done..|].
  assert (r = true) as -> by congruence.
  pose proof (proj1 Hperm eq_refl) as Hall.
  rewrite every_group_is_group in Hall. split.
  - unfold consistent. apply every_group_is_group.
    intros ps Hgroup p q Hp Hq Hne Heq.
    destruct Hne. apply (NoDup_fmap_inj_on (val g) ps); [|done..].
    fold (vals g ps). rewrite (Hall ps Hgroup). apply NoDup_digits.
  - intros y x Hy Hx.
    destruct (square_grid_cell N g y x) as [v Hv]; [done..|].
    exists v. split; [done|]. apply elem_of_digits.
    rewrite <- (Hall (row_coords N y)) by (left; eauto).
    rewrite <- (val_cell _ _ _ _ Hv). apply list_elem_of_fmap_2.
    apply list_elem_of_fmap. exists x. split; [done|]. apply elem_of_seq. lia.
Qed.

Lemma extends_keeps_clues g s : extends g s → keeps_clues g s.
Proof.
  intros Hext y x v Hv (row & Hrow & Hx)%cell_Some.
  destruct (Forall2_lookup_l _ _ _ _ _ Hext Hrow) as (row' & Hrow' & Hrows).
  destruct (Forall2_lookup_l _ _ _ _ _ Hrows Hx) as (v' & Hx' & [->| ->]); [done|].
  apply cell_Some. eauto.
Qed.

Lemma keeps_clues_extends N g s :
  square_grid N g → square_grid N s → keeps_clues g s → extends g s.
Proof.
  intros [Hlen Hrows] [Hlen' Hrows'] Hkeeps.
  rewrite Forall_lookup in Hrows, Hrows'.
  apply Forall2_same_length_lookup_2; [congruence|]. intros y row row' Hrow Hrow'.
  apply Forall2_same_length_lookup_2;
    [by rewrite (Hrows _ _ Hrow), (Hrows' _ _ Hrow')|].
  intros x a b Ha Hb. destruct (decide (a = EMPTY_CELL_VALUE)) as [|Hne]; [by left|].
  right. assert (cell s y x = Some a) as Hs.
  { apply Hkeeps; [done|]. apply cell_Some. eauto. }
  apply cell_Some in Hs as (row2 & Hrow2 & Hx2). congruence.
Qed.

Lemma keeps_clues_set_cell_l g s y x v :
  keeps_clues g s → cell s y x = Some v → keeps_clues (set_cell g y x v) s.
Proof.
  intros Hk Hs y' x' w Hw Hc.
  destruct (decide ((y, x) = (y', x'))) as [[= <- <-]|Hne].
  - assert (is_Some (cell g y x)) as Hsome.
    { apply (cell_set_cell_is_Some g y x v). eauto. }
    rewrite cell_set_cell_eq in Hc by done. congruence.
  - rewrite cell_set_cell_ne in Hc by done. eauto.
Qed.

(** With a completion at hand the digit loop reaches a digit whose
    recursive call succeeds. *)
Lemma try_digits_finds N (rec : Grid → nat → nat → res (bool * Grid))
    ps y x g0 n :
  restores rec →
  (∀ g y1 x1, square_grid N g → count_empty g < count_empty g0 →
              ∃ b g', rec g y1 x1 = Ok (b, g') ∧ square_grid N g') →
  (∃ g', rec (set_cell g0 y x (Z.of_nat n)) y x = Ok (true, g')) →
  Z.of_nat n ∉ ps →
  square_grid N g0 →
  cell g0 y x = Some EMPTY_CELL_VALUE →
  ∀ ds g,
    n ∈ ds →
    (∀ d, d ∈ ds → Z.of_nat d ≠ EMPTY_CELL_VALUE) →
    set_cell g y x EMPTY_CELL_VALUE = g0 →
    ∃ g', try_digits rec ps y x ds g = Ok (true, g').
Proof.
  intros Hres Hrec [gn Hn] Hfree Hsq H0.
  induction ds as [|d ds IH]; intros g Hin Hds Hg;
    [by apply not_elem_of_nil in Hin|]. simpl.
  assert (∀ d', d' ∈ ds → Z.of_nat d' ≠ EMPTY_CELL_VALUE) as Hds'
    by (intros d' ?; apply Hds; by right).
  case_decide as Hd.
  { apply IH; [|done..]. apply elem_of_cons in Hin as [->|Hin]; done. }
  assert (set_cell g y x (Z.of_nat d) = set_cell g0 y x (Z.of_nat d)) as ->
    by (by rewrite <- Hg, set_cell_set_cell).
  destruct (Hrec (set_cell g0 y x (Z.of_nat d)) y x) as (b & g1 & Hcall & _).
  { by apply square_grid_set_cell. }
  { pose proof (count_empty_set_cell g0 y x (Z.of_nat d) H0
                  (Hds d ltac:(left))). lia. }
  rewrite Hcall. simpl. destruct b; [eauto|].
  apply elem_of_cons in Hin as [->|Hin]; [congruence|].
  apply Hres in Hcall as ->. apply IH; [done..|].
  rewrite set_cell_set_cell. by apply set_cell_id.
Qed.

Lemma solve_fuel_complete N fuel : ∀ g y0 x0 s,
  square_grid N g → perfect_square N → count_empty g < fuel →
  completes N g s →
  ∃ g', solve_fuel fuel g y0 x0 = Ok (true, g').
Proof.
  induction fuel as [|fuel IH]; intros g y0 x0 s Hsq Hps Hfuel Hcomp; [lia|].
  pose proof Hcomp as (Hsqs & Hext & Hsolved).
  pose proof (extends_keeps_clues g s Hext) as Hkeeps.
  destruct (solved_cells N s) as (Hcons & Hcells); [done..|].
  assert (0 < int_sqrt N) as Hb.
  { apply perfect_square_pos; [done|]. by eapply square_grid_pos_of_solved. }
  simpl. unfold solve_body.
  destruct (first_empty g y0 x0) as [[y x]|] eqn:Hfe; [|eauto].
  apply first_empty_Some in Hfe as (Hc & _).
  destruct (cell_square_grid_lt N g y x _ Hsq Hc) as [Hy Hx].
  destruct (get_peers_all N g y x) as (ps & -> & Hin); [done..|]. simpl.
  destruct (Hcells y x Hy Hx) as (v & Hv & Hrange).
  apply (try_digits_finds N _ _ _ _ g (Z.to_nat v));
    [apply solve_fuel_restores| | | |done..| | |by apply set_cell_id].
  - intros g1 y1 x1 Hsq1 Hlt. apply (solve_fuel_returns N); [done..|lia].
  - rewrite Z2Nat.id by lia. apply (IH _ _ _ s); [by apply square_grid_set_cell|done| |].
    + pose proof (count_empty_set_cell g y x v Hc) as Hcount.
      unfold EMPTY_CELL_VALUE in Hcount. specialize (Hcount ltac:(lia)). lia.
    + split; [done|]. split; [|done].
      apply (keeps_clues_extends N); [by apply square_grid_set_cell|done|].
      by apply keeps_clues_set_cell_l.
  - rewrite Z2Nat.id by lia. intros (y' & x' & Hne & Hpeer & Hc')%Hin.
    destruct (cell_square_grid_lt N g y' x' _ Hsq Hc') as [Hy' Hx'].
    assert (v ≠ EMPTY_CELL_VALUE) as Hv0 by (unfold EMPTY_CELL_VALUE; lia).
    pose proof (Hkeeps y' x' v Hv0 Hc') as Hs'.
    destruct (peers_is_group N (int_sqrt N) y x y' x') as (qs & Hgroup & Hp & Hq);
      [done|by symmetry|done..|].
    unfold consistent in Hcons. rewrite every_group_is_group in Hcons.
    assert (val s (y, x) = EMPTY_CELL_VALUE) as Hzero.
    { apply (Hcons qs Hgroup (y, x) (y', x')); [done..|congruence|].
      by rewrite (val_cell _ _ _ _ Hv), (val_cell _ _ _ _ Hs'). }
    rewrite (val_cell _ _ _ _ Hv) in Hzero. done.
  - apply elem_of_range. destruct Hsq as [-> _]. lia.
  - intros d. apply digits_nonzero.
Qed.
End solved_grids.

Section solver_results.
Implicit Types (g s : Grid).

Lemma Forall_cells g (P : Z → Prop) :
  Forall (Forall P) g ↔ ∀ y x v, cell g y x = Some v → P v.
Proof.
  rewrite Forall_lookup. setoid_rewrite Forall_lookup.
  setoid_rewrite cell_Some. split.
  - intros Hall y x v (row & Hrow & Hx). eauto.
  - intros Hall y row Hrow x v Hx. eauto.
Qed.

Lemma solve_body_full (rec : Grid → nat → nat → res (bool * Grid)) g y0 x0 :
  (∀ y x, cell g y x ≠ Some EMPTY_CELL_VALUE) →
  solve_body rec g y0 x0 = Ok (true, g).
Proof. intros Hfull. unfold solve_body. by rewrite first_empty_full. Qed.
End solver_results.

(** X1: whenever some solved [N]×[N] grid keeps all the clues of the
    grid, [solve] returns true: a false answer means that the puzzle has
    no solution. *)
Theorem solve_complete N g s :
  square_grid N g → perfect_square N → completes N g s →
  ∃ g', solve g = Ok (true, g').
Proof.
  intros Hsq Hps Hcomp. apply (solve_fuel_complete N _ g 0 0 s); [done..| |done].
  pose proof (count_empty_le g). lia.
Qed.

Lemma solve_complete_witness : ∃ g', solve grid_puzzle4 = Ok (true, g').
Proof.
  apply (solve_complete 4 grid_puzzle4 grid_solved4).
  - split; [reflexivity|]. repeat constructor.
  - reflexivity.
  - split; [split; [reflexivity|repeat constructor]|].
    split; [|vm_compute; reflexivity].
    unfold extends, grid_puzzle4, grid_solved4.
    repeat match goal with
           | |- Forall2 _ _ _ => constructor
           | |- _ ∨ _ => first [left; reflexivity | right; reflexivity]
           end.
Defined.

(** X2: on an [N]×[N] grid, [N] a perfect square, with cells in
    [[0, N]] and on which [is_valid_puzzle] returns true, [solve]
    returns; with true it leaves a solved grid that keeps every clue,
    with false it leaves the grid as it was and no solved grid keeps
    every clue. *)
Theorem solve_decides N g :
  square_grid N g → perfect_square N → in_range N g →
  is_valid_puzzle g = Ok true →
  ∃ b g', solve g = Ok (b, g')
    ∧ if (b : bool) then completes N g g'
      else g' = g ∧ ∀ s, ¬ completes N g s.
Proof.
  intros Hsq Hps Hrange Hvalid.
  assert (0 < N) as HN.
  { destruct N; [|lia]. destruct Hsq as [Hlen _].
    apply nil_length_inv in Hlen. by subst. }
  pose proof (count_empty_le g) as Hle.
  destruct (solve_fuel_returns N (S (cell_count g)) g 0 0)
    as (b & g' & Hsolve & Hsq'); [done..|lia|].
  exists b, g'. split; [done|]. destruct b.
  - destruct (is_valid_puzzle_spec N g) as (r & Hr & Hcons); [done..|].
    assert (r = true) as -> by congruence.
    destruct (solve_fuel_sound N (S (cell_count g)) Hps g 0 0 g')
      as (_ & Hcons' & Hrange' & Hfull);
      [done|by apply Hcons|by apply in_range_cells|done|].
    split; [done|]. split.
    + apply (keeps_clues_extends N); [done..|]. by eapply solve_fuel_keeps.
    + apply (full_consistent_solved N); [done..|].
      intros y x. apply Hfull. unfold at_or_after. lia.
  - split; [by apply solve_fuel_restores in Hsolve|].
    intros s Hcomp.
    destruct (solve_fuel_complete N (S (cell_count g)) g 0 0 s)
      as (g2 & Hg2); [done..|lia|done|].
    congruence.
Qed.

Lemma solve_decides_witness :
  ∃ b g', solve grid_stuck4 = Ok (b, g')
    ∧ if (b : bool) then completes 4 grid_stuck4 g'
      else g' = grid_stuck4 ∧ ∀ s, ¬ completes 4 grid_stuck4 s.
Proof.
  apply (solve_decides 4 grid_stuck4).
  - split; [reflexivity|]. repeat constructor.
  - reflexivity.
  - repeat first [lia | constructor].
  - vm_compute. reflexivity.
Defined.

(** X3: whatever the grid, when a call of [solve] returns true no cell
    at or after its cursor, in row-major order, is empty; from the
    default cursor this is every cell. *)
Theorem solve_true_fills fuel g y0 x0 g' :
  solve_fuel fuel g y0 x0 = Ok (true, g') →
  ∀ y x, at_or_after y0 x0 y x → cell g' y x ≠ Some EMPTY_CELL_VALUE.
Proof. apply solve_fuel_fills. Qed.

Lemma solve_true_fills_witness : cell grid_solved4 2 1 ≠ Some EMPTY_CELL_VALUE.
Proof.
  apply (solve_true_fills 17 grid_puzzle4 0 0 grid_solved4).
  - vm_compute. reflexivity.
  - left. lia.
Defined.

(** X4: [solve] is idempotent: run again on the grid it left, it gives
    the same answer and leaves the same grid. *)
Theorem solve_idempotent g b g' :
  solve g = Ok (b, g') → solve g' = Ok (b, g').
Proof.
  intros Hsolve. destruct b.
  - apply solve_body_full. intros y x.
    apply (solve_fuel_fills _ _ _ _ _ Hsolve). unfold at_or_after. lia.
  - pose proof (solve_fuel_restores _ _ _ _ _ Hsolve) as ->. done.
Qed.

Lemma solve_idempotent_witness : solve grid_solved4 = Ok (true, grid_solved4).
Proof.
  apply (solve_idempotent grid_puzzle4 true grid_solved4).
  vm_compute. reflexivity.
Defined.

(** X5: on a grid without an empty cell, valid or not, [solve] returns
    true at once and writes nothing, from any cursor. *)
Theorem solve_full_unchanged g fuel y0 x0 :
  Forall (Forall (λ v, v ≠ EMPTY_CELL_VALUE)) g →
  solve_fuel (S fuel) g y0 x0 = Ok (true, g) ∧ solve g = Ok (true, g).
Proof.
  intros Hfull. rewrite Forall_cells in Hfull.
  assert (∀ y x, cell g y x ≠ Some EMPTY_CELL_VALUE) as Hne.
  { intros y x Hc. by apply (Hfull y x _ Hc). }
  split; by apply solve_body_full.
Qed.

Lemma solve_full_unchanged_witness :
  solve_fuel 1 grid_ones4 3 2 = Ok (true, grid_ones4)
  ∧ solve grid_ones4 = Ok (true, grid_ones4).
Proof.
  apply (solve_full_unchanged grid_ones4 0 3 2).
  repeat first [done | constructor].
Defined.

(** X6: on an [N]×[N] grid, [N] a positive perfect square, [is_solved]
    returns true exactly when [is_valid_puzzle] returns true and every
    cell holds a digit of [1..N]. *)
Theorem is_solved_iff_valid_and_full N g :
  0 < N → square_grid N g → perfect_square N →
  is_solved g = Ok true ↔
  is_valid_puzzle g = Ok true
  ∧ Forall (Forall (λ v, (1 ≤ v ≤ Z.of_nat N)%Z)) g.
Proof.
  intros HN Hsq Hps.
  destruct (is_valid_puzzle_spec N g) as (r & Hr & Hvalid); [done..|].
  rewrite Forall_cells. split.
  - intros Hsolved. destruct (solved_cells N g) as (Hcons & Hcells); [done..|].
    split; [rewrite Hr; f_equal; by apply Hvalid|].
    intros y x v Hc. destruct (cell_square_grid_lt N g y x _ Hsq Hc) as [Hy Hx].
    destruct (Hcells y x Hy Hx) as (w & Hw & Hrange). congruence.
  - intros [Hv Hcells]. assert (r = true) as -> by congruence.
    apply (full_consistent_solved N); [done..|by apply Hvalid| |].
    + intros y x v Hc. specialize (Hcells y x v Hc). lia.
    + intros y x Hc. specialize (Hcells y x _ Hc). unfold EMPTY_CELL_VALUE in *. lia.
Qed.

Lemma is_solved_iff_valid_and_full_witness :
  is_solved grid_solved4 = Ok true ↔
  is_valid_puzzle grid_solved4 = Ok true
  ∧ Forall (Forall (λ v, (1 ≤ v ≤ Z.of_nat 4)%Z)) grid_solved4.
Proof.
  apply (is_solved_iff_valid_and_full 4 grid_solved4).
  - lia.
  - split; [reflexivity|]. repeat constructor.
  - reflexivity.
Defined.

Section chunks.
Context {A : Type}.
Implicit Types (lst : list A).

Lemma concat_slices_le N : ∀ m lst,
  length lst ≤ m * N →
  concat ((λ i, slice lst (i * N) (i * N + N)) <$> seq 0 m) = lst.
Proof.
  unfold slice. induction m as [|m IH]; intros lst Hlen.
  - destruct lst; [done|simpl in Hlen; lia].
  - cbn [seq]. rewrite fmap_cons, concat_cons, <- fmap_S_seq, <- list_fmap_compose.
    etrans; [|apply (take_drop N lst)]. f_equal.
    + simpl. by rewrite Nat.sub_0_r.
    + etrans; [|apply (IH (drop N lst)); rewrite length_drop; lia].
      f_equal. apply list_fmap_ext. intros _ i _. simpl.
      rewrite drop_drop. f_equal; lia.
Qed.

Lemma div_up_bounds len n :
  0 < n →
  len ≤ (len + n - 1) / n * n
  ∧ (0 < (len + n - 1) / n → ((len + n - 1) / n - 1) * n < len).
Proof.
  intros Hn. pose proof (Nat.div_mod_eq (len + n - 1) n) as Hdm.
  pose proof (Nat.mod_upper_bound (len + n - 1) n ltac:(lia)) as Hlt.
  split; [nia|]. intros Hm. nia.
Qed.
End chunks.

(** X7: [split_list] rejects a zero chunk size with a [ValueError], even
    for the empty list; for a positive size it cuts the list into its
    consecutive chunks: together they give the list back, every chunk
    has between one and [max_size] elements, and all but the last have
    exactly [max_size]. *)
Theorem split_list_chunks {A} (lst : list A) (max_size : nat) :
  (max_size = 0 → split_list lst max_size = Raise ValueError)
  ∧ (0 < max_size →
     ∃ rows, split_list lst max_size = Ok rows
       ∧ concat rows = lst
       ∧ Forall (λ row, 1 ≤ length row ≤ max_size) rows
       ∧ ∀ i row, rows !! i = Some row → S i < length rows →
                  length row = max_size).
Proof.
  unfold split_list, range_step. split.
  - intros ->. by rewrite decide_True.
  - intros Hn. rewrite decide_False by lia. simpl.
    destruct (div_up_bounds (length lst) max_size Hn) as [Hup Hlow].
    set (m := (length lst + max_size - 1) / max_size) in *.
    eexists. split; [done|]. rewrite <- list_fmap_compose. split; [|split].
    + by apply concat_slices_le.
    + apply Forall_fmap, Forall_forall. intros i Hi%elem_of_seq. simpl.
      unfold slice. rewrite length_take, length_drop. nia.
    + intros i row Hrow. rewrite length_fmap, length_seq.
      apply list_lookup_fmap_Some in Hrow as (j & -> & Hj).
      apply lookup_seq in Hj as [-> Hi]. intros Hlast. simpl.
      unfold slice. rewrite length_take, length_drop. nia.
Qed.

Section transpose.
Implicit Types (g : Grid).

Lemma lt_foldr_min x n (ls : list nat) :
  x < foldr Nat.min n ls ↔ x < n ∧ Forall (λ k, x < k) ls.
Proof.
  induction ls as [|k ls IH]; simpl.
  - split; [by split|by intros [? _]].
  - rewrite Forall_cons, Nat.min_glb_lt_iff, IH. tauto.
Qed.

Lemma lookup_cols g x col :
  cols g !! x = Some col ↔
  g ≠ [] ∧ Forall (λ row, x < length row) g
  ∧ col = (λ row, default 0%Z (row !! x)) <$> g.
Proof.
  unfold cols. destruct g as [|row0 rest].
  - split; [done|by intros [? _]].
  - rewrite list_lookup_fmap_Some. setoid_rewrite lookup_seq.
    rewrite Forall_cons. split.
    + intros (x' & -> & [-> [Hrow0 Hrest]%lt_foldr_min]).
      rewrite Forall_fmap in Hrest. done.
    + intros (_ & [Hrow0 Hrest] & ->). exists x. split; [done|].
      split; [done|]. apply lt_foldr_min. by rewrite Forall_fmap.
Qed.

Lemma cell_cols g (x y : nat) (v : Z) :
  cell (cols g) x y = Some v ↔
  cell g y x = Some v ∧ Forall (λ row, x < length row) g.
Proof.
  rewrite !cell_Some. split.
  - intros (col & (Hne & Hlong & ->)%lookup_cols & Hy).
    apply list_lookup_fmap_Some in Hy as (row & -> & Hrow).
    split; [|done]. exists row. split; [done|].
    rewrite Forall_lookup in Hlong. specialize (Hlong _ _ Hrow).
    by destruct (lookup_lt_is_Some_2 row x Hlong) as [w ->].
  - intros [(row & Hrow & Hx) Hlong]. eexists. split.
    + apply lookup_cols. split; [by intros ->|done].
    + rewrite list_lookup_fmap, Hrow. simpl. by rewrite Hx.
Qed.
End transpose.

(** X8: [cols] is the transpose cut at the shortest row: entry [y] of
    column [x] is the cell [(y, x)] of the grid, and column [x] exists
    exactly when every row is longer than [x]. *)
Theorem cols_cell (g : Grid) (x y : nat) (v : Z) :
  cell (cols g) x y = Some v ↔
  cell g y x = Some v ∧ Forall (λ row, x < length row) g.
Proof. apply cell_cols. Qed.

Section transpose_twice.
Implicit Types (g : Grid).

Lemma rectangle_ext R M g g' :
  length g = R → Forall (λ row, length row = M) g →
  length g' = R → Forall (λ row, length row = M) g' →
  (∀ y x v, cell g y x = Some v ↔ cell g' y x = Some v) →
  g = g'.
Proof.
  intros Hlen Hrows Hlen' Hrows' Hcells. rewrite Forall_lookup in Hrows, Hrows'.
  apply list_eq_same_length with R; [done..|].
  intros y row row' Hy Hrow Hrow'.
  apply list_eq_same_length with M; [by eauto..|].
  intros x a a' Hx Ha Ha'.
  assert (cell g' y x = Some a) as (r & Hr & Hxr)%cell_Some.
  { apply Hcells, cell_Some. eauto. }
  congruence.
Qed.

Lemma cols_shape R M g :
  0 < R → length g = R → Forall (λ row, length row = M) g →
  length (cols g) = M ∧ Forall (λ col, length col = R) (cols g).
Proof.
  intros HR Hlen Hrows. destruct g as [|row0 rest]; [simpl in Hlen; lia|].
  unfold cols. inversion Hrows as [|?? Hrow0 Hrest]; subst.
  rewrite (square_min_length _ _ Hrest), length_fmap, length_seq.
  split; [done|]. apply Forall_fmap, Forall_forall. intros x _. simpl.
  by rewrite length_fmap.
Qed.
End transpose_twice.

(** X9: on a grid with at least one row whose rows all have the same
    positive length, and so on every [N]×[N] grid with [N ≥ 1],
    transposing twice gives the grid back. *)
Theorem cols_involutive (M : nat) (g : Grid) :
  g ≠ [] → 0 < M → Forall (λ row, length row = M) g →
  cols (cols g) = g.
Proof.
  intros Hne HM Hrows.
  assert (0 < length g) as HR by (destruct g; [done|simpl; lia]).
  destruct (cols_shape (length g) M g) as [Hlen Hcols]; [done..|].
  destruct (cols_shape M (length g) (cols g)) as [Hlen2 Hcols2]; [done..|].
  apply (rectangle_ext (length g) M); [done..|].
  intros y x v. rewrite cell_cols, cell_cols. split.
  - by intros [[Hc _] _].
  - intros Hc. split; [split; [done|]|].
    + eapply Forall_impl; [done|]. intros row Hrow. simpl in *.
      apply cell_Some in Hc as (r & Hr & Hx%lookup_lt_Some).
      rewrite Forall_lookup in Hrows. rewrite (Hrows _ _ Hr) in Hx. lia.
    + eapply Forall_impl; [done|]. intros col Hcol. simpl in *.
      apply cell_Some in Hc as (r & Hr%lookup_lt_Some & _). lia.
Qed.

Lemma cols_involutive_witness : cols (cols grid_puzzle4) = grid_puzzle4.
Proof.
  apply (cols_involutive 4 grid_puzzle4).
  - discriminate.
  - lia.
  - repeat constructor.
Defined.

Section partition.
Implicit Types (g : Grid).

Lemma vals_bind {A} g (f : A → list Coords) (l : list A) :
  vals g (l ≫= f) = concat ((λ a, vals g (f a)) <$> l).
Proof.
  unfold vals. induction l as [|a l IH]; [done|].
  by rewrite bind_cons, fmap_app, fmap_cons, concat_cons, IH.
Qed.

Lemma elem_of_all_coords N y x : (y, x) ∈ all_coords N ↔ y < N ∧ x < N.
Proof.
  unfold all_coords, row_coords. rewrite list_elem_of_bind. split.
  - intros (y' & (x' & [= -> ->] & Hx%elem_of_seq)%list_elem_of_fmap
             & Hy%elem_of_seq). lia.
  - intros [Hy Hx]. exists y. rewrite elem_of_seq. split; [|lia].
    apply list_elem_of_fmap. exists x. rewrite elem_of_seq. split; [done|lia].
Qed.

Lemma NoDup_all_coords N : NoDup (all_coords N).
Proof.
  unfold all_coords, row_coords. apply NoDup_bind; [| |apply NoDup_seq].
  - intros y1 y2 [y x] _ _ (? & [= -> ->] & _)%list_elem_of_fmap
      (? & [= -> ->] & _)%list_elem_of_fmap. done.
  - intros y _. apply NoDup_fmap_2; [|apply NoDup_seq]. intros ??; congruence.
Qed.

Lemma elem_of_boxes_coords b y x :
  0 < b → (y, x) ∈ boxes_coords b ↔ y < b * b ∧ x < b * b.
Proof.
  intros Hb. unfold boxes_coords. rewrite list_elem_of_bind. split.
  - intros ([y0 x0] & [Hy Hx]%elem_of_box_coords
             & (i & j & Hi & Hj & -> & ->)%elem_of_box_corners).
    simpl in *. nia.
  - intros [Hy Hx]. exists (y / b * b, x / b * b). simpl.
    pose proof (Nat.div_mod_eq y b). pose proof (Nat.mod_upper_bound y b).
    pose proof (Nat.div_mod_eq x b). pose proof (Nat.mod_upper_bound x b).
    split; [apply elem_of_box_coords; lia|].
    apply elem_of_box_corners. exists (y / b), (x / b).
    split; [apply Nat.Div0.div_lt_upper_bound; lia|].
    split; [apply Nat.Div0.div_lt_upper_bound; lia|done].
Qed.

Lemma NoDup_box_corners b : NoDup (box_corners b).
Proof.
  destruct (decide (b = 0)) as [->|Hb]; [constructor|].
  assert (NoDup ((λ i, i * b) <$> seq 0 b)) as Hnd.
  { apply NoDup_fmap_2; [|apply NoDup_seq]. intros i j Hij. nia. }
  unfold box_corners. apply NoDup_bind; [| |done].
  - intros y1 y2 [y x] _ _ (x1 & Hin1 & _)%list_elem_of_bind
      (x2 & Hin2 & _)%list_elem_of_bind.
    apply list_elem_of_singleton in Hin1, Hin2. congruence.
  - intros y _. apply NoDup_bind; [| |done].
    + intros x1 x2 p _ _ Hin1%list_elem_of_singleton Hin2%list_elem_of_singleton.
      congruence.
    + intros x _. apply NoDup_singleton.
Qed.

Lemma NoDup_boxes_coords b : NoDup (boxes_coords b).
Proof.
  destruct (decide (b = 0)) as [->|Hb]; [constructor|].
  unfold boxes_coords. apply NoDup_bind; [| |apply NoDup_box_corners].
  - intros [y1 x1] [y2 x2] [y x]
      (i1 & j1 & _ & _ & -> & ->)%elem_of_box_corners
      (i2 & j2 & _ & _ & -> & ->)%elem_of_box_corners
      [Hy1 Hx1]%elem_of_box_coords [Hy2 Hx2]%elem_of_box_coords.
    simpl in *. assert (i1 = i2) as -> by nia. assert (j1 = j2) as -> by nia.
    done.
  - intros p _. apply NoDup_box_coords.
Qed.

Lemma concat_square_grid N g : square_grid N g → concat g = vals g (all_coords N).
Proof.
  intros Hsq. unfold all_coords. rewrite vals_bind.
  by rewrite <- (square_grid_rows N g Hsq).
Qed.

Lemma length_box_corners b : length (box_corners b) = b * b.
Proof.
  unfold box_corners.
  assert (∀ (y : nat) (xs : list nat),
            length (x0 ← xs; [(y, x0)]) = length xs) as Hrow.
  { intros y xs. induction xs as [|x xs IHx]; [done|].
    rewrite bind_cons, length_app, IHx. done. }
  assert (∀ (ys xs : list nat),
            length (y0 ← ys; x0 ← xs; [(y0, x0)]) = length ys * length xs) as Hlen.
  { intros ys xs. induction ys as [|y ys IH]; [done|].
    rewrite bind_cons, length_app, IH, Hrow. done. }
  by rewrite Hlen, length_fmap, length_seq.
Qed.
End partition.

(** X10: on an [N]×[N] grid, [N] a positive perfect square, [boxes]
    returns [N] boxes of [N] cells each, and the boxes partition the
    grid: taken together their cells are the cells of the grid, each
    cell once. *)
Theorem boxes_partition N (g : Grid) :
  0 < N → square_grid N g → perfect_square N →
  ∃ bs, boxes g = Ok bs
    ∧ length bs = N ∧ Forall (λ box, length box = N) bs
    ∧ concat bs ≡ₚ concat g.
Proof.
  intros HN Hsq Hps.
  assert (0 < int_sqrt N) as Hb by (by apply perfect_square_pos).
  assert (N = int_sqrt N * int_sqrt N) as HNb by (symmetry; apply Hps).
  rewrite (square_grid_boxes N g) by done. eexists. split; [done|].
  split; [|split].
  - by rewrite length_fmap, length_box_corners.
  - apply Forall_fmap, Forall_forall. intros p _. simpl.
    by rewrite length_vals, length_box_coords.
  - rewrite (concat_square_grid N g Hsq).
    rewrite <- (vals_bind g (λ p, box_coords (int_sqrt N) p.1 p.2)).
    fold (boxes_coords (int_sqrt N)). unfold vals. apply fmap_Permutation.
    apply NoDup_Permutation; [apply NoDup_boxes_coords|apply NoDup_all_coords|].
    intros [y x]. rewrite elem_of_boxes_coords, elem_of_all_coords by done.
    by rewrite <- HNb.
Qed.

Lemma boxes_partition_witness :
  ∃ bs, boxes grid_puzzle4 = Ok bs
    ∧ length bs = 4 ∧ Forall (λ box, length box = 4) bs
    ∧ concat bs ≡ₚ concat grid_puzzle4.
Proof.
  apply (boxes_partition 4 grid_puzzle4).
  - lia.
  - split; [reflexivity|]. repeat constructor.
  - reflexivity.
Defined.

(** X11: for a grid size below [2^52], where the double-precision root
    that [int(math.sqrt(size))] truncates is exact, [get_bound_box]
    raises a [ZeroDivisionError] for size [0]; for a positive size it
    returns the box width [w] with [w² ≤ size < (w+1)²] and a corner
    whose two components are multiples of the width, with the coordinate
    inside the box that starts there; when the size is a perfect square
    and the coordinate lies in the grid, so does the box. *)
Theorem get_bound_box_contains (y x grid_size : nat) :
  (Z.of_nat grid_size < 2 ^ 52)%Z →
  (grid_size = 0 → get_bound_box (y, x) grid_size = Raise ZeroDivisionError)
  ∧ (0 < grid_size →
     ∃ top left_ box_width,
       get_bound_box (y, x) grid_size = Ok (top, left_, box_width)
       ∧ box_width * box_width ≤ grid_size < (box_width + 1) * (box_width + 1)
       ∧ 0 < box_width
       ∧ top mod box_width = 0 ∧ left_ mod box_width = 0
       ∧ top ≤ y < top + box_width ∧ left_ ≤ x < left_ + box_width
       ∧ (perfect_square grid_size → y < grid_size → x < grid_size →
          top + box_width ≤ grid_size ∧ left_ + box_width ≤ grid_size)).
Proof.
  intros _. unfold get_bound_box. split.
  - intros ->. by rewrite decide_True.
  - intros Hpos. set (b := int_sqrt grid_size).
    assert (0 < b) as Hb.
    { subst b. unfold int_sqrt. pose proof (Nat.sqrt_spec grid_size).
      destruct (Nat.sqrt grid_size); simpl in *; lia. }
    rewrite decide_False by lia. do 3 eexists. split; [done|].
    pose proof (Nat.div_mod_eq y b). pose proof (Nat.mod_upper_bound y b).
    pose proof (Nat.div_mod_eq x b). pose proof (Nat.mod_upper_bound x b).
    split.
    { subst b. unfold int_sqrt. pose proof (Nat.sqrt_spec grid_size). lia. }
    split; [done|].
    assert (∀ k, (k - k mod b) mod b = 0) as Hmul.
    { intros k. pose proof (Nat.div_mod_eq k b).
      replace (k - k mod b) with (k / b * b) by lia. apply Nat.Div0.mod_mul. }
    split; [apply Hmul|]. split; [apply Hmul|].
    split; [lia|]. split; [lia|].
    intros Hps Hy Hx. unfold perfect_square in Hps. fold b in Hps.
    rewrite <- Hps in Hy, Hx. rewrite <- Hps.
    split; apply box_top_bound; lia.
Qed.

Lemma get_bound_box_contains_witness :
  (9 = 0 → get_bound_box (5, 7) 9 = Raise ZeroDivisionError)
  ∧ (0 < 9 →
     ∃ top left_ box_width,
       get_bound_box (5, 7) 9 = Ok (top, left_, box_width)
       ∧ box_width * box_width ≤ 9 < (box_width + 1) * (box_width + 1)
       ∧ 0 < box_width
       ∧ top mod box_width = 0 ∧ left_ mod box_width = 0
       ∧ top ≤ 5 < top + box_width ∧ left_ ≤ 7 < left_ + box_width
       ∧ (perfect_square 9 → 5 < 9 → 7 < 9 →
          top + box_width ≤ 9 ∧ left_ + box_width ≤ 9)).
Proof. apply (get_bound_box_contains 5 7 9). reflexivity. Defined.

(** X12: on an [N]×[N] grid, [N] a perfect square, the peer set of an
    in-range cell does not depend on the value of the cell itself: it is
    the same after any write to that cell. *)
Theorem get_peers_ignores_own_cell N (g : Grid) (y0 x0 : nat) (v : Z) :
  square_grid N g → perfect_square N → y0 < N → x0 < N →
  get_peers (set_cell g y0 x0 v) (y0, x0) = get_peers g (y0, x0).
Proof.
  intros Hsq Hps Hy0 Hx0.
  destruct (get_peers_all N g y0 x0) as (s & -> & Hs); [done..|].
  destruct (get_peers_all N (set_cell g y0 x0 v) y0 x0) as (s' & -> & Hs');
    [by apply square_grid_set_cell|done..|].
  f_equal. apply set_eq. intros w. rewrite Hs, Hs'.
  do 2 (apply exist_proper; intros ?).
  split; intros (Hne & Hpeer & Hc); (split; [done|split; [done|]]).
  - by rewrite cell_set_cell_ne in Hc by congruence.
  - by rewrite cell_set_cell_ne by congruence.
Qed.

Lemma get_peers_ignores_own_cell_witness :
  get_peers (set_cell grid_puzzle4 0 1 4) (0, 1) = get_peers grid_puzzle4 (0, 1).
Proof.
  apply (get_peers_ignores_own_cell 4 grid_puzzle4 0 1 4).
  - split; [reflexivity|]. repeat constructor.
  - reflexivity.
  - lia.
  - lia.
Defined.

Section navigation.
Local Open Scope Z_scope.

Lemma mod_minus_one w : 0 < w → (-1) `mod` w = w - 1.
Proof. intros Hw. symmetry. apply (Z.mod_unique_pos _ _ (-1)); lia. Qed.

Lemma get_next_cell_cases x y w :
  0 ≤ x < w → 0 ≤ y < w →
  get_next_cell x y w =
    Ok (if decide (x + 1 = w) then (0, if decide (y + 1 = w) then 0 else y + 1)
        else (x + 1, y)).
Proof.
  intros Hx Hy. unfold get_next_cell, py_mod.
  destruct (decide (w = 0)) as [|_]; [lia|]. simpl.
  destruct (decide (x + 1 = w)) as [Hx1|Hx1].
  - rewrite Hx1, Z_mod_same_full, decide_True by done. simpl.
    destruct (decide (y + 1 = w)) as [Hy1|Hy1].
    + by rewrite Hy1, Z_mod_same_full.
    + by rewrite Z.mod_small by lia.
  - rewrite Z.mod_small by lia. by rewrite decide_False by lia.
Qed.

Lemma get_prev_cell_cases x y w :
  0 ≤ x < w → 0 ≤ y < w →
  get_prev_cell x y w =
    Ok (if decide (x = 0) then (w - 1, if decide (y = 0) then w - 1 else y - 1)
        else (x - 1, y)).
Proof.
  intros Hx Hy. unfold get_prev_cell, py_mod.
  destruct (decide (w = 0)) as [|_]; [lia|]. simpl.
  pose proof (mod_minus_one w ltac:(lia)) as Hm1.
  destruct (decide (x = 0)) as [Hx0|Hx0].
  - rewrite Hx0. change (0 - 1) with (-1). rewrite Hm1, decide_True by done.
    simpl. destruct (decide (y = 0)) as [Hy0|Hy0].
    + rewrite Hy0. change (0 - 1) with (-1). by rewrite Hm1.
    + by rewrite Z.mod_small by lia.
  - rewrite Z.mod_small by lia. by rewrite decide_False by lia.
Qed.
End navigation.

(** X13: for a cell inside a grid of positive width, [get_next_cell]
    and [get_prev_cell] return cells inside the grid and undo each
    other; with width [0] both raise a [ZeroDivisionError]. *)
Theorem next_prev_cell_inverse (x y w : Z) :
  (w = 0%Z → get_next_cell x y w = Raise ZeroDivisionError
             ∧ get_prev_cell x y w = Raise ZeroDivisionError)
  ∧ ((0 ≤ x < w)%Z → (0 ≤ y < w)%Z →
     ∃ nx ny px py,
       get_next_cell x y w = Ok (nx, ny) ∧ get_prev_cell x y w = Ok (px, py)
       ∧ (0 ≤ nx < w)%Z ∧ (0 ≤ ny < w)%Z ∧ (0 ≤ px < w)%Z ∧ (0 ≤ py < w)%Z
       ∧ get_prev_cell nx ny w = Ok (x, y)
       ∧ get_next_cell px py w = Ok (x, y)).
Proof.
  split.
  - intros ->. by unfold get_next_cell, get_prev_cell, py_mod.
  - intros Hx Hy. rewrite get_next_cell_cases, get_prev_cell_cases by done.
    set (n := if decide (x + 1 = w)%Z
              then (0, if decide (y + 1 = w)%Z then 0 else y + 1)%Z
              else (x + 1, y)%Z).
    set (p := if decide (x = 0)%Z
              then (w - 1, if decide (y = 0)%Z then w - 1 else y - 1)%Z
              else (x - 1, y)%Z).
    exists n.1, n.2, p.1, p.2. rewrite <- !surjective_pairing.
    split; [done|]. split; [done|]. subst n p.
    destruct (decide (x + 1 = w)%Z), (decide (y + 1 = w)%Z),
      (decide (x = 0%Z)), (decide (y = 0%Z)); simpl;
      try (exfalso; lia);
      (do 4 (split; [lia|]));
      rewrite get_next_cell_cases, get_prev_cell_cases by lia;
      repeat case_decide; try (exfalso; lia); split; f_equal; f_equal; lia.
Qed.

(** X14: inside a grid of positive width [get_next_cell] is the
    successor in reading order, wrapping from the last cell to the
    first: the index [y·w + x] grows by one modulo [w²]. *)
Theorem next_cell_reading_order (x y w : Z) :
  (0 ≤ x < w)%Z → (0 ≤ y < w)%Z →
  ∃ nx ny, get_next_cell x y w = Ok (nx, ny)
    ∧ (ny * w + nx = (y * w + x + 1) `mod` (w * w))%Z.
Proof.
  intros Hx Hy. rewrite get_next_cell_cases by done.
  destruct (decide (x + 1 = w)%Z) as [Hx1|Hx1];
    [destruct (decide (y + 1 = w)%Z) as [Hy1|Hy1]|]; do 2 eexists; (split; [done|]).
  - replace (y * w + x + 1)%Z with (w * w)%Z by nia.
    by rewrite Z_mod_same_full.
  - rewrite Z.mod_small by nia. nia.
  - rewrite Z.mod_small by nia. nia.
Qed.

Lemma next_cell_reading_order_witness :
  ∃ nx ny, get_next_cell 8 2 9 = Ok (nx, ny)
    ∧ (ny * 9 + nx = (2 * 9 + 8 + 1) `mod` (9 * 9))%Z.
Proof. apply (next_cell_reading_order 8 2 9); lia. Defined.

(** X15: [cell_at] maps every pixel of the rectangle drawn for a cell,
    its left and top edges included and its right and bottom edges
    excluded, back to that cell. *)
Theorem cell_at_inside_rect (cell_x cell_y x0 y0 x1 y1 pixel_x pixel_y : Z) :
  cell_rect cell_x cell_y = (x0, y0, x1, y1) →
  (x0 ≤ pixel_x < x1)%Z → (y0 ≤ pixel_y < y1)%Z →
  cell_at pixel_x pixel_y = (cell_x, cell_y).
Proof.
  unfold cell_rect, cell_at, DEFAULT_CELL_WIDTH_PIXELS.
  intros [= <- <- <- <-] Hx Hy. f_equal.
  - Z.to_euclidean_division_equations. lia.
  - Z.to_euclidean_division_equations. lia.
Qed.

Lemma cell_at_inside_rect_witness : cell_at 449 0 = (8, 0)%Z.
Proof.
  apply (cell_at_inside_rect 8 0 400 0 450 50 449 0).
  - reflexivity.
  - lia.
  - lia.
Defined.

Section reread.
Implicit Types (grid : RawGrid) (row : list pyval) (v : pyval).

Lemma cells_row_digits N row :
  N ≤ 9 → Forall (digit_cell N) row →
  let cs := concat (cells <$> (py_str <$> row)) in
  Forall (valid_cell N) cs ∧ length cs = length row
  ∧ cell_str <$> cs = (λ v, PyStr (py_str v)) <$> row.
Proof.
  intros HN Hrow. induction Hrow as [|v row (d & Hd & Hpy) Hrow IH]; [done|].
  destruct IH as (Hvalid & Hlen & Hstr).
  rewrite !fmap_cons, concat_cons, Hpy, cells_digit by lia.
  cbn [app length fmap list_fmap]. split; [|split].
  - constructor; [|done]. exists d. split; [|done].
    apply int_of_char_Ok. split; [lia|done].
  - by rewrite Hlen.
  - unfold cell_str at 1. by rewrite Hstr.
Qed.

Lemma cells_grid_digits N grid :
  N ≤ 9 → Forall (λ row, length row = N ∧ Forall (digit_cell N) row) grid →
  let cs := cells (str_join newline
                     ((λ row, str_join "  " (py_str <$> row)) <$> grid)) in
  Forall (valid_cell N) cs ∧ length cs = length grid * N
  ∧ cell_str <$> cs = concat (as_strings grid).
Proof.
  intros HN Hgrid. cbv zeta. rewrite cells_str_join by done.
  induction Hgrid as [|row grid [Hlen Hrow] Hgrid IH]; [done|].
  destruct IH as (Hvalid & Hlength & Hstr).
  destruct (cells_row_digits N row HN Hrow) as (Hvalid1 & Hlength1 & Hstr1).
  unfold as_strings in *.
  rewrite !fmap_cons, !concat_cons, cells_str_join by done.
  split; [|split].
  - by apply Forall_app.
  - rewrite length_app, Hlength, Hlength1, Hlen. simpl. lia.
  - by rewrite fmap_app, Hstr, Hstr1.
Qed.

Lemma read_write_digits N grid :
  1 ≤ N ≤ 9 → length grid = N →
  Forall (λ row, length row = N ∧ Forall (digit_cell N) row) grid →
  read_grid (write_grid grid) = Ok (as_strings grid).
Proof.
  intros HN Hlen Hgrid. unfold write_grid.
  rewrite Hlen, pretty_digit by lia.
  change (String (digit_char N) "" +:+ ?s) with (String (digit_char N) s).
  rewrite (read_grid_digit _ _ N) by (apply int_of_char_Ok; split; [lia|done]).
  rewrite cells_app. change (cells newline) with (@nil ascii). rewrite app_nil_l.
  destruct (cells_grid_digits N grid) as (Hvalid & Hlength & Hstr); [lia|done|].
  rewrite decide_True by done.
  rewrite decide_False by (rewrite Hlength, Hlen; simpl; lia).
  destruct (split_list_Ok (cell_str <$> cells (str_join newline
              ((λ row, str_join "  " (py_str <$> row)) <$> grid))) N)
    as (rows & -> & Hrows_len & Hrows & Hcat); [lia| |].
  { rewrite length_fmap, Hlength, Hlen. done. }
  f_equal. apply (concat_rows_inj N); [done| | |by rewrite Hcat].
  - unfold as_strings. apply Forall_fmap. eapply Forall_impl; [done|].
    intros row [Hrow _]. simpl. by rewrite length_fmap.
  - unfold as_strings. by rewrite length_fmap, Hlen.
Qed.

Lemma Forall_concat_inv {A} (P : A → Prop) (ls : list (list A)) :
  Forall P (concat ls) → Forall (Forall P) ls.
Proof.
  induction ls as [|l ls IH]; [constructor|].
  rewrite concat_cons, Forall_app. intros [Hl Hls]. constructor; auto.
Qed.

(** The shape and the cells of what [read_grid] returns. *)
Lemma read_grid_Ok content grid :
  read_grid content = Ok grid →
  ∃ N, 1 ≤ N ≤ 9 ∧ length grid = N
    ∧ Forall (λ row, length row = N
                     ∧ Forall (λ v, ∃ c, v = cell_str c ∧ valid_cell N c) row)
             grid.
Proof.
  destruct content as [|c rest]; [done|]. intros Hread.
  destruct (int_of_char c) as [N|e|] eqn:Hc;
    [|by unfold read_grid in Hread; rewrite Hc in Hread..].
  pose proof Hc as [HN9 _]%int_of_char_Ok.
  rewrite (read_grid_digit c rest N Hc) in Hread.
  case_decide as Hvalid; [|done]. case_decide as Hcount; [done|].
  destruct N as [|n]; [by unfold split_list, range_step in Hread|].
  destruct (split_list_Ok (cell_str <$> cells rest) (S n))
    as (rows & Hrows & Hlen & Hshape & Hcat); [lia| |].
  { by rewrite length_fmap, Hcount, Nat.pow_2_r. }
  assert (rows = grid) as -> by congruence.
  exists (S n). split; [lia|]. split; [done|].
  assert (Forall (λ v, ∃ c', v = cell_str c' ∧ valid_cell (S n) c') (concat grid))
    as Hcells%Forall_concat_inv.
  { rewrite Hcat. apply Forall_fmap. eapply Forall_impl; [done|].
    intros c' Hc'. simpl. eauto. }
  rewrite Forall_lookup in Hshape, Hcells. apply Forall_lookup.
  intros i row Hrow. eauto.
Qed.
End reread.

(** X16: a grid that [read_grid] returned survives the round trip
    unchanged: written with [write_grid] and read again, it comes back
    as it is.  Its width is between 1 and 9 and its cells are
    one-character strings. *)
Theorem read_write_read content grid :
  read_grid content = Ok grid →
  read_grid (write_grid grid) = Ok grid
  ∧ (∃ N, 1 ≤ N ≤ 9 ∧ length grid = N
       ∧ Forall (λ row, length row = N
                        ∧ Forall (λ v, ∃ c, v = PyStr (String c "")) row) grid).
Proof.
  intros (N & HN & Hlen & Hgrid)%read_grid_Ok. split.
  - rewrite (read_write_digits N); [|done..|].
    + f_equal. unfold as_strings. apply list_eq. intros i.
      rewrite list_lookup_fmap. destruct (grid !! i) as [row|] eqn:Hrow; [|done].
      simpl. f_equal. rewrite Forall_lookup in Hgrid.
      destruct (Hgrid _ _ Hrow) as [_ Hcells]. clear Hrow.
      induction Hcells as [|v row' (c & -> & _) _ IH]; [done|].
      by rewrite fmap_cons, IH.
    + eapply Forall_impl; [done|]. intros row [Hrow Hcells]. split; [done|].
      eapply Forall_impl; [done|].
      intros v (c & -> & d & [Hd ->]%int_of_char_Ok & Hle). by exists d.
  - exists N. split; [done|]. split; [done|].
    eapply Forall_impl; [done|]. intros row [Hrow Hcells]. split; [done|].
    eapply Forall_impl; [done|]. intros v (c & -> & _). by exists c.
Qed.

Lemma read_write_read_witness :
  read_grid (write_grid [[PyStr "1"]]) = Ok [[PyStr "1"]]
  ∧ (∃ N, 1 ≤ N ≤ 9 ∧ length [[PyStr "1"]] = N
       ∧ Forall (λ row, length row = N
                        ∧ Forall (λ v, ∃ c, v = PyStr (String c "")) row)
                [[PyStr "1"]]).
Proof.
  apply (read_write_read "11" [[PyStr "1"]]). vm_compute. reflexivity.
Defined.

Section blank_puzzle.
Implicit Types (g : Grid).

Lemma mod_add_inj N a1 a2 k :
  a1 < N → a2 < N → (a1 + k) mod N = (a2 + k) mod N → a1 = a2.
Proof.
  intros H1 H2 Hmod.
  pose proof (Nat.div_mod_eq (a1 + k) N) as E1.
  pose proof (Nat.div_mod_eq (a2 + k) N) as E2.
  rewrite Hmod in E1.
  destruct (lt_eq_lt_dec ((a1 + k) / N) ((a2 + k) / N)) as [[Hlt|Heq]|Hgt]; nia.
Qed.

Lemma base_digits_inj b r1 c1 r2 c2 :
  c1 < b → c2 < b → b * r1 + c1 = b * r2 + c2 → r1 = r2 ∧ c1 = c2.
Proof.
  intros H1 H2 Heq.
  destruct (lt_eq_lt_dec r1 r2) as [[Hlt|Heq']|Hgt]; [nia|split; nia|nia].
Qed.

Lemma pattern_value_inj b y1 x1 y2 x2 :
  0 < b → y1 < b * b → x1 < b * b → y2 < b * b → x2 < b * b →
  y2 = y1 ∨ x2 = x1 ∨ in_box_of b y1 x1 y2 x2 →
  pattern_value b y1 x1 = pattern_value b y2 x2 →
  (y1, x1) = (y2, x2).
Proof.
  intros Hb Hy1 Hx1 Hy2 Hx2 Hpeer Hval. unfold pattern_value in Hval.
  assert ((b * (y1 mod b) + y1 / b + x1) mod (b * b)
          = (b * (y2 mod b) + y2 / b + x2) mod (b * b)) as Hmod by lia.
  clear Hval.
  pose proof (Nat.div_mod_eq y1 b) as Ey1. pose proof (Nat.mod_upper_bound y1 b) as By1.
  pose proof (Nat.div_mod_eq y2 b) as Ey2. pose proof (Nat.mod_upper_bound y2 b) as By2.
  pose proof (Nat.div_mod_eq x1 b) as Ex1. pose proof (Nat.mod_upper_bound x1 b) as Bx1.
  pose proof (Nat.div_mod_eq x2 b) as Ex2. pose proof (Nat.mod_upper_bound x2 b) as Bx2.
  assert (y1 / b < b) as Qy1 by (apply Nat.Div0.div_lt_upper_bound; lia).
  assert (y2 / b < b) as Qy2 by (apply Nat.Div0.div_lt_upper_bound; lia).
  assert (x1 / b < b) as Qx1 by (apply Nat.Div0.div_lt_upper_bound; lia).
  assert (x2 / b < b) as Qx2 by (apply Nat.Div0.div_lt_upper_bound; lia).
  specialize (By1 ltac:(lia)). specialize (By2 ltac:(lia)).
  specialize (Bx1 ltac:(lia)). specialize (Bx2 ltac:(lia)).
  unfold in_box_of in Hpeer.
  remember (y1 mod b) as r1 eqn:Hr1. remember (y1 / b) as q1 eqn:Hq1.
  remember (y2 mod b) as r2 eqn:Hr2. remember (y2 / b) as q2 eqn:Hq2.
  remember (x1 mod b) as c1 eqn:Hc1. remember (x1 / b) as j1 eqn:Hj1.
  remember (x2 mod b) as c2 eqn:Hc2. remember (x2 / b) as j2 eqn:Hj2.
  destruct Hpeer as [Hsame|[Hsame|[Hq Hj]]].
  - assert (r2 = r1 ∧ q2 = q1) as [Er Eq] by (split; congruence).
    rewrite Er, Eq in Hmod.
    replace (b * r1 + q1 + x1) with (x1 + (b * r1 + q1)) in Hmod by lia.
    replace (b * r1 + q1 + x2) with (x2 + (b * r1 + q1)) in Hmod by lia.
    apply mod_add_inj in Hmod; [|done..]. congruence.
  - rewrite Hsame in Hmod.
    assert (b * r1 + q1 < b * b) by nia. assert (b * r2 + q2 < b * b) by nia.
    apply mod_add_inj in Hmod; [|done..].
    apply base_digits_inj in Hmod as [Hr Hq]; [|done..].
    f_equal; lia.
  - replace (b * r1 + q1 + x1) with (b * r1 + c1 + (q1 + b * j1)) in Hmod by lia.
    replace (b * r2 + q2 + x2) with (b * r2 + c2 + (q1 + b * j1)) in Hmod by lia.
    assert (b * r1 + c1 < b * b) by nia. assert (b * r2 + c2 < b * b) by nia.
    apply mod_add_inj in Hmod; [|done..].
    apply base_digits_inj in Hmod as [Hr Hc]; [|done..].
    f_equal; lia.
Qed.

Lemma square_grid_pattern b : square_grid (b * b) (pattern_grid b).
Proof.
  unfold pattern_grid. split; [by rewrite length_fmap, length_seq|].
  apply Forall_fmap, Forall_forall. intros y _. simpl.
  by rewrite length_fmap, length_seq.
Qed.

Lemma cell_pattern_grid b y x :
  y < b * b → x < b * b →
  cell (pattern_grid b) y x = Some (pattern_value b y x).
Proof.
  intros Hy Hx. apply cell_Some. unfold pattern_grid. eexists. split.
  - rewrite list_lookup_fmap, lookup_seq_lt by done. done.
  - rewrite list_lookup_fmap, lookup_seq_lt by done. done.
Qed.

Lemma int_sqrt_square b : int_sqrt (b * b) = b.
Proof. apply Nat.sqrt_square. Qed.

Lemma pattern_grid_solved b : 0 < b → is_solved (pattern_grid b) = Ok true.
Proof.
  intros Hb. pose proof (square_grid_pattern b) as Hsq.
  assert (perfect_square (b * b)) as Hps
    by (unfold perfect_square; by rewrite int_sqrt_square).
  apply (full_consistent_solved (b * b)); [done..|nia| | |].
  - unfold consistent. apply every_group_is_group. rewrite int_sqrt_square.
    intros ps Hgroup [y1 x1] [y2 x2] Hp Hq Hne Heq. destruct Hne.
    destruct (is_group_facts (b * b) b ps eq_refl Hgroup) as (_ & _ & Hlt).
    destruct (Hlt _ _ Hp) as [Hy1 Hx1]. destruct (Hlt _ _ Hq) as [Hy2 Hx2].
    rewrite (val_cell _ _ _ _ (cell_pattern_grid b y1 x1 Hy1 Hx1)) in Heq.
    rewrite (val_cell _ _ _ _ (cell_pattern_grid b y2 x2 Hy2 Hx2)) in Heq.
    apply (pattern_value_inj b); [done..| |done].
    by apply (is_group_peers (b * b) b ps).
  - intros y x v Hc.
    destruct (cell_square_grid_lt _ _ _ _ _ Hsq Hc) as [Hy Hx].
    rewrite cell_pattern_grid in Hc by done. injection Hc as <-.
    unfold pattern_value.
    pose proof (Nat.mod_upper_bound (b * (y mod b) + y / b + x) (b * b)). lia.
  - intros y x Hc.
    destruct (cell_square_grid_lt _ _ _ _ _ Hsq Hc) as [Hy Hx].
    rewrite cell_pattern_grid in Hc by done. injection Hc as Hc.
    unfold pattern_value, EMPTY_CELL_VALUE in Hc. lia.
Qed.

Lemma create_empty_grid_replicate N :
  create_empty_grid N = replicate N (replicate N EMPTY_CELL_VALUE).
Proof.
  unfold create_empty_grid, create_empty_cell, range. rewrite Nat.sub_0_r.
  rewrite (const_fmap _ (seq 0 N) (replicate N EMPTY_CELL_VALUE)).
  - by rewrite length_seq.
  - intros y. rewrite (const_fmap _ (seq 0 N) EMPTY_CELL_VALUE) by done.
    by rewrite length_seq.
Qed.

Lemma square_grid_empty N : square_grid N (create_empty_grid N).
Proof.
  rewrite create_empty_grid_replicate. split; [by rewrite length_replicate|].
  apply Forall_replicate. by rewrite length_replicate.
Qed.

Lemma cell_empty_grid N y x v :
  cell (create_empty_grid N) y x = Some v → v = EMPTY_CELL_VALUE.
Proof.
  rewrite create_empty_grid_replicate.
  intros (row & [-> _]%lookup_replicate & [-> _]%lookup_replicate)%cell_Some.
  done.
Qed.

Lemma val_empty_grid N p : val (create_empty_grid N) p = EMPTY_CELL_VALUE.
Proof.
  unfold val. destruct (cell (create_empty_grid N) p.1 p.2) as [v|] eqn:Hc; [|done].
  simpl. by eapply cell_empty_grid.
Qed.

Lemma consistent_empty_grid N : consistent N (create_empty_grid N).
Proof.
  unfold consistent. apply every_group_is_group.
  intros ps _ p q _ _ _ _. apply val_empty_grid.
Qed.

Lemma extends_empty_grid N s : square_grid N s → extends (create_empty_grid N) s.
Proof.
  intros [Hlen Hrows]. rewrite Forall_lookup in Hrows.
  rewrite create_empty_grid_replicate.
  apply Forall2_same_length_lookup_2.
  { by rewrite length_replicate. }
  intros y row row' [-> Hy]%lookup_replicate Hrow'.
  apply Forall2_same_length_lookup_2.
  { rewrite length_replicate. symmetry. eauto. }
  intros x a a' [-> _]%lookup_replicate _. by left.
Qed.
End blank_puzzle.

(** X17: for every positive perfect square [N] the blank grid of
    variables that [create_empty_grid] builds passes [is_valid_puzzle],
    is not solved, and [solve] fills it: it returns true and leaves a
    solved grid. *)
Theorem solve_blank_grid N :
  0 < N → perfect_square N →
  square_grid N (create_empty_grid N)
  ∧ is_valid_puzzle (create_empty_grid N) = Ok true
  ∧ is_solved (create_empty_grid N) = Ok false
  ∧ ∃ g', solve (create_empty_grid N) = Ok (true, g') ∧ is_solved g' = Ok true.
Proof.
  intros HN Hps. pose proof (square_grid_empty N) as Hsq.
  assert (0 < int_sqrt N) as Hb by (by apply perfect_square_pos).
  split; [done|]. split; [|split].
  - destruct (is_valid_puzzle_spec N (create_empty_grid N)) as (r & -> & Hr); [done..|].
    f_equal. apply Hr, consistent_empty_grid.
  - destruct (is_solved_spec N (create_empty_grid N)) as (r & -> & Hr); [done..|].
    f_equal. destruct r; [|done]. exfalso.
    destruct (proj1 Hr eq_refl) as (Hrows & _).
    specialize (Hrows 0 HN).
    assert (val (create_empty_grid N) (0, 0) ∈ digits N) as Hin.
    { rewrite <- Hrows. apply list_elem_of_fmap_2.
      apply list_elem_of_fmap. exists 0. split; [done|]. apply elem_of_seq. lia. }
    rewrite val_empty_grid in Hin. apply elem_of_digits in Hin.
    unfold EMPTY_CELL_VALUE in Hin. lia.
  - pose proof (count_empty_le (create_empty_grid N)) as Hle.
    destruct (solve_fuel_complete N (S (cell_count (create_empty_grid N)))
                (create_empty_grid N) 0 0 (pattern_grid (int_sqrt N)))
      as (g' & Hsolve); [done..|lia| |].
    { unfold perfect_square in Hps. split; [|split].
      - rewrite <- Hps at 1. apply square_grid_pattern.
      - apply extends_empty_grid. rewrite <- Hps at 1. apply square_grid_pattern.
      - by apply pattern_grid_solved. }
    exists g'. split; [done|].
    destruct (solve_fuel_sound N _ Hps _ _ _ _ Hsq (consistent_empty_grid N)
                ltac:(intros y x v ->%cell_empty_grid;
                      unfold EMPTY_CELL_VALUE; lia) Hsolve)
      as (Hsq' & Hcons' & Hrange' & Hfull).
    apply (full_consistent_solved N); [done..|].
    intros y x. apply Hfull. unfold at_or_after. lia.
Qed.

Lemma solve_blank_grid_witness :
  square_grid 4 (create_empty_grid 4)
  ∧ is_valid_puzzle (create_empty_grid 4) = Ok true
  ∧ is_solved (create_empty_grid 4) = Ok false
  ∧ ∃ g', solve (create_empty_grid 4) = Ok (true, g') ∧ is_solved g' = Ok true.
Proof. apply (solve_blank_grid 4); [lia|reflexivity]. Defined.

Section first_solution.
Implicit Types (g s : Grid) (rec : Grid → nat → nat → res (bool * Grid)).

(** The digit a completion holds at an empty cell is in range and free. *)
Lemma completion_digit N g s y x peer_set :
  square_grid N g → perfect_square N → completes N g s →
  cell g y x = Some EMPTY_CELL_VALUE →
  get_peers g (y, x) = Ok peer_set →
  ∃ n, cell s y x = Some (Z.of_nat n) ∧ 1 ≤ n ≤ N ∧ Z.of_nat n ∉ peer_set.
Proof.
  intros Hsq Hps (Hsqs & Hext & Hsolved) Hc Hpeers.
  pose proof (extends_keeps_clues g s Hext) as Hkeeps.
  destruct (solved_cells N s) as (Hcons & Hcells); [done..|].
  assert (0 < int_sqrt N) as Hb.
  { apply perfect_square_pos; [done|]. by eapply square_grid_pos_of_solved. }
  destruct (cell_square_grid_lt N g y x _ Hsq Hc) as [Hy Hx].
  destruct (get_peers_all N g y x) as (ps & Hps' & Hin); [done..|].
  assert (ps = peer_set) as -> by congruence.
  destruct (Hcells y x Hy Hx) as (v & Hv & Hrange).
  exists (Z.to_nat v). rewrite Z2Nat.id by lia. split; [done|]. split; [lia|].
  intros (y' & x' & Hne & Hpeer & Hc')%Hin.
  destruct (cell_square_grid_lt N g y' x' _ Hsq Hc') as [Hy' Hx'].
  assert (v ≠ EMPTY_CELL_VALUE) as Hv0 by (unfold EMPTY_CELL_VALUE; lia).
  pose proof (Hkeeps y' x' v Hv0 Hc') as Hs'.
  destruct (peers_is_group N (int_sqrt N) y x y' x') as (qs & Hgroup & Hp & Hq);
    [done|by symmetry|done..|].
  unfold consistent in Hcons. rewrite every_group_is_group in Hcons.
  assert (val s (y, x) = EMPTY_CELL_VALUE) as Hzero.
  { apply (Hcons qs Hgroup (y, x) (y', x')); [done..|congruence|].
    by rewrite (val_cell _ _ _ _ Hv), (val_cell _ _ _ _ Hs'). }
  rewrite (val_cell _ _ _ _ Hv) in Hzero. done.
Qed.

(** The digit loop succeeds at the first digit whose recursive call
    succeeds, so at no later digit than any digit known to succeed. *)
Lemma try_digits_first rec peer_set y x g0 n :
  restores rec →
  (∃ g2, rec (set_cell g0 y x (Z.of_nat n)) y x = Ok (true, g2)) →
  Z.of_nat n ∉ peer_set →
  cell g0 y x = Some EMPTY_CELL_VALUE →
  ∀ len a g g',
    a ≤ n < a + len →
    set_cell g y x EMPTY_CELL_VALUE = g0 →
    try_digits rec peer_set y x (seq a len) g = Ok (true, g') →
    ∃ d, a ≤ d ≤ n ∧ rec (set_cell g0 y x (Z.of_nat d)) y x = Ok (true, g').
Proof.
  intros Hres [g2 Hn] Hfree H0. induction len as [|len IH];
    intros a g g' Ha Hg; [lia|]. simpl.
  case_decide as Hd.
  { intros Hrest. assert (a ≠ n) by (intros ->; done).
    destruct (IH (S a) g g') as (d & Hd' & Hcall); [lia|done..|].
    exists d. split; [lia|done]. }
  assert (set_cell g y x (Z.of_nat a) = set_cell g0 y x (Z.of_nat a)) as ->
    by (by rewrite <- Hg, set_cell_set_cell).
  destruct (rec (set_cell g0 y x (Z.of_nat a)) y x)
    as [[[] g1]|e|] eqn:Hcall; simpl; [| |done..].
  - intros [= <-]. exists a. split; [lia|done].
  - intros Hrest. assert (a ≠ n) by (intros ->; congruence).
    apply Hres in Hcall as ->.
    destruct (IH (S a) _ g' ltac:(lia)
                ltac:(rewrite set_cell_set_cell; by apply set_cell_id) Hrest)
      as (d & Hd' & Hcall).
    exists d. split; [lia|done].
Qed.

Lemma full_grid_eq_completion N g s :
  square_grid N g → completes N g s →
  (∀ y x, cell g y x ≠ Some EMPTY_CELL_VALUE) → g = s.
Proof.
  intros Hsq (Hsqs & Hext & _) Hfull.
  pose proof (extends_keeps_clues g s Hext) as Hkeeps.
  apply (rectangle_ext N N); [apply Hsq..|apply Hsqs|apply Hsqs|].
  intros y x v. split.
  - intros Hc. apply Hkeeps; [|done]. intros ->. by apply (Hfull y x).
  - intros Hc. destruct (cell_square_grid_lt N s y x _ Hsqs Hc) as [Hy Hx].
    destruct (square_grid_cell N g y x) as [w Hw]; [done..|].
    assert (w ≠ EMPTY_CELL_VALUE) as Hw0 by (intros ->; by apply (Hfull y x)).
    pose proof (Hkeeps y x w Hw0 Hw). congruence.
Qed.

Lemma solve_fuel_first N fuel : ∀ g y0 x0 g' s,
  square_grid N g → perfect_square N → count_empty g < fuel →
  (∀ y x, ¬ at_or_after y0 x0 y x → cell g y x ≠ Some EMPTY_CELL_VALUE) →
  solve_fuel fuel g y0 x0 = Ok (true, g') →
  completes N g s →
  reading_le g' s.
Proof.
  induction fuel as [|fuel IH];
    intros g y0 x0 g' s Hsq Hps Hfuel Hbefore Hsolve Hcomp; [lia|].
  pose proof Hcomp as (Hsqs & Hext & Hsolved).
  pose proof (extends_keeps_clues g s Hext) as Hkeeps.
  simpl in Hsolve. unfold solve_body in Hsolve.
  destruct (first_empty g y0 x0) as [[y x]|] eqn:Hfe.
  - apply first_empty_Some in Hfe as (Hc & Hafter & Hfirst).
    destruct (get_peers g (y, x)) as [peer_set|e|] eqn:Hpeers;
      simpl in Hsolve; [|done..].
    destruct (completion_digit N g s y x peer_set) as (n & Hs & Hn & Hfree);
      [done..|].
    assert (count_empty (set_cell g y x (Z.of_nat n)) < fuel) as Hfuel'.
    { pose proof (count_empty_set_cell g y x (Z.of_nat n) Hc) as Hcount.
      unfold EMPTY_CELL_VALUE in Hcount. specialize (Hcount ltac:(lia)). lia. }
    assert (completes N (set_cell g y x (Z.of_nat n)) s) as Hcomp'.
    { split; [done|]. split; [|done].
      apply (keeps_clues_extends N); [by apply square_grid_set_cell|done|].
      by apply keeps_clues_set_cell_l. }
    assert (∀ y' x', ¬ at_or_after y x y' x' →
                     cell g y' x' ≠ Some EMPTY_CELL_VALUE) as Hbefore'.
    { intros y' x' Hnot.
      destruct (decide (at_or_after y0 x0 y' x')); [by apply Hfirst|by apply Hbefore]. }
    destruct (try_digits_first (solve_fuel fuel) peer_set y x g n) with
      (len := length g + 1 - 1) (a := 1) (g := g) (g' := g')
      as (d & Hd & Hcall);
      [apply solve_fuel_restores| |done..| |by apply set_cell_id|done|].
    { apply (solve_fuel_complete N _ _ _ _ s); [by apply square_grid_set_cell|done..]. }
    { destruct Hsq as [-> _]. lia. }
    destruct (decide (d = n)) as [->|Hdn].
    + apply (IH _ y x _ s) in Hcall; [done|by apply square_grid_set_cell|done..| |done].
      intros y' x' Hnot. rewrite cell_set_cell_ne.
      * by apply Hbefore'.
      * intros [= <- <-]. apply Hnot. unfold at_or_after. lia.
    + right. exists y, x, (Z.of_nat d), (Z.of_nat n).
      pose proof (solve_fuel_keeps _ _ _ _ _ _ Hcall) as Hk.
      pose proof (solve_fuel_shape _ _ _ _ _ _ Hcall) as Hshape.
      split; [|split; [done|split; [lia|]]].
      * apply Hk; [unfold EMPTY_CELL_VALUE; lia|].
        apply cell_set_cell_eq. by rewrite Hc.
      * intros y' x' Hnot.
        assert ((y, x) ≠ (y', x')) as Hne.
        { intros [= <- <-]. apply Hnot. unfold at_or_after. lia. }
        destruct (cell g y' x') as [w|] eqn:Hw.
        -- assert (w ≠ EMPTY_CELL_VALUE) as Hw0.
           { intros ->. by apply (Hbefore' y' x'). }
           rewrite (Hkeeps y' x' w Hw0 Hw). apply Hk; [done|].
           by rewrite cell_set_cell_ne.
        -- assert (cell g' y' x' = None) as ->.
           { apply eq_None_not_Some. rewrite Hshape, cell_set_cell_is_Some, Hw.
             by intros [? ?]. }
           symmetry. apply eq_None_not_Some. intros [w' Hw'].
           destruct (cell_square_grid_lt N s y' x' _ Hsqs Hw') as [Hy' Hx'].
           destruct (square_grid_cell N g y' x'); [done..|congruence].
  - injection Hsolve as <-. left.
    apply (full_grid_eq_completion N); [done..|].
    intros y x. destruct (decide (at_or_after y0 x0 y x)).
    + by apply (first_empty_None g y0 x0).
    + by apply Hbefore.
Qed.
End first_solution.

(** X18: the solved grid [solve] leaves is the first completion of the
    puzzle in reading order: every solved grid that keeps the clues is
    equal to it or holds a larger digit at the first cell where the two
    differ. *)
Theorem solve_first_solution N g g' s :
  square_grid N g → perfect_square N →
  solve g = Ok (true, g') → completes N g s →
  reading_le g' s.
Proof.
  intros Hsq Hps Hsolve Hcomp.
  apply (solve_fuel_first N (S (cell_count g)) g 0 0 g' s);
    [done|done| | |done|done].
  - pose proof (count_empty_le g). lia.
  - intros y x Hnot. destruct Hnot. unfold at_or_after. lia.
Qed.

Lemma solve_first_solution_witness : reading_le grid_solved4 grid_solved4.
Proof.
  apply (solve_first_solution 4 grid_puzzle4 grid_solved4 grid_solved4).
  - split; [reflexivity|]. repeat constructor.
  - reflexivity.
  - vm_compute. reflexivity.
  - split; [split; [reflexivity|repeat constructor]|].
    split; [|vm_compute; reflexivity].
    unfold extends, grid_puzzle4, grid_solved4.
    repeat match goal with
           | |- Forall2 _ _ _ => constructor
           | |- _ ∨ _ => first [left; reflexivity | right; reflexivity]
           end.
Defined.

Section start_button.
Implicit Types (g s : Grid).

Lemma solve_valid_outcome N g :
  square_grid N g → perfect_square N → cells_in_range N g → consistent N g →
  0 < N →
  ∃ b g', solve g = Ok (b, g')
    ∧ if (b : bool) then completes N g g'
      else g' = g ∧ ∀ s, ¬ completes N g s.
Proof.
  intros Hsq Hps Hrange Hcons HN.
  pose proof (count_empty_le g) as Hle.
  destruct (solve_fuel_returns N (S (cell_count g)) g 0 0)
    as (b & g' & Hsolve & Hsq'); [done..|lia|].
  exists b, g'. split; [done|]. destruct b.
  - destruct (solve_fuel_sound N (S (cell_count g)) Hps g 0 0 g')
      as (_ & Hcons' & Hrange' & Hfull); [done..|].
    split; [done|]. split.
    + apply (keeps_clues_extends N); [done..|]. by eapply solve_fuel_keeps.
    + apply (full_consistent_solved N); [done..|].
      intros y x. apply Hfull. unfold at_or_after. lia.
  - split; [by apply solve_fuel_restores in Hsolve|].
    intros s Hcomp.
    destruct (solve_fuel_complete N (S (cell_count g)) g 0 0 s)
      as (g2 & Hg2); [done..|lia|done|].
    congruence.
Qed.
End start_button.

(** X19: on an [N]×[N] grid, [N] a positive perfect square, with cells
    in [[0, N]], the Start button of the interactive variant always
    comes back, and what it shows is right: no message means the grid is
    now a solved grid that keeps every clue; "invalid initial
    conditions" means some row, column or box holds a digit twice and
    the grid is untouched; "not solvable" means the clues are
    consistent, no solved grid keeps them all, and the grid is
    untouched. *)
Theorem start_outcomes N (g : Grid) :
  0 < N → square_grid N g → perfect_square N → in_range N g →
  ∃ m g', start g = Ok (m, g')
    ∧ match m with
      | None => completes N g g'
      | Some InvalidInitialConditions =>
          g' = g ∧ ¬ every_group N (no_duplicate_digit g)
      | Some NotSolvable =>
          g' = g ∧ every_group N (no_duplicate_digit g)
          ∧ ∀ s, ¬ completes N g s
      end.
Proof.
  intros HN Hsq Hps Hrange. unfold start.
  destruct (is_valid_puzzle_spec N g) as (r & -> & Hr); [done..|]. simpl.
  destruct r; simpl.
  - pose proof (proj1 Hr eq_refl) as Hcons.
    destruct (solve_valid_outcome N g) as (b & g' & -> & Hout);
      [done|done|by apply in_range_cells|done|done|].
    simpl. destruct b; simpl; [by eauto|].
    destruct Hout as [-> Hnone]. do 2 eexists. split; [done|]. by simpl.
  - do 2 eexists. split; [done|]. split; [done|].
    intros Hcons. by apply Hr in Hcons.
Qed.

Lemma start_outcomes_witness :
  ∃ m g', start grid_stuck4 = Ok (m, g')
    ∧ match m with
      | None => completes 4 grid_stuck4 g'
      | Some InvalidInitialConditions =>
          g' = grid_stuck4 ∧ ¬ every_group 4 (no_duplicate_digit grid_stuck4)
      | Some NotSolvable =>
          g' = grid_stuck4 ∧ every_group 4 (no_duplicate_digit grid_stuck4)
          ∧ ∀ s, ¬ completes 4 grid_stuck4 s
      end.
Proof.
  apply (start_outcomes 4 grid_stuck4).
  - lia.
  - split; [reflexivity|]. repeat constructor.
  - reflexivity.
  - repeat first [lia | constructor].
Defined.

Section keyboard.
Implicit Types (g : Grid) (ed : editor).

Lemma py_index_Ok {A} (l : list A) (i : Z) :
  (0 ≤ i < Z.of_nat (length l))%Z → py_index l i = Ok (Z.to_nat i).
Proof. intros Hi. unfold py_index. by rewrite decide_True. Qed.

Lemma set_cell_at_Ok N g y x v :
  square_grid N g → (0 ≤ y < Z.of_nat N)%Z → (0 ≤ x < Z.of_nat N)%Z →
  set_cell_at g y x v = Ok (set_cell g (Z.to_nat y) (Z.to_nat x) v).
Proof.
  intros [Hlen Hrows] Hy Hx. unfold set_cell_at.
  rewrite py_index_Ok by lia. simpl.
  destruct (lookup_lt_is_Some_2 g (Z.to_nat y)) as [row Hrow]; [lia|].
  rewrite (getitem_Some _ _ _ Hrow). simpl.
  rewrite Forall_lookup in Hrows. specialize (Hrows _ _ Hrow).
  by rewrite py_index_Ok by lia.
Qed.

Lemma digit_key_range keysym n : digit_key keysym = Some n → (0 ≤ n ≤ 9)%Z.
Proof.
  unfold digit_key. intros ([i s] & Hfind & ->)%fmap_Some.
  apply list_find_Some in Hfind as (Hi%lookup_lt_Some & _).
  rewrite length_fmap in Hi. unfold range in Hi. rewrite length_seq in Hi.
  unfold DEFAULT_GRID_WIDTH_CELLS in Hi. simpl in *. lia.
Qed.

Lemma digit_key_pretty (n : nat) :
  n ≤ 9 →
  (pretty n ∉ ["Up"; "Down"; "Left"; "Right"])
  ∧ digit_key (pretty n) = Some (Z.of_nat n).
Proof.
  intros Hn.
  do 10 (destruct n as [|n];
         [split; [|reflexivity]; intros Hin;
          repeat (apply elem_of_cons in Hin as [Hin|Hin]; [vm_compute in Hin; discriminate|]);
          by apply not_elem_of_nil in Hin|]).
  lia.
Qed.

Lemma editor_grid_set_cell g y x v :
  square_grid 9 g → in_range 9 g → (0 ≤ v ≤ 9)%Z →
  square_grid 9 (set_cell g y x v) ∧ in_range 9 (set_cell g y x v).
Proof.
  intros Hsq Hrange Hv. split; [by apply square_grid_set_cell|].
  apply in_range_cells, cells_in_range_set_cell; [by apply in_range_cells|done].
Qed.

Lemma next_cell_range x y :
  (0 ≤ x < 9)%Z → (0 ≤ y < 9)%Z →
  ∃ nx ny, get_next_cell x y 9 = Ok (nx, ny)
           ∧ (0 ≤ nx < 9)%Z ∧ (0 ≤ ny < 9)%Z.
Proof.
  intros Hx Hy. rewrite get_next_cell_cases by done.
  repeat case_decide; do 2 eexists; (split; [done|]); lia.
Qed.

Lemma prev_cell_range x y :
  (0 ≤ x < 9)%Z → (0 ≤ y < 9)%Z →
  ∃ px py, get_prev_cell x y 9 = Ok (px, py)
           ∧ (0 ≤ px < 9)%Z ∧ (0 ≤ py < 9)%Z.
Proof.
  intros Hx Hy. rewrite get_prev_cell_cases by done.
  repeat case_decide; do 2 eexists; (split; [done|]); lia.
Qed.
End keyboard.

(** X20: the keyboard handler keeps the editor well-formed: when the
    highlighted cell, if any, is a cell of the 9×9 grid and the grid
    holds values in [[0, 9]], a key press of any kind raises nothing and
    leaves a highlighted cell and a grid of the same kind. *)
Theorem handle_key_press_keeps_ok (ed : editor) (keysym : string) :
  editor_ok ed →
  ∃ ed', handle_key_press ed keysym = Ok ed' ∧ editor_ok ed'.
Proof.
  destruct ed as [[[x y]|] g]; unfold editor_ok, handle_key_press; simpl;
    [|by eauto].
  intros ([Hx Hy] & Hsq & Hrange).
  change (Z.of_nat DEFAULT_GRID_WIDTH_CELLS) with 9%Z.
  case_decide as Harrow.
  { unfold change_hl_cell.
    repeat case_decide; simpl; (eexists; split; [done|]); simpl;
      (split; [lia|done]). }
  assert (∀ v, (0 ≤ v ≤ 9)%Z →
    ∃ grid, set_cell_at g y x v = Ok grid
            ∧ square_grid DEFAULT_GRID_WIDTH_CELLS grid
            ∧ in_range DEFAULT_GRID_WIDTH_CELLS grid) as Hset.
  { intros v Hv. eexists. split.
    - by apply (set_cell_at_Ok 9).
    - by apply editor_grid_set_cell. }
  destruct (next_cell_range x y Hx Hy) as (nx & ny & Hnext & Hnx & Hny).
  destruct (prev_cell_range x y Hx Hy) as (px & py & Hprev & Hpx & Hpy).
  destruct (digit_key keysym) as [n|] eqn:Hkey.
  - destruct (Hset n (digit_key_range _ _ Hkey)) as (grid & -> & Hgrid).
    simpl. rewrite Hnext. simpl. eexists. split; [done|]. simpl. by split.
  - destruct (Hset 0%Z ltac:(lia)) as (grid & Hgrid & Hok).
    case_decide; [|case_decide].
    + rewrite Hgrid. simpl. rewrite Hnext. simpl.
      eexists. split; [done|]. simpl. by split.
    + rewrite Hgrid. simpl. rewrite Hprev. simpl.
      eexists. split; [done|]. simpl. by split.
    + eexists. split; [done|]. simpl. by split.
Qed.

Lemma handle_key_press_keeps_ok_witness :
  ∃ ed', handle_key_press (Editor (Some (8, 8)%Z) (create_empty_grid 9)) "5"
         = Ok ed'
         ∧ editor_ok ed'.
Proof.
  apply (handle_key_press_keeps_ok
           (Editor (Some (8, 8)%Z) (create_empty_grid 9)) "5").
  split; [simpl; lia|]. split.
  - split; [reflexivity|]. vm_compute. repeat constructor.
  - unfold in_range. simpl.
    repeat constructor; unfold create_empty_cell, EMPTY_CELL_VALUE; simpl; lia.
Defined.

(** X21: with a cell of the 9×9 grid highlighted, the key of a digit
    [n ≤ 9] writes [n] into that cell, leaves every other cell as it
    was, and moves the highlight to the next cell in reading order,
    wrapping from the last cell to the first. *)
Theorem digit_key_writes (ed : editor) (x y : Z) (n : nat) :
  editor_ok ed → highlighted_cell ed = Some (x, y) → n ≤ 9 →
  ∃ ed', handle_key_press ed (pretty n) = Ok ed'
    ∧ cell (editor_grid ed') (Z.to_nat y) (Z.to_nat x) = Some (Z.of_nat n)
    ∧ (∀ y' x', (y', x') ≠ (Z.to_nat y, Z.to_nat x) →
                cell (editor_grid ed') y' x' = cell (editor_grid ed) y' x')
    ∧ highlighted_cell ed'
      = Some (if decide (x + 1 = 9)%Z
              then (0, if decide (y + 1 = 9)%Z then 0 else y + 1)%Z
              else (x + 1, y)%Z).
Proof.
  destruct ed as [hl g]. unfold editor_ok. simpl.
  intros (Hhl & Hsq & Hrange) -> Hn. destruct Hhl as [Hx Hy].
  destruct (digit_key_pretty n Hn) as [Harrow Hkey].
  unfold handle_key_press. simpl.
  rewrite decide_False by done. rewrite Hkey.
  change (Z.of_nat DEFAULT_GRID_WIDTH_CELLS) with 9%Z.
  rewrite (set_cell_at_Ok 9) by done. simpl.
  rewrite get_next_cell_cases by done.
  assert (cell (set_cell g (Z.to_nat y) (Z.to_nat x) (Z.of_nat n))
               (Z.to_nat y) (Z.to_nat x) = Some (Z.of_nat n)) as Hwritten.
  { apply cell_set_cell_eq. apply (square_grid_cell 9); [done|lia..]. }
  assert (∀ y' x', (y', x') ≠ (Z.to_nat y, Z.to_nat x) →
            cell (set_cell g (Z.to_nat y) (Z.to_nat x) (Z.of_nat n)) y' x'
            = cell g y' x') as Hothers.
  { intros y' x' Hne. by rewrite cell_set_cell_ne. }
  destruct (decide (x + 1 = 9)%Z); [destruct (decide (y + 1 = 9)%Z)|];
    simpl; (eexists; split; [done|]); simpl; done.
Qed.

Lemma digit_key_writes_witness :
  ∃ ed', handle_key_press (Editor (Some (8, 8)%Z) (create_empty_grid 9))
                          (pretty 5) = Ok ed'
    ∧ cell (editor_grid ed') (Z.to_nat 8) (Z.to_nat 8) = Some (Z.of_nat 5)
    ∧ (∀ y' x', (y', x') ≠ (Z.to_nat 8, Z.to_nat 8) →
                cell (editor_grid ed') y' x'
                = cell (editor_grid
                          (Editor (Some (8, 8)%Z) (create_empty_grid 9))) y' x')
    ∧ highlighted_cell ed'
      = Some (if decide (8 + 1 = 9)%Z
              then (0, if decide (8 + 1 = 9)%Z then 0 else 8 + 1)%Z
              else (8 + 1, 8)%Z).
Proof.
  apply (digit_key_writes (Editor (Some (8, 8)%Z) (create_empty_grid 9)) 8 8 5).
  - split; [simpl; lia|]. split.
    + split; [reflexivity|]. vm_compute. repeat constructor.
    + unfold in_range. simpl.
      repeat constructor; unfold create_empty_cell, EMPTY_CELL_VALUE; simpl; lia.
  - reflexivity.
  - lia.
Defined.

Section mouse.
Implicit Types (g : Grid) (ed : editor).

Lemma set_cell_at_Raise g y x v :
  square_grid 9 g → ¬ ((-9 ≤ x < 9)%Z ∧ (-9 ≤ y < 9)%Z) →
  set_cell_at g y x v = Raise IndexError.
Proof.
  intros [Hlen Hrows] Hout. unfold set_cell_at, py_index. rewrite Hlen.
  rewrite Forall_lookup in Hrows.
  case_decide as Hy1; [|case_decide as Hy2; [|done]]; simpl.
  - destruct (lookup_lt_is_Some_2 g (Z.to_nat y)) as [row Hrow]; [lia|].
    rewrite (getitem_Some _ _ _ Hrow). simpl. rewrite (Hrows _ _ Hrow).
    repeat case_decide; try done; lia.
  - destruct (lookup_lt_is_Some_2 g (Z.to_nat (Z.of_nat 9 + y))) as [row Hrow]; [lia|].
    rewrite (getitem_Some _ _ _ Hrow). simpl. rewrite (Hrows _ _ Hrow).
    repeat case_decide; try done; lia.
Qed.
End mouse.

(** X22: a click never touches the grid, and on a well-formed editor the
    cell it highlights is a cell of the 9×9 grid exactly when the pixel
    lies on the canvas, that is when both its coordinates are in
    [[0, GRID_WIDTH_PIXELS)]. *)
Theorem handle_click_keeps_ok (ed : editor) (event_x event_y : Z) :
  editor_ok ed →
  editor_grid (handle_click ed event_x event_y) = editor_grid ed
  ∧ (editor_ok (handle_click ed event_x event_y)
     ↔ (0 ≤ event_x < GRID_WIDTH_PIXELS)%Z ∧ (0 ≤ event_y < GRID_WIDTH_PIXELS)%Z).
Proof.
  intros (_ & Hsq & Hrange).
  unfold handle_click, cell_at, change_hl_cell, editor_ok, GRID_WIDTH_PIXELS,
    DEFAULT_CELL_WIDTH_PIXELS. simpl.
  split; [done|].
  change (Z.of_nat DEFAULT_GRID_WIDTH_CELLS * 50)%Z with 450%Z.
  pose proof (Z.div_mod event_x 50 ltac:(lia)) as Hdx.
  pose proof (Z.mod_pos_bound event_x 50 ltac:(lia)) as Hmx.
  pose proof (Z.div_mod event_y 50 ltac:(lia)) as Hdy.
  pose proof (Z.mod_pos_bound event_y 50 ltac:(lia)) as Hmy.
  split.
  - intros ([Hx Hy] & _). lia.
  - intros [Hx Hy]. split; [lia|done].
Qed.

Lemma handle_click_keeps_ok_witness :
  editor_grid (handle_click (Editor None (create_empty_grid 9)) 125 449)
  = create_empty_grid 9
  ∧ (editor_ok (handle_click (Editor None (create_empty_grid 9)) 125 449)
     ↔ (0 ≤ 125 < GRID_WIDTH_PIXELS)%Z ∧ (0 ≤ 449 < GRID_WIDTH_PIXELS)%Z).
Proof.
  apply (handle_click_keeps_ok (Editor None (create_empty_grid 9)) 125 449).
  split; [exact I|]. split.
  - split; [reflexivity|]. vm_compute. repeat constructor.
  - unfold in_range. simpl.
    repeat constructor; unfold create_empty_cell, EMPTY_CELL_VALUE; simpl; lia.
Defined.

(** X23: the keyboard handler checks no range of its own: on a 9×9 grid,
    when the highlighted cell has a coordinate outside [[-9, 9)], as
    after a click at or beyond pixel [GRID_WIDTH_PIXELS], a digit key
    raises an [IndexError]. *)
Theorem digit_key_outside_grid (ed : editor) (x y : Z) (n : nat) :
  square_grid DEFAULT_GRID_WIDTH_CELLS (editor_grid ed) →
  highlighted_cell ed = Some (x, y) → n ≤ 9 →
  ¬ ((-9 ≤ x < 9)%Z ∧ (-9 ≤ y < 9)%Z) →
  handle_key_press ed (pretty n) = Raise IndexError.
Proof.
  destruct ed as [hl g]. simpl. intros Hsq -> Hn Hout.
  destruct (digit_key_pretty n Hn) as [Harrow Hkey].
  unfold handle_key_press. simpl.
  rewrite decide_False by done. rewrite Hkey.
  by rewrite set_cell_at_Raise.
Qed.

Lemma digit_key_outside_grid_witness :
  handle_key_press (handle_click (Editor None (create_empty_grid 9)) 450 20) (pretty 5)
  = Raise IndexError.
Proof.
  apply (digit_key_outside_grid
           (handle_click (Editor None (create_empty_grid 9)) 450 20) 9 0 5).
  - split; [reflexivity|]. vm_compute. repeat constructor.
  - reflexivity.
  - lia.
  - lia.
Defined.
